(** * Tiled GEMM launcher, kernel interface and GPT-NeoX evaluator

    A shallow embedding of

    - [jit_blas_wrapper.h]: [GemmLauncherPackWeight],
      [GemmLauncherPackWeightDynamicQuant], [GemmInterfacePackWeight],
      [GemmInterfaceDynamicQuant];
    - the GPT-NeoX evaluator: [gptneox_model_eval_internal], [model_eval].

    C++ [int] values are embedded as [Z]; signed overflow is undefined
    behaviour in C++, so the embedding describes the executions in which no
    [int] operation overflows.  A [for] loop whose step is not positive does
    not terminate in the source; loops are therefore run on fuel and return
    [None] when the fuel is exhausted. *)

From Stdlib Require Import ZArith Lia String Reals.
From stdpp Require Import base numbers option list.

Local Open Scope Z_scope.

(** ** Helpers of [jblas::utils] *)

Module utils.

(** Modelled from the spec: [utils::remainsize] lives in jit_blas_utils.h,
    which is not part of the sources at hand.  The launcher walks a range
    "in NStep chunks": the chunk that starts at [pos] has [N] elements,
    except the last one, which has what is left of [size]. *)
Definition remainsize (pos size N : Z) : Z :=
  if pos + N <=? size then N else size - pos.

(** Modelled from the spec: [utils::padto_le] (jit_blas_utils.h, not part of
    the sources at hand) gives "the largest multiple of KTILE" that fits;
    C++ integer division truncates. *)
Definition padto_le (src padding : Z) : Z := src ÷ padding * padding.

(** Modelled from the spec: [utils::padto] (jit_blas_utils.h, not part of the
    sources at hand) rounds up to the next multiple of the tile, which keeps
    the micro-kernel on "K-tile-aligned chunks". *)
Definition padto (src padding : Z) : Z := (src + padding - 1) ÷ padding * padding.

End utils.

(** ** Loops on fuel *)

(** [for (int it = start; it < n; it += step) body(it)], collecting what the
    iterations emit.  [None]: an iteration failed or the fuel ran out. *)
Fixpoint for_step {E : Type} (fuel : nat) (it n step : Z)
    (body : Z → option (list E)) : option (list E) :=
  if it <? n then
    match fuel with
    | O => None
    | S fuel' =>
        t ← body it;
        ts ← for_step fuel' (it + step) n step body;
        Some (t ++ ts)
    end
  else Some [].

(** Number of chunks of width [step] needed to cover [0, n). *)
Definition chunk_count (n step : Z) : nat := Z.to_nat ((n + step - 1) / step).

(** Start offsets of those chunks, in increasing order. *)
Definition chunk_starts (n step : Z) : list Z :=
  (λ q : nat, Z.of_nat q * step) <$> seq 0 (chunk_count n step).

(** Width of the chunk that starts at [start]. *)
Definition chunk_size (start n step : Z) : Z := Z.min step (n - start).

(** ** GemmCore: the compile-time constants of a micro-kernel *)

Record GemmCore := {
  ISA : Z;
  MTILE : Z;
  NTILE : Z;
  KTILE : Z;
  sizeof_AType : Z;
  sizeof_BType : Z;
  sizeof_CType : Z;
}.

Definition GemmCore_wf (core : GemmCore) : Prop :=
  0 < MTILE core ∧ 0 < NTILE core ∧ 0 < KTILE core ∧
  0 < sizeof_AType core ∧ 0 < sizeof_BType core ∧ 0 < sizeof_CType core.

(** ** The launcher *)

Module Launcher.

(** [Param]: only the dimensions steer the control flow. *)
Record Param := {
  M : Z;
  N : Z;
  K : Z;
}.

Record ParallelConfig := {
  rowidx : Z;
  colidx : Z;
  rowsize : Z;
  colsize : Z;
  MStep : Z;
  NStep : Z;
  KStep : Z;
  StackSize : Z;
}.

(** What one thread does inside [launch], in program order.  Pointers into
    the scratch buffer are recorded as element offsets from [tmpB] (for the
    B operand) and from [tmpC] (for the accumulator).  The A and B strides
    handed to the micro-kernel are outputs of the prologues and are not
    recorded; the accumulator stride is always [NStep]. *)
Inductive event :=
  | GetWeight (k_size n_size k_offset n_offset : Z)
  | GetActivation (m_size k_size m_offset k_offset : Z)
  | Forward (b_off c_off m n k kpos : Z)
  | EpilogueForward (cachestep M_offset N_offset M_size N_size : Z).

Definition is_epilogue (e : event) : bool :=
  match e with EpilogueForward _ _ _ _ _ => true | _ => false end.

Definition is_forward (e : event) : bool :=
  match e with Forward _ _ _ _ _ _ => true | _ => false end.

Definition is_get_activation (e : event) : bool :=
  match e with GetActivation _ _ _ _ => true | _ => false end.

Section WithCore.
Variable core : GemmCore.

(** Body of the loop over [i] in [run_block]. *)
Definition run_mtile (cfg : ParallelConfig) (blk_m blk_msize n_padded iterk k_remain i : Z)
    : list event :=
  let k_paddedle := utils.padto_le k_remain (KTILE core) in
  let m_remain := utils.remainsize i blk_msize (MTILE core) in
  let c_off := i * NStep cfg in
  let aligned :=
    if k_paddedle =? 0 then []
    else [ GetActivation m_remain k_paddedle (blk_m + i + rowidx cfg) iterk;
           Forward 0 c_off m_remain n_padded k_paddedle iterk ] in
  let k_tail := k_remain - k_paddedle in
  let tail :=
    if k_tail =? 0 then []
    else [ GetActivation m_remain k_tail (blk_m + i + rowidx cfg) (iterk + k_paddedle);
           Forward (k_paddedle * NTILE core) c_off m_remain n_padded (KTILE core)
                   (iterk + k_paddedle) ] in
  aligned ++ tail.

(** Body of the loop over [iterk] in [run_block]. *)
Definition run_kchunk (fuel : nat) (cfg : ParallelConfig) (prm : Param)
    (blk_m blk_n blk_msize n_padded iterk : Z) : option (list event) :=
  let k_remain := utils.remainsize iterk (K prm) (KStep cfg) in
  let k_padded := utils.padto k_remain (KTILE core) in
  rows ← for_step fuel 0 blk_msize (MTILE core)
           (λ i, Some (run_mtile cfg blk_m blk_msize n_padded iterk k_remain i));
  Some (GetWeight k_padded n_padded iterk (colidx cfg + blk_n) :: rows).

Definition run_block (fuel : nat) (cfg : ParallelConfig) (prm : Param)
    (blk_m blk_n blk_msize blk_nsize : Z) : option (list event) :=
  let n_padded := utils.padto blk_nsize (NTILE core) in
  ks ← for_step fuel 0 (K prm) (KStep cfg)
         (run_kchunk fuel cfg prm blk_m blk_n blk_msize n_padded);
  Some (ks ++ [EpilogueForward (NStep cfg) (rowidx cfg + blk_m) (colidx cfg + blk_n)
                               blk_msize blk_nsize]).

Definition launch (fuel : nat) (cfg : ParallelConfig) (prm : Param) : option (list event) :=
  let rowremain := utils.remainsize (rowidx cfg) (M prm) (rowsize cfg) in
  let colremain := utils.remainsize (colidx cfg) (N prm) (colsize cfg) in
  for_step fuel 0 colremain (NStep cfg) (λ itern,
    let n_remain := utils.remainsize itern colremain (NStep cfg) in
    for_step fuel 0 rowremain (MStep cfg) (λ iterm,
      let m_remain := utils.remainsize iterm rowremain (MStep cfg) in
      run_block fuel cfg prm iterm itern m_remain n_remain)).

(** *** The tiling the specification describes *)

(** One K chunk of [kc] elements, for one row band of [mc] rows: the
    largest multiple of KTILE first, then the remainder if there is one. *)
Definition tile_kchunk_calls (cfg : ParallelConfig) (row c_off mc n_padded kstart kc : Z)
    : list event :=
  let aligned := KTILE core * (kc / KTILE core) in
  let rest := kc mod KTILE core in
  (if aligned =? 0 then []
   else [GetActivation mc aligned row kstart; Forward 0 c_off mc n_padded aligned kstart])
  ++
  (if rest =? 0 then []
   else [GetActivation mc rest row (kstart + aligned);
         Forward (aligned * NTILE core) c_off mc n_padded (KTILE core) (kstart + aligned)]).

Definition tile_kloop (cfg : ParallelConfig) (prm : Param) (tm tn msize nsize : Z)
    : list event :=
  let n_padded := utils.padto nsize (NTILE core) in
  kstart ← chunk_starts (K prm) (KStep cfg);
  let kc := chunk_size kstart (K prm) (KStep cfg) in
  GetWeight (utils.padto kc (KTILE core)) n_padded kstart (colidx cfg + tn) ::
    (i ← chunk_starts msize (MTILE core);
     tile_kchunk_calls cfg (tm + i + rowidx cfg) (i * NStep cfg)
       (chunk_size i msize (MTILE core)) n_padded kstart kc).

Definition tile_events (cfg : ParallelConfig) (prm : Param) (tm tn msize nsize : Z)
    : list event :=
  tile_kloop cfg prm tm tn msize nsize ++
  [EpilogueForward (NStep cfg) (rowidx cfg + tm) (colidx cfg + tn) msize nsize].

Definition launch_rows (cfg : ParallelConfig) (prm : Param) : Z :=
  utils.remainsize (rowidx cfg) (M prm) (rowsize cfg).
Definition launch_cols (cfg : ParallelConfig) (prm : Param) : Z :=
  utils.remainsize (colidx cfg) (N prm) (colsize cfg).

(** Output tiles in the order they are visited: N outer, M inner. *)
Definition tiles (cfg : ParallelConfig) (prm : Param) : list (Z * Z) :=
  tn ← chunk_starts (launch_cols cfg prm) (NStep cfg);
  tm ← chunk_starts (launch_rows cfg prm) (MStep cfg);
  [(tm, tn)].

Definition tiled_launch (cfg : ParallelConfig) (prm : Param) : list event :=
  '(tm, tn) ← tiles cfg prm;
  tile_events cfg prm tm tn
    (chunk_size tm (launch_rows cfg prm) (MStep cfg))
    (chunk_size tn (launch_cols cfg prm) (NStep cfg)).

(** Fuel that is enough for every loop of [launch]. *)
Definition launch_fuel (cfg : ParallelConfig) (prm : Param) : nat :=
  Nat.max (Nat.max (chunk_count (launch_cols cfg prm) (NStep cfg))
                   (chunk_count (launch_rows cfg prm) (MStep cfg)))
          (Nat.max (chunk_count (K prm) (KStep cfg))
                   (chunk_count (MStep cfg) (MTILE core))).

End WithCore.

End Launcher.

(** ** Scratch layout of [launch] *)

Module Scratch.
Import Launcher.

Section WithCore.
Variable core : GemmCore.

(** Byte offsets of [tmpB], [tmpA] and [tmpC] from [StackTmp]. *)
Definition tmpB_off (cfg : ParallelConfig) : Z := 0.
Definition tmpA_off (cfg : ParallelConfig) : Z :=
  tmpB_off cfg + NStep cfg * KStep cfg * sizeof_BType core.
Definition tmpC_off (cfg : ParallelConfig) : Z :=
  tmpA_off cfg + MTILE core * KStep cfg * sizeof_AType core.

(** Bytes taken by a B tile of NStep*KStep elements, an A tile of
    MTILE*KStep elements and a C tile of MStep*NStep elements. *)
Definition tiles_bytes (cfg : ParallelConfig) : Z :=
  NStep cfg * KStep cfg * sizeof_BType core +
  MTILE core * KStep cfg * sizeof_AType core +
  MStep cfg * NStep cfg * sizeof_CType core.

(** Accumulator cells of a call, as element indices from [tmpC]: a call on
    [m] rows and [n] columns at [c_off] with row stride [stride] touches
    [c_off + r * stride + c] for [r < m] and [c < n]. *)
Definition touches_c (cfg : ParallelConfig) (e : event) (cell : Z) : Prop :=
  match e with
  | Forward _ c_off m n _ _ =>
      ∃ r c, 0 ≤ r < m ∧ 0 ≤ c < n ∧ cell = c_off + r * NStep cfg + c
  | EpilogueForward stride _ _ m n =>
      ∃ r c, 0 ≤ r < m ∧ 0 ≤ c < n ∧ cell = r * stride + c
  | _ => False
  end.


(** The three tiles that [launch] lays out in the scratch buffer. *)
Inductive tile := TileB | TileA | TileC.

Definition tile_off (cfg : ParallelConfig) (t : tile) : Z :=
  match t with
  | TileB => tmpB_off cfg
  | TileA => tmpA_off cfg
  | TileC => tmpC_off cfg
  end.


Definition sizeof_tile (t : tile) : Z :=
  match t with
  | TileB => sizeof_BType core
  | TileA => sizeof_AType core
  | TileC => sizeof_CType core
  end.

(** Elements of tile [t] that a call is pointed at, as element indices from
    the start of the tile.  The weight prologue is handed [tmpB] to hold a
    tile of [k_size * n_size] elements, the activation prologue [tmpA] to
    hold a tile of [m_size * k_size] elements.  The micro-kernel is handed
    [m] rows of depth [k] of A, depth [k] of [n] columns of B from [b_off]
    on, and the accumulator cells of [touches_c]; the epilogue reads
    accumulator cells. *)
Definition touches (cfg : ParallelConfig) (t : tile) (e : event) (cell : Z) : Prop :=
  match t, e with
  | TileB, GetWeight k_size n_size _ _ => 0 ≤ cell < k_size * n_size
  | TileB, Forward b_off _ _ n k _ => b_off ≤ cell < b_off + k * n
  | TileA, GetActivation m_size k_size _ _ => 0 ≤ cell < m_size * k_size
  | TileA, Forward _ _ m _ k _ => 0 ≤ cell < m * k
  | TileC, _ => touches_c cfg e cell
  | _, _ => False
  end.


(** The bytes of element [cell] of tile [t] lie inside the [StackSize]
    bytes that [alloca] returned. *)
Definition in_stack (cfg : ParallelConfig) (t : tile) (cell : Z) : Prop :=
  0 ≤ tile_off cfg t + cell * sizeof_tile t ∧
  tile_off cfg t + (cell + 1) * sizeof_tile t ≤ StackSize cfg.



End WithCore.
End Scratch.

(** ** The interface classes *)

Module Interface.
Import Launcher.

(** Modelled from the spec: the enum [JBLAS_CODE] is declared in a header
    that is not part of the sources at hand; [compute] "returns a
    success/failure status". *)
Inductive JBLAS_CODE := JblasSuccess | JblasInvalidParam | JblasInvalidISA
                      | JblasRuntimeError | JblasNotSupport.

(** [utils::CpuBase]: the two fields [compute] reads. *)
Record CpuBase := {
  mNumThreads : Z;
  mL2Cache : Z;
}.

(** The template parameter [_Parallel_T<GemmCore>]: the partition plan.  Its
    class is defined in jit_blas_utils.h, so it is taken as an interface. *)
Class Parallel (P : Type) := {
  update : P → Z → Z → Z → Z → bool * P;
  getIndex : P → Z → Z * Z * Z * Z;   (* rowidx, colidx, rowsize, colsize *)
  getMStep : P → Z;
  getNStep : P → Z;
  getKStep : P → Z;
}.

(** Instantiating a launcher template: the [static_assert] rejects a core
    whose ISA the run-time ISA does not cover, at compile time; [None] is a
    program that does not compile. *)
Definition GemmLauncherPackWeight (RT_ISA : Z) (core : GemmCore) : option GemmCore :=
  if ISA core <=? RT_ISA then Some core else None.

Definition GemmLauncherPackWeightDynamicQuant (RT_ISA : Z) (core : GemmCore)
    : option GemmCore :=
  if ISA core <=? RT_ISA then Some core else None.

(** What a thread of the parallel region does, in program order. *)
Inductive action :=
  | QuantizeT (tidx : Z)
  | OmpBarrier
  | Launch (cfg : ParallelConfig) (trace : list event).

Definition is_launch (a : action) : bool :=
  match a with Launch _ _ => true | _ => false end.

Definition is_barrier (a : action) : bool :=
  match a with OmpBarrier => true | _ => false end.

(** Thread numbers of a team of [nthreads] threads.  [compute] asks for
    [mNumThreads] threads with [omp_set_num_threads] and does not look at
    the team it gets: how many threads run the parallel region is for the
    OpenMP runtime to decide, so the size of the team is an input of its
    own. *)
Definition omp_team (nthreads : Z) : list Z :=
  Z.of_nat <$> seq 0 (Z.to_nat nthreads).

Section WithPlan.
Context {P : Type} `{Parallel P}.
Variable core : GemmCore.

Definition make_config (cb : CpuBase) (paral : P) (rect : Z * Z * Z * Z)
    : ParallelConfig :=
  let '(rowidx, colidx, rowsize, colsize) := rect in
  {| rowidx := rowidx; colidx := colidx; rowsize := rowsize; colsize := colsize;
     MStep := getMStep paral; NStep := getNStep paral; KStep := getKStep paral;
     StackSize := mL2Cache cb |}.

(** The part of both parallel regions after the plan lookup. *)
Definition launch_if_assigned (fuel : nat) (cb : CpuBase) (prm : Param) (paral : P)
    (tidx : Z) : option (list action) :=
  let '(rowidx, colidx, rowsize, colsize) := getIndex paral tidx in
  if (0 <? rowsize) && (0 <? colsize) then
    let cfg := make_config cb paral (rowidx, colidx, rowsize, colsize) in
    tr ← launch core fuel cfg prm;
    Some [Launch cfg tr]
  else Some [].

(** [GemmInterfacePackWeight::compute]: the status and, per thread of the
    team, what that thread did.  [nthreads] is the size of the team that
    runs the parallel region.  [dbgprint] is a static that is never set,
    so the plan is never printed. *)
Definition PackWeight_compute (fuel : nat) (cb : CpuBase) (nthreads : Z) (prm : Param)
    (paral : P) : option (JBLAS_CODE * list (list action)) :=
  let '(_, paral) := update paral (M prm) (N prm) (K prm) (mNumThreads cb) in
  threads ← mapM (launch_if_assigned fuel cb prm paral) (omp_team nthreads);
  Some (JblasSuccess, threads).

(** Body of the parallel region of [GemmInterfaceDynamicQuant::compute].
    [paraA] and [quanA] are made before the region and do not steer it.
    [GemmLauncherPackWeightDynamicQuant::launch] walks the tiles exactly as
    [GemmLauncherPackWeight::launch] does; it only hands the quantized
    activations to the prologue and the scales to the epilogue. *)
Definition DynamicQuant_thread (fuel : nat) (cb : CpuBase) (prm : Param) (paral : P)
    (tidx : Z) : option (list action) :=
  rest ← launch_if_assigned fuel cb prm paral tidx;
  Some (QuantizeT tidx :: OmpBarrier :: rest).

Definition DynamicQuant_compute (fuel : nat) (cb : CpuBase) (nthreads : Z) (prm : Param)
    (paral : P) : option (JBLAS_CODE * list (list action)) :=
  let '(_, paral) := update paral (M prm) (N prm) (K prm) (mNumThreads cb) in
  threads ← mapM (DynamicQuant_thread fuel cb prm paral) (omp_team nthreads);
  Some (JblasSuccess, threads).

(** Fuel that is enough for the [launch] of every thread of the team,
    under the plan [paral] that [update] returned. *)
Definition compute_fuel (cb : CpuBase) (nthreads : Z) (prm : Param) (paral : P) : nat :=
  max_list ((λ tidx, launch_fuel core (make_config cb paral (getIndex paral tidx)) prm)
            <$> omp_team nthreads).

End WithPlan.
End Interface.

(** ** Execution of an OpenMP parallel region *)

Module Omp.
Import Interface.

(** The threads of a team run their programs interleaved.  [omp barrier]:
    no thread goes past it before every thread of the team has reached it. *)
Definition at_barrier (prog : list action) : bool :=
  match prog with OmpBarrier :: _ => true | _ => false end.

(** One step of thread [t]; [None] when [t] cannot move (finished, or
    waiting at the barrier for the others).  When the last thread arrives
    the whole team is released. *)
Definition step (team : list (list action)) (t : nat)
    : option (list (nat * action) * list (list action)) :=
  match team !! t with
  | Some (OmpBarrier :: _) =>
      if forallb at_barrier team then Some ([], tail <$> team) else None
  | Some (a :: rest) => Some ([(t, a)], <[t := rest]> team)
  | _ => None
  end.

(** Running a schedule (the thread picked at every step) to its end. *)
Fixpoint run (sched : list nat) (team : list (list action))
    : option (list (nat * action) * list (list action)) :=
  match sched with
  | [] => Some ([], team)
  | t :: sched' =>
      '(tr, team') ← step team t;
      '(tr', team'') ← run sched' team';
      Some (tr ++ tr', team'')
  end.

(** Where thread [i] (thread number [tidx]) of the dynamic-quantization
    region stands, given the events [acc] that have happened: it has not
    quantized yet, or it waits at the barrier with its rows quantized, or it
    is past the barrier and then every thread of the team has quantized. *)
Definition phase_ok (ids : list Z) (acc : list (nat * action)) (i : nat) (tidx : Z)
    (prog : list action) : Prop :=
  (∃ rest, prog = QuantizeT tidx :: OmpBarrier :: rest ∧
           Forall (λ a, is_launch a = true) rest) ∨
  (∃ rest, prog = OmpBarrier :: rest ∧ Forall (λ a, is_launch a = true) rest ∧
           (i, QuantizeT tidx) ∈ acc) ∨
  (Forall (λ a, is_launch a = true) prog ∧
   ∀ j tj, ids !! j = Some tj → (j, QuantizeT tj) ∈ acc).

Definition team_inv (ids : list Z) (acc : list (nat * action))
    (team : list (list action)) : Prop :=
  length team = length ids ∧
  ∀ i tidx prog, ids !! i = Some tidx → team !! i = Some prog →
    phase_ok ids acc i tidx prog.

End Omp.

(** ** The GPT-NeoX evaluator *)

Module GptNeoX.

(** A 32-bit float, as its bit pattern; the evaluator only copies them. *)
Definition f32 := Z.

Record model_hparams := {
  n_embd : Z;
  n_layer : Z;
  n_ctx : Z;
  n_head : Z;
  n_vocab : Z;
  n_rot : Z;
  par_res : Z;
}.

(** A tensor that owns its bytes: [ne_element_size] and the data. *)
Record ne_tensor := {
  elem_size : Z;
  data : list Byte.byte;
}.

Record kv_cache := {
  ctx : bool;          (* [kv_self.ctx] is not null *)
  k : ne_tensor;
  v : ne_tensor;
  n : Z;
}.

Record model_context := {
  hparams : model_hparams;
  kv_self : kv_cache;
  batch_size : Z;
  logits_all : bool;
  logits : list f32;
  embedding : list f32;
  mem_per_token : Z;
  t_eval_us : Z;
  n_eval : Z;
  t_p_eval_us : Z;
  n_p_eval : Z;
  eval_times : list Z;
  has_evaluated_once : bool;
  t_load_us : Z;
  t_start_us : Z;
}.

(** What the numeric kernels, the allocator and the clock hand back during
    one call: per layer the bytes [ne_cpy] stores for [Kcur] (one row) and
    for the transposed [Vcur] (one row per embedding component), the floats
    of the last graph node, [ne_used_mem] and the measured time. *)
Record computed := {
  Kcur : Z → list Byte.byte;
  Vcur : Z → list (list Byte.byte);
  lm_head : list f32;
  used_mem : Z;
  time_interval : Z;
}.

(** *** Views into the cache and [ne_cpy] *)

Inductive cache_tensor := KCache | VCache.

(** Modelled from the spec: the tensor library ([ne_view_1d], [ne_view_2d],
    [ne_cpy], [ne_graph_compute], [ne_get_data]) is not part of the sources
    at hand.  A tensor is an "array view with explicit per-dimension strides
    (in elements and bytes)" and "views never copy data, only reinterpret
    strides": a view of [ne1] rows of [ne0] elements, whose row [r] starts
    [offset + r * nb1] bytes into the viewed tensor. *)
Record view := {
  base : cache_tensor;
  ne0 : Z;
  ne1 : Z;
  nb1 : Z;
  offset : Z;
}.

Definition ne_view_1d (a : cache_tensor) (es ne0 offset : Z) : view :=
  {| base := a; ne0 := ne0; ne1 := 1; nb1 := ne0 * es; offset := offset |}.

Definition ne_view_2d (a : cache_tensor) (ne0 ne1 nb1 offset : Z) : view :=
  {| base := a; ne0 := ne0; ne1 := ne1; nb1 := nb1; offset := offset |}.

(** A [ne_cpy] node of the graph: the rows to store and the view they go
    to ("write new K/V into the rolling cache at offset n_past"). *)
Record cpy_node := {
  src : list (list Byte.byte);
  dst : view;
}.

(** Writing [bytes] at byte [off] of a buffer.  The source computes the
    address and copies, without comparing it with the size of the buffer:
    the bytes that fall inside the buffer replace what it held, the bytes
    that fall before its start or behind its end go to memory that is not
    the buffer, and the evaluation goes on. *)
Definition store (mem : list Byte.byte) (off : Z) (bytes : list Byte.byte)
    : list Byte.byte :=
  list_inserts (Z.to_nat off) (drop (Z.to_nat (- off)) bytes) mem.

(** Rows of a copy, one after the other, [nb1] bytes apart; every row must
    have the [row_bytes] bytes of the destination row. *)
Fixpoint store_rows (mem : list Byte.byte) (off nb1 row_bytes : Z)
    (rows : list (list Byte.byte))
    : option (list Byte.byte) :=
  match rows with
  | [] => Some mem
  | row :: rows' =>
      if Z.of_nat (length row) =? row_bytes then
        store_rows (store mem off row) (off + nb1) nb1 row_bytes rows'
      else None
  end.

Definition set_data (t : ne_tensor) (d : list Byte.byte) : ne_tensor :=
  {| elem_size := elem_size t; data := d |}.

Definition cache_of (kv : kv_cache) (a : cache_tensor) : ne_tensor :=
  match a with KCache => k kv | VCache => v kv end.

Definition set_cache (kv : kv_cache) (a : cache_tensor) (t : ne_tensor) : kv_cache :=
  match a with
  | KCache => {| ctx := ctx kv; k := t; v := v kv; n := n kv |}
  | VCache => {| ctx := ctx kv; k := k kv; v := t; n := n kv |}
  end.

(** Computing a [ne_cpy] node: source and destination must have the same
    number of elements. *)
Definition compute_cpy (kv : kv_cache) (node : cpy_node) : option kv_cache :=
  let t := cache_of kv (base (dst node)) in
  if Z.of_nat (length (src node)) =? ne1 (dst node) then
    d ← store_rows (data t) (offset (dst node)) (nb1 (dst node))
                   (ne0 (dst node) * elem_size t) (src node);
    Some (set_cache kv (base (dst node)) (set_data t d))
  else None.

(** [ne_graph_compute] on the copy nodes, in the order they were added. *)
Fixpoint ne_graph_compute (gf : list cpy_node) (kv : kv_cache) : option kv_cache :=
  match gf with
  | [] => Some kv
  | node :: gf' => kv' ← compute_cpy kv node; ne_graph_compute gf' kv'
  end.

(** *** The layer loop: "store key and value to memory" *)

Definition store_kv (hp : model_hparams) (kv : kv_cache) (res : computed)
    (N n_past il : Z) : list cpy_node :=
  let kview :=
    ne_view_1d KCache (elem_size (k kv)) (N * n_embd hp)
      ((elem_size (k kv) * n_embd hp) * (il * n_ctx hp + n_past)) in
  let vview :=
    ne_view_2d VCache N (n_embd hp) (n_ctx hp * elem_size (v kv))
      ((il * n_ctx hp) * elem_size (v kv) * n_embd hp + n_past * elem_size (v kv)) in
  [ {| src := [Kcur res il]; dst := kview |};
    {| src := Vcur res il; dst := vview |} ].

(** Layer numbers [0 .. n_layer - 1]. *)
Definition layers (hp : model_hparams) : list Z :=
  Z.of_nat <$> seq 0 (Z.to_nat (n_layer hp)).

Definition build_graph (hp : model_hparams) (kv : kv_cache) (res : computed)
    (N n_past : Z) : list cpy_node :=
  il ← layers hp; store_kv hp kv res N n_past il.

(** *** Where the cache keeps position [t] of layer [il] *)

(** Byte [b] of component [e] of the key at position [t]: the K read view
    starts at [il * n_ctx * es * n_embd] and position [t] is [n_embd]
    elements wide. *)
Definition k_addr (hp : model_hparams) (es il t e b : Z) : Z :=
  il * n_ctx hp * es * n_embd hp + (t * n_embd hp + e) * es + b.

(** Byte [b] of component [e] of the value at position [t]: the V read view
    has one row of [n_ctx] elements per component. *)
Definition v_addr (hp : model_hparams) (es il t e b : Z) : Z :=
  il * n_ctx hp * es * n_embd hp + e * (n_ctx hp * es) + t * es + b.

Definition byte_at (t : ne_tensor) (addr : Z) : option Byte.byte :=
  if 0 <=? addr then data t !! Z.to_nat addr else None.

(** The cache holds [n_ctx] positions of [n_embd] elements for each of the
    [n_layer] layers. *)
Definition kv_sized (hp : model_hparams) (kv : kv_cache) : Prop :=
  0 < elem_size (k kv) ∧ 0 < elem_size (v kv) ∧
  Z.of_nat (length (data (k kv))) = n_layer hp * n_ctx hp * n_embd hp * elem_size (k kv) ∧
  Z.of_nat (length (data (v kv))) = n_layer hp * n_ctx hp * n_embd hp * elem_size (v kv).

(** *** The stores of a graph, one contiguous run of bytes each *)

Definition write : Type := cache_tensor * Z * list Byte.byte.

#[global] Instance cache_tensor_eq_dec : EqDecision cache_tensor.
Proof. solve_decision. Defined.

Definition cache_tensor_eqb (a b : cache_tensor) : bool :=
  match a, b with KCache, KCache | VCache, VCache => true | _, _ => false end.

(** Row [r] of a copy goes to [offset + r * nb1]. *)
Definition node_writes (node : cpy_node) : list write :=
  imap (λ r row, (base (dst node), offset (dst node) + Z.of_nat r * nb1 (dst node), row))
       (src node).

Definition graph_writes (gf : list cpy_node) : list write := gf ≫= node_writes.

(** The write stores a byte at address [addr] of tensor [a]. *)
Definition covers (a : cache_tensor) (addr : Z) (w : write) : bool :=
  cache_tensor_eqb a w.1.1 && (w.1.2 <=? addr) && (addr <? w.1.2 + Z.of_nat (length w.2)).

Definition do_write (kv : kv_cache) (w : write) : kv_cache :=
  let t := cache_of kv w.1.1 in
  set_cache kv w.1.1 (set_data t (store (data t) w.1.2 w.2)).

Fixpoint do_writes (ws : list write) (kv : kv_cache) : kv_cache :=
  match ws with
  | [] => kv
  | w :: ws' => do_writes ws' (do_write kv w)
  end.

(** Byte offsets of the stores of layer [il]: the keys of the new tokens,
    and row [e] of their transposed values. *)
Definition k_off (hp : model_hparams) (kv : kv_cache) (n_past il : Z) : Z :=
  (elem_size (k kv) * n_embd hp) * (il * n_ctx hp + n_past).

Definition v_off (hp : model_hparams) (kv : kv_cache) (n_past il : Z) (e : nat) : Z :=
  (il * n_ctx hp) * elem_size (v kv) * n_embd hp + n_past * elem_size (v kv)
  + Z.of_nat e * (n_ctx hp * elem_size (v kv)).

(** What [ne_cpy] checks of a node: as many rows as the destination has,
    each with the bytes of a destination row. *)
Definition node_ok (kv : kv_cache) (node : cpy_node) : Prop :=
  Z.of_nat (length (src node)) = ne1 (dst node) ∧
  Forall (λ row, Z.of_nat (length row) =
                   ne0 (dst node) * elem_size (cache_of kv (base (dst node))))
         (src node).

(** *** Extraction of the results *)

(** [std::vector::resize] followed by a [memcpy] of [cnt] floats read at
    [from + off]: a negative size or a read outside the source fails. *)
Definition copy_floats (from : list f32) (off cnt : Z) : option (list f32) :=
  if (0 <=? cnt) && (0 <=? off) && (off + cnt <=? Z.of_nat (length from))
  then Some (take (Z.to_nat cnt) (drop (Z.to_nat off) from))
  else None.

(** Modelled from the spec: [ne_get_data] (tensor library, not part of the
    sources at hand) hands out the "data pointer" of the tensor it is given;
    it reads a field of that tensor, so on a null tensor it is a null
    dereference. *)
Definition ne_get_data (t : option (list f32)) : option (list f32) := t.

Definition with_results (lctx : model_context) (kv : kv_cache)
    (lg emb : list f32) (mpt : Z) (N dt : Z) : model_context :=
  {| hparams := hparams lctx;
     kv_self := kv;
     batch_size := batch_size lctx;
     logits_all := logits_all lctx;
     logits := lg;
     embedding := emb;
     mem_per_token := mpt;
     t_eval_us := if N =? 1 then t_eval_us lctx + dt else t_eval_us lctx;
     n_eval := if N =? 1 then n_eval lctx + 1 else n_eval lctx;
     t_p_eval_us := if N =? 1 then t_p_eval_us lctx
                    else if 1 <? N then t_p_eval_us lctx + dt else t_p_eval_us lctx;
     n_p_eval := if N =? 1 then n_p_eval lctx
                 else if 1 <? N then n_p_eval lctx + N else n_p_eval lctx;
     eval_times := eval_times lctx ++ [dt];
     has_evaluated_once := has_evaluated_once lctx;
     t_load_us := t_load_us lctx;
     t_start_us := t_start_us lctx |}.

Definition gptneox_model_eval_internal (res : computed) (lctx : model_context)
    (tokens : list Z) (n_tokens n_past n_threads : Z) : option (model_context * bool) :=
  let N := n_tokens in
  let hp := hparams lctx in
  let kv := kv_self lctx in
  (* MODEL_ASSERT(!!kv_self.ctx) *)
  if negb (ctx kv) then None else
  (* embd: N tokens are copied out of [tokens] *)
  if negb ((0 <=? N) && (N <=? Z.of_nat (length tokens))) then None else
  let gf := build_graph hp kv res N n_past in
  (* used at the end to optionally extract the embeddings; never assigned *)
  let embeddings : option (list f32) := None in
  kv ← ne_graph_compute gf kv;
  (* update kv token count *)
  let kv := {| ctx := ctx kv; k := k kv; v := v kv; n := n_past + N |} in
  (* extract logits *)
  lg ← (if logits_all lctx
        then copy_floats (lm_head res) 0 (n_vocab hp * N)
        else copy_floats (lm_head res) (n_vocab hp * (N - 1)) (n_vocab hp));
  (* extract embeddings *)
  emb ← (match embedding lctx with
         | [] => Some []
         | _ :: _ =>
             d ← ne_get_data embeddings;
             copy_floats d (n_embd hp * (N - 1)) (n_embd hp)
         end);
  mpt ← (if mem_per_token lctx =? 0
         then (if N =? 0 then None else Some (used_mem res ÷ N))
         else Some (mem_per_token lctx));
  Some (with_results lctx kv lg emb mpt N (time_interval res), true).

(** The result of [model_eval]: the context, the return code and what was
    printed to stderr.  [now] is the clock at the first evaluation. *)
Definition model_eval (res : computed) (now : Z) (lctx : model_context)
    (tokens : list Z) (n_tokens n_past n_threads : Z)
    : option (model_context * Z * list string) :=
  '(lctx', ok) ← gptneox_model_eval_internal res lctx tokens n_tokens n_past n_threads;
  if negb ok then Some (lctx', 1, ["model_eval: failed to eval"%string]) else
  if has_evaluated_once lctx' then Some (lctx', 0, [])
  else
    Some ({| hparams := hparams lctx';
             kv_self := kv_self lctx';
             batch_size := batch_size lctx';
             logits_all := logits_all lctx';
             logits := logits lctx';
             embedding := embedding lctx';
             mem_per_token := mem_per_token lctx';
             t_eval_us := t_eval_us lctx';
             n_eval := n_eval lctx';
             t_p_eval_us := t_p_eval_us lctx';
             n_p_eval := n_p_eval lctx';
             eval_times := eval_times lctx';
             has_evaluated_once := true;
             t_load_us := now - t_start_us lctx';
             t_start_us := t_start_us lctx' |}, 0, []).

End GptNeoX.

(** ** Concrete inputs used to exercise the definitions *)

Module Examples.
Import Launcher Interface.

(** An 8x48 int8 core: K is consumed four elements at a time, the operands
    are one byte wide and the accumulator four; 14 stands for its ISA. *)
Definition core_8x48 : GemmCore :=
  {| ISA := 14; MTILE := 8; NTILE := 48; KTILE := 4;
     sizeof_AType := 1; sizeof_BType := 1; sizeof_CType := 4 |}.

Definition prm_20x100x10 : Param := {| M := 20; N := 100; K := 10 |}.

(** The whole 20x100 output in one rectangle, cut in 16x96 tiles, K in
    chunks of 8. *)
Definition cfg_whole : ParallelConfig :=
  {| rowidx := 0; colidx := 0; rowsize := 20; colsize := 100;
     MStep := 16; NStep := 96; KStep := 8; StackSize := 2097152 |}.

(** A plan given as a table: one rectangle per thread, fixed steps. *)
Record table_plan := {
  rects : list (Z * Z * Z * Z);
  steps : Z * Z * Z;
}.

#[global] Instance table_plan_parallel : Parallel table_plan := {|
  update p _ _ _ _ := (false, p);
  getIndex p tidx :=
    if 0 <=? tidx then default (0, 0, 0, 0) (rects p !! Z.to_nat tidx) else (0, 0, 0, 0);
  getMStep p := (steps p).1.1;
  getNStep p := (steps p).1.2;
  getKStep p := (steps p).2;
  |}.

(** Two threads share the 20x100 output by rows; a third has no work. *)
Definition plan3 : table_plan :=
  {| rects := [(0, 0, 16, 100); (16, 0, 4, 100); (0, 0, 0, 0)];
     steps := (16, 96, 8) |}.

Definition cpu3 : CpuBase := {| mNumThreads := 3; mL2Cache := 2097152 |}.



(** A 16x48 core that consumes K sixty-four elements at a time, run with a
    K step of one: the 256 bytes of stack hold the three tiles of the
    layout, a B tile of 48 bytes among them. *)
Definition core_16x48x64 : GemmCore :=
  {| ISA := 14; MTILE := 16; NTILE := 48; KTILE := 64;
     sizeof_AType := 1; sizeof_BType := 1; sizeof_CType := 4 |}.

Definition prm_thin : Param := {| M := 1; N := 48; K := 1 |}.

Definition cfg_thin : ParallelConfig :=
  {| rowidx := 0; colidx := 0; rowsize := 1; colsize := 48;
     MStep := 1; NStep := 48; KStep := 1; StackSize := 256 |}.

End Examples.

(** ** The attention weights of a layer *)

Module Attention.
Import GptNeoX.

(** A score: a real number or minus infinity. *)
Inductive score := NegInf | Fin (x : R).

(** The nodes that [gptneox_model_eval_internal] builds between the
    product of keys and queries and the attention weights.  A leaf is a
    tensor computed earlier, with its dimensions and its values. *)
Inductive tensor :=
  | leaf (ne0 ne1 ne2 : Z) (val : Z → Z → Z → R)
  | ne_new_f32 (x : R)
  | ne_mul_mat (a b : tensor)
  | ne_scale_inplace (a b : tensor)
  | ne_diag_mask_inf_inplace (a : tensor) (n_past : Z)
  | ne_soft_max_inplace (a : tensor).

(** The queries of the new tokens and the cached keys of the [n_past + N]
    positions, both indexed by component, position and head; their values
    come from the earlier nodes of the graph. *)
Definition Q_tensor (hp : model_hparams) (N : Z) (q : Z → Z → Z → R) : tensor :=
  leaf (n_embd hp / n_head hp) N (n_head hp) q.

Definition K_tensor (hp : model_hparams) (N n_past : Z) (kc : Z → Z → Z → R) : tensor :=
  leaf (n_embd hp / n_head hp) (n_past + N) (n_head hp) kc.

(** [1.0f / sqrt(float(n_embd) / n_head)]: the division is a division of
    floats. *)
Definition KQ_scale (hp : model_hparams) : R :=
  (1 / sqrt (IZR (n_embd hp) / IZR (n_head hp)))%R.

Definition KQ_soft_max (hp : model_hparams) (N n_past : Z) (q kc : Z → Z → Z → R)
    : tensor :=
  let Q := Q_tensor hp N q in
  let K := K_tensor hp N n_past kc in
  (* K * Q *)
  let KQ := ne_mul_mat K Q in
  (* KQ_scaled = KQ / sqrt(n_embd/n_head) *)
  let KQ_scaled := ne_scale_inplace KQ (ne_new_f32 (KQ_scale hp)) in
  (* KQ_masked = mask_past(KQ_scaled) *)
  let KQ_masked := ne_diag_mask_inf_inplace KQ_scaled n_past in
  (* KQ = soft_max(KQ_masked) *)
  ne_soft_max_inplace KQ_masked.

(** The scaled and masked scores, the argument of the soft-max. *)
Definition KQ_masked (hp : model_hparams) (N n_past : Z) (q kc : Z → Z → Z → R)
    : tensor :=
  ne_diag_mask_inf_inplace
    (ne_scale_inplace (ne_mul_mat (K_tensor hp N n_past kc) (Q_tensor hp N q))
                      (ne_new_f32 (KQ_scale hp)))
    n_past.

(** *** What the operators compute *)

Record values := {
  dims : Z * Z * Z;
  at_ : Z → Z → Z → score;
}.

Definition range (n : Z) : list Z := Z.of_nat <$> seq 0 (Z.to_nat n).

Definition Rsum (xs : list R) : R := foldr Rplus 0%R xs.

Definition finite (s : score) : R := match s with Fin x => x | NegInf => 0%R end.

(** [exp] of a score; the exponential of minus infinity is zero. *)
Definition exp_score (s : score) : R :=
  match s with NegInf => 0%R | Fin x => exp x end.

(** Modelled from the spec: the operators of the tensor library are not part
    of the sources at hand.  [ne_mul_mat] gives the "attention scores Q·Kᵀ",
    one dot product over the components per (cached position, new token,
    head); [ne_scale_inplace] multiplies every score by the scalar, here
    "scaled by 1/sqrt(headDim)"; [ne_diag_mask_inf_inplace] is the "causal
    mask (positions beyond current step forced to −∞ before softmax)": the
    new token [i] stands at position [n_past + i], the positions after it
    are masked; [ne_soft_max_inplace] normalises the exponentials of a row
    of scores (the scores of one new token and head over the positions). *)
Fixpoint denote (t : tensor) : values :=
  match t with
  | leaf ne0 ne1 ne2 val =>
      {| dims := (ne0, ne1, ne2); at_ i0 i1 i2 := Fin (val i0 i1 i2) |}
  | ne_new_f32 x =>
      {| dims := (1, 1, 1); at_ _ _ _ := Fin x |}
  | ne_mul_mat a b =>
      let va := denote a in
      let vb := denote b in
      {| dims := ((dims va).1.2, (dims vb).1.2, (dims va).2);
         at_ j i h :=
           Fin (Rsum ((λ d, finite (at_ va d j h) * finite (at_ vb d i h))%R
                      <$> range (dims va).1.1)) |}
  | ne_scale_inplace a b =>
      let va := denote a in
      let s := finite (at_ (denote b) 0 0 0) in
      {| dims := dims va;
         at_ j i h := match at_ va j i h with
                      | Fin x => Fin (x * s)
                      | NegInf => NegInf
                      end |}
  | ne_diag_mask_inf_inplace a n_past =>
      let va := denote a in
      {| dims := dims va;
         at_ j i h := if n_past + i <? j then NegInf else at_ va j i h |}
  | ne_soft_max_inplace a =>
      let va := denote a in
      {| dims := dims va;
         at_ j i h :=
           Fin (exp_score (at_ va j i h) /
                Rsum ((λ j', exp_score (at_ va j' i h)) <$> range (dims va).1.1)) |}
  end.

End Attention.

(** ** Concrete evaluator inputs *)

Module EvalExamples.
Import GptNeoX.

(** Two layers, three positions of context, two components, one head,
    a vocabulary of three; the cache stores one byte per element. *)
Definition hp : model_hparams :=
  {| n_embd := 2; n_layer := 2; n_ctx := 3; n_head := 1; n_vocab := 3;
     n_rot := 2; par_res := 1 |}.

Definition zeros (len : nat) : list Byte.byte := replicate len Byte.x00.

(** One position is cached already ([n = 1]); its bytes are [x11]. *)
Definition kv0 : kv_cache :=
  {| ctx := true;
     k := {| elem_size := 1;
             data := [Byte.x11; Byte.x11] ++ zeros 4 ++ [Byte.x11; Byte.x11] ++ zeros 4 |};
     v := {| elem_size := 1;
             data := [Byte.x11] ++ zeros 2 ++ [Byte.x11] ++ zeros 2 ++
                     [Byte.x11] ++ zeros 2 ++ [Byte.x11] ++ zeros 2 |};
     n := 1 |}.

Definition lctx0 : model_context :=
  {| hparams := hp; kv_self := kv0; batch_size := 1; logits_all := false;
     logits := []; embedding := []; mem_per_token := 0;
     t_eval_us := 0; n_eval := 0; t_p_eval_us := 0; n_p_eval := 0; eval_times := [];
     has_evaluated_once := false; t_load_us := 0; t_start_us := 0 |}.

(** The same context with all logits requested. *)
Definition lctx_all : model_context :=
  {| hparams := hp; kv_self := kv0; batch_size := 1; logits_all := true;
     logits := []; embedding := []; mem_per_token := 0;
     t_eval_us := 0; n_eval := 0; t_p_eval_us := 0; n_p_eval := 0; eval_times := [];
     has_evaluated_once := false; t_load_us := 0; t_start_us := 0 |}.

(** The same context with the embedding requested: the caller sized
    [embedding] to [n_embd]. *)
Definition lctx_emb : model_context :=
  {| hparams := hp; kv_self := kv0; batch_size := 1; logits_all := false;
     logits := []; embedding := [0; 0]; mem_per_token := 0;
     t_eval_us := 0; n_eval := 0; t_p_eval_us := 0; n_p_eval := 0; eval_times := [];
     has_evaluated_once := false; t_load_us := 0; t_start_us := 0 |}.

(** Results of a call on two tokens: layer [il] stores bytes [xa.] for the
    keys and [xb.] for the values. *)
Definition res2 : computed :=
  {| Kcur il := if il =? 0 then [Byte.xa0; Byte.xa1; Byte.xa2; Byte.xa3]
                else [Byte.xa4; Byte.xa5; Byte.xa6; Byte.xa7];
     Vcur il := if il =? 0 then [[Byte.xb0; Byte.xb1]; [Byte.xb2; Byte.xb3]]
                else [[Byte.xb4; Byte.xb5]; [Byte.xb6; Byte.xb7]];
     lm_head := [10; 11; 12; 20; 21; 22];
     used_mem := 4096;
     time_interval := 7 |}.

Definition tokens2 : list Z := [101; 102].

End EvalExamples.

(** ** What the calls of [launch] reach *)

Module Cover.
Import Launcher.

(** The epilogue call writes the output element at ([row], [col]). *)
Definition epilogue_covers (row col : Z) (e : event) : bool :=
  match e with
  | EpilogueForward _ M_offset N_offset M_size N_size =>
      (M_offset <=? row) && (row <? M_offset + M_size) &&
      (N_offset <=? col) && (col <? N_offset + N_size)
  | _ => false
  end.

(** The activation fetch brings in the element at ([row], [k]) of A. *)
Definition activation_covers (row k : Z) (e : event) : bool :=
  match e with
  | GetActivation m_size k_size m_offset k_offset =>
      (m_offset <=? row) && (row <? m_offset + m_size) &&
      (k_offset <=? k) && (k <? k_offset + k_size)
  | _ => false
  end.

(** The micro-kernel call works at depth [kpos] of K. *)
Definition forward_at_depth (kpos : Z) (e : event) : Prop :=
  match e with Forward _ _ _ _ _ kp => kp = kpos | _ => False end.

Section WithCore.
Variable core : GemmCore.

(** Where the operands of a call lie.  An activation fetch and an epilogue
    call lie, with their whole extent, inside the clipped rectangle of the
    thread and inside [0, K).  The weight prologue and the micro-kernel
    start inside, but their sizes are rounded up to whole tiles: their
    extent may pass the last column of the rectangle by less than NTILE
    and the depth K by less than KTILE. *)
Definition call_ok (cfg : ParallelConfig) (prm : Param) (e : event) : Prop :=
  let row_end := rowidx cfg + launch_rows cfg prm in
  let col_end := colidx cfg + launch_cols cfg prm in
  match e with
  | GetWeight k_size n_size k_offset n_offset =>
      (KTILE core | k_size) ∧ (NTILE core | n_size) ∧
      0 ≤ k_offset < K prm ∧ 0 < k_size ∧ k_offset + k_size < K prm + KTILE core ∧
      colidx cfg ≤ n_offset < col_end ∧
      0 < n_size ∧ n_offset + n_size < col_end + NTILE core
  | GetActivation m_size k_size m_offset k_offset =>
      0 < m_size ≤ MTILE core ∧ rowidx cfg ≤ m_offset ∧ m_offset + m_size ≤ row_end ∧
      0 < k_size ∧ 0 ≤ k_offset ∧ k_offset + k_size ≤ K prm
  | Forward b_off c_off m n k kpos =>
      0 < m ≤ MTILE core ∧
      (NTILE core | n) ∧ 0 < n < NStep cfg + NTILE core ∧
      (KTILE core | k) ∧ 0 < k ∧
      0 ≤ kpos < K prm ∧ kpos + k < K prm + KTILE core ∧
      0 ≤ b_off ∧ 0 ≤ c_off
  | EpilogueForward cachestep M_offset N_offset M_size N_size =>
      cachestep = NStep cfg ∧
      0 < M_size ≤ MStep cfg ∧ rowidx cfg ≤ M_offset ∧ M_offset + M_size ≤ row_end ∧
      0 < N_size ≤ NStep cfg ∧ colidx cfg ≤ N_offset ∧ N_offset + N_size ≤ col_end
  end.

(** The call asks for depth or columns beyond the matrices: a padded part
    that lies past row K of B or past column N. *)
Definition call_padded (prm : Param) (e : event) : Prop :=
  match e with
  | GetWeight k_size n_size k_offset n_offset =>
      K prm < k_offset + k_size ∨ N prm < n_offset + n_size
  | Forward _ _ _ _ k kpos => K prm < kpos + k
  | _ => False
  end.

End WithCore.
(** A rectangle starting on the last row of the 20x100 output's end: the
    plan hands out rows 20..23, the output has none of them. *)
Definition cfg_below : ParallelConfig :=
  {| rowidx := 20; colidx := 0; rowsize := 4; colsize := 100;
     MStep := 16; NStep := 96; KStep := 8; StackSize := 2097152 |}.

(** The whole 20x100 output with a K step of zero. *)
Definition cfg_kstep0 : ParallelConfig :=
  {| rowidx := 0; colidx := 0; rowsize := 20; colsize := 100;
     MStep := 16; NStep := 96; KStep := 0; StackSize := 2097152 |}.

(** A product of depth zero. *)
Definition prm_depth0 : Param := {| M := 20; N := 100; K := 0 |}.

End Cover.

(** ** What the team of [compute] reaches *)

Module TeamCover.
Import Launcher Interface.

(** The rectangle that [getIndex] hands out contains ([row], [col]). *)
Definition in_rect (rect : Z * Z * Z * Z) (row col : Z) : bool :=
  let '(rowidx, colidx, rowsize, colsize) := rect in
  (rowidx <=? row) && (row <? rowidx + rowsize) &&
  (colidx <=? col) && (col <? colidx + colsize).

(** The calls made by the launches of a thread. *)
Definition thread_events (acts : list action) : list event :=
  a ← acts; match a with Launch _ tr => tr | _ => [] end.

(** The calls made by the whole team. *)
Definition team_events (threads : list (list action)) : list event :=
  threads ≫= thread_events.

End TeamCover.

(** ** The launcher of the dynamic-quantization kernels *)

Module DynLauncher.

(** [PrologueA::QuanParam]: the two fields the launcher reads, the address
    of the scales and their leading dimension. *)
Record QuanAParam := {
  scales : Z;
  lds : Z;
}.

(** The calls of [GemmLauncherPackWeightDynamicQuant]: the activation
    prologue is given the quantized activations instead of [paramA], the
    epilogue is given the scales as well.  [Param] and [ParallelConfig] have
    the fields of the ones of [GemmLauncherPackWeight]. *)
Inductive event :=
  | GetWeight (k_size n_size k_offset n_offset : Z)
  | GetActivation (quan : QuanAParam) (m_size k_size m_offset k_offset : Z)
  | Forward (b_off c_off m n k kpos : Z)
  | EpilogueForward (cachestep M_offset N_offset M_size N_size : Z) (scales lds : Z).

Section WithCore.
Variable core : GemmCore.

(** Body of the loop over [i] in [run_block]. *)
Definition run_mtile (cfg : Launcher.ParallelConfig) (quan : QuanAParam)
    (blk_m blk_msize n_padded iterk k_remain i : Z) : list event :=
  let k_paddedle := utils.padto_le k_remain (KTILE core) in
  let m_remain := utils.remainsize i blk_msize (MTILE core) in
  let c_off := i * Launcher.NStep cfg in
  let aligned :=
    if k_paddedle =? 0 then []
    else [ GetActivation quan m_remain k_paddedle (blk_m + i + Launcher.rowidx cfg) iterk;
           Forward 0 c_off m_remain n_padded k_paddedle iterk ] in
  let k_tail := k_remain - k_paddedle in
  let tail :=
    if k_tail =? 0 then []
    else [ GetActivation quan m_remain k_tail (blk_m + i + Launcher.rowidx cfg)
             (iterk + k_paddedle);
           Forward (k_paddedle * NTILE core) c_off m_remain n_padded (KTILE core)
                   (iterk + k_paddedle) ] in
  aligned ++ tail.

(** Body of the loop over [iterk] in [run_block]. *)
Definition run_kchunk (fuel : nat) (cfg : Launcher.ParallelConfig) (prm : Launcher.Param)
    (quan : QuanAParam) (blk_m blk_n blk_msize n_padded iterk : Z) : option (list event) :=
  let k_remain := utils.remainsize iterk (Launcher.K prm) (Launcher.KStep cfg) in
  let k_padded := utils.padto k_remain (KTILE core) in
  rows ← for_step fuel 0 blk_msize (MTILE core)
           (λ i, Some (run_mtile cfg quan blk_m blk_msize n_padded iterk k_remain i));
  Some (GetWeight k_padded n_padded iterk (Launcher.colidx cfg + blk_n) :: rows).

Definition run_block (fuel : nat) (cfg : Launcher.ParallelConfig) (prm : Launcher.Param)
    (quan : QuanAParam) (blk_m blk_n blk_msize blk_nsize : Z) : option (list event) :=
  let n_padded := utils.padto blk_nsize (NTILE core) in
  ks ← for_step fuel 0 (Launcher.K prm) (Launcher.KStep cfg)
         (run_kchunk fuel cfg prm quan blk_m blk_n blk_msize n_padded);
  Some (ks ++ [EpilogueForward (Launcher.NStep cfg) (Launcher.rowidx cfg + blk_m)
                 (Launcher.colidx cfg + blk_n) blk_msize blk_nsize
                 (scales quan) (lds quan)]).

Definition launch (fuel : nat) (cfg : Launcher.ParallelConfig) (prm : Launcher.Param)
    (quan : QuanAParam) : option (list event) :=
  let rowremain :=
    utils.remainsize (Launcher.rowidx cfg) (Launcher.M prm) (Launcher.rowsize cfg) in
  let colremain :=
    utils.remainsize (Launcher.colidx cfg) (Launcher.N prm) (Launcher.colsize cfg) in
  for_step fuel 0 colremain (Launcher.NStep cfg) (λ itern,
    let n_remain := utils.remainsize itern colremain (Launcher.NStep cfg) in
    for_step fuel 0 rowremain (Launcher.MStep cfg) (λ iterm,
      let m_remain := utils.remainsize iterm rowremain (Launcher.MStep cfg) in
      run_block fuel cfg prm quan iterm itern m_remain n_remain)).

End WithCore.

(** The call of the dynamic-quantization launcher that stands for a call of
    the plain launcher. *)
Definition of_plain (quan : QuanAParam) (e : Launcher.event) : event :=
  match e with
  | Launcher.GetWeight k n ko no => GetWeight k n ko no
  | Launcher.GetActivation m k mo ko => GetActivation quan m k mo ko
  | Launcher.Forward b c m n k kpos => Forward b c m n k kpos
  | Launcher.EpilogueForward cs mo no ms ns =>
      EpilogueForward cs mo no ms ns (scales quan) (lds quan)
  end.

Definition quan0 : QuanAParam := {| scales := 4096; lds := 2 |}.

End DynLauncher.

(** ** Progress of the dynamic-quantization region *)

Module OmpProgress.
Import Interface Omp.

(** A thread that has not passed the barrier: it still has to quantize, or
    it waits at the barrier; after the barrier only launches are left. *)
Definition before_barrier (prog : list action) : Prop :=
  ∃ rest, Forall (λ a, is_launch a = true) rest ∧
          (prog = OmpBarrier :: rest ∨ ∃ tidx, prog = QuantizeT tidx :: OmpBarrier :: rest).

(** The team moves through the barrier together. *)
Definition lockstep (team : list (list action)) : Prop :=
  Forall before_barrier team ∨ Forall (Forall (λ a, is_launch a = true)) team.

Definition finished (team : list (list action)) : Prop := Forall (λ prog, prog = []) team.

End OmpProgress.

(** ** When an evaluation returns *)

Module EvalPre.
Import GptNeoX.

(** What the graph copies for every layer has the shape of its destination
    view: [Kcur] holds [N * n_embd] elements, the transposed [Vcur] holds
    [n_embd] rows of [N] elements, in the element type of the cache. *)
Definition shapes_ok (hp : model_hparams) (kv : kv_cache) (res : computed) (N : Z) : Prop :=
  ∀ il, 0 ≤ il < n_layer hp →
    Z.of_nat (length (Kcur res il)) = N * n_embd hp * elem_size (k kv) ∧
    Z.of_nat (length (Vcur res il)) = n_embd hp ∧
    Forall (λ row, Z.of_nat (length row) = N * elem_size (v kv)) (Vcur res il).

(** The [memcpy] of the logits reads inside the data of the last node. *)
Definition logits_ok (lctx : model_context) (res : computed) (N : Z) : Prop :=
  let n_vocab := n_vocab (hparams lctx) in
  if logits_all lctx
  then 0 ≤ n_vocab * N ≤ Z.of_nat (length (lm_head res))
  else 0 ≤ n_vocab ∧ 0 ≤ n_vocab * (N - 1) ∧
       n_vocab * (N - 1) + n_vocab ≤ Z.of_nat (length (lm_head res)).

(** Every store of a graph lies inside the buffer of its cache tensor. *)
Definition stores_in_bounds (kv : kv_cache) (gf : list cpy_node) : Prop :=
  Forall (λ w : write,
            0 ≤ w.1.2 ∧
            w.1.2 + Z.of_nat (length w.2) ≤ Z.of_nat (length (data (cache_of kv w.1.1))))
         (graph_writes gf).

End EvalPre.

(** ** More evaluator inputs *)

Module EvalSteps.
Import GptNeoX.

(** Results of a call on one token: every key byte is [kb], every value
    byte is [vb]. *)
Definition one_token (kb vb : Byte.byte) : computed :=
  {| Kcur il := [kb; kb];
     Vcur il := [[vb]; [vb]];
     lm_head := [1; 2; 3];
     used_mem := 2048;
     time_interval := 5 |}.



End EvalSteps.

(** ** The hash of the quantization table *)

Module Common.

(** The key of [NE_FTYPE_MAP]: bits, algorithm, block size, scale type and
    GEMM ISA. *)
Definition key : Type := Z * string * Z * string * string.

Section WithHash.
(** [std::hash<int>] and [std::hash<std::string>]; the standard library
    chooses their values. *)
Variables (hash_int : Z → N) (hash_string : string → N).

Definition MyHash (k : key) : N :=
  let '(k0, k1, k2, k3, k4) := k in
  N.lxor (N.lxor (N.lxor (N.lxor (hash_int k0) (hash_string k1)) (hash_int k2))
                 (hash_string k3)) (hash_string k4).

End WithHash.
End Common.

(** * Properties *)

(** ** Arithmetic of the helpers *)

Lemma remainsize_chunk_size pos size N :
  utils.remainsize pos size N = chunk_size pos size N.
Proof.
  unfold utils.remainsize, chunk_size.
  destruct (Z.leb_spec (pos + N) size); lia.
Qed.

Lemma padto_le_div src padding :
  0 ≤ src → 0 < padding →
  utils.padto_le src padding = padding * (src / padding).
Proof.
  intros Hs Hp. unfold utils.padto_le.
  rewrite Z.quot_div_nonneg by lia. lia.
Qed.

Lemma padto_le_tail src padding :
  0 ≤ src → 0 < padding →
  src - utils.padto_le src padding = src mod padding.
Proof.
  intros Hs Hp. rewrite padto_le_div by lia.
  pose proof (Z.div_mod src padding ltac:(lia)). lia.
Qed.

(** [padto_le] is the largest multiple of the tile that fits. *)
Lemma padto_le_largest src padding :
  0 ≤ src → 0 < padding →
  (padding | utils.padto_le src padding) ∧
  utils.padto_le src padding ≤ src < utils.padto_le src padding + padding.
Proof.
  intros Hs Hp. rewrite padto_le_div by lia.
  pose proof (Z.div_mod src padding ltac:(lia)).
  pose proof (Z.mod_pos_bound src padding Hp).
  split; [exists (src / padding); lia | lia].
Qed.

Lemma padto_div src padding :
  0 < src → 0 < padding →
  utils.padto src padding = padding * ((src + padding - 1) / padding).
Proof.
  intros Hs Hp. unfold utils.padto.
  rewrite Z.quot_div_nonneg by lia. lia.
Qed.

(** ** Chunks *)

Lemma chunk_count_lt n step (q : nat) :
  0 < step → (Z.of_nat q * step < n ↔ (q < chunk_count n step)%nat).
Proof.
  intros Hstep. unfold chunk_count.
  pose proof (Z.div_mod (n + step - 1) step ltac:(lia)) as Hdm.
  pose proof (Z.mod_pos_bound (n + step - 1) step Hstep) as Hmb.
  split; intros Hq.
  - assert (Z.of_nat q < (n + step - 1) / step) by nia. lia.
  - destruct (Z.le_gt_cases 0 ((n + step - 1) / step)); [|lia].
    assert (Z.of_nat q + 1 ≤ (n + step - 1) / step) by lia. nia.
Qed.

Lemma chunk_starts_range n step x :
  0 < step → x ∈ chunk_starts n step → 0 ≤ x < n.
Proof.
  intros Hstep Hx. unfold chunk_starts in Hx.
  apply list_elem_of_fmap in Hx as (q & -> & Hq).
  apply elem_of_seq in Hq.
  assert (Hlt : (q < chunk_count n step)%nat) by lia.
  apply chunk_count_lt in Hlt; [|done]. lia.
Qed.

Lemma chunk_size_range x n step :
  0 < step → 0 ≤ x < n → 0 < chunk_size x n step ≤ step.
Proof. unfold chunk_size. lia. Qed.

Lemma chunk_count_nonpos n step : 0 < step → n ≤ 0 → chunk_count n step = 0%nat.
Proof.
  intros Hstep Hn. unfold chunk_count.
  assert ((n + step - 1) / step ≤ 0); [|lia].
  destruct (Z.le_gt_cases ((n + step - 1) / step) 0) as [|Hgt]; [done|].
  pose proof (Z.div_mod (n + step - 1) step ltac:(lia)).
  pose proof (Z.mod_pos_bound (n + step - 1) step Hstep). nia.
Qed.

(** The loop counter of a chunked loop stays in the range of a 32-bit
    [int], increment included, when the bound plus the step does. *)
Lemma chunk_starts_int_range n step x :
  0 < step → n + step ≤ 2 ^ 31 - 1 → x ∈ chunk_starts n step →
  - 2 ^ 31 ≤ x ∧ x + step ≤ 2 ^ 31 - 1.
Proof.
  intros Hstep Hn Hx. apply chunk_starts_range in Hx; [|done]. lia.
Qed.

(** ** The fuelled loop visits the chunk starts in order *)

Section ForStep.
Context {E : Type}.
Variables (n step : Z) (body : Z → option (list E)) (f : Z → list E).
Hypothesis Hstep : 0 < step.
Hypothesis Hbody : ∀ x, x ∈ chunk_starts n step → body x = Some (f x).

Lemma for_step_from (c q0 fuel : nat) :
  (q0 + c = chunk_count n step)%nat → (c ≤ fuel)%nat →
  for_step fuel (Z.of_nat q0 * step) n step body =
    Some (((λ q : nat, Z.of_nat q * step) <$> seq q0 c) ≫= f).
Proof.
  revert q0 fuel. induction c as [|c IH]; intros q0 fuel Hc Hfuel.
  - assert (Hge : ¬ Z.of_nat q0 * step < n) by (rewrite chunk_count_lt by done; lia).
    destruct fuel; simpl; destruct (Z.ltb_spec (Z.of_nat q0 * step) n); done.
  - destruct fuel as [|fuel]; [lia|].
    assert (Hlt : Z.of_nat q0 * step < n) by (rewrite chunk_count_lt by done; lia).
    simpl. destruct (Z.ltb_spec (Z.of_nat q0 * step) n); [|lia].
    rewrite Hbody; last first.
    { unfold chunk_starts. apply list_elem_of_fmap. exists q0. split; [done|].
      apply elem_of_seq. lia. }
    replace (Z.of_nat q0 * step + step) with (Z.of_nat (S q0) * step) by lia.
    rewrite IH by lia. done.
Qed.

Lemma for_step_chunks (fuel : nat) :
  (chunk_count n step ≤ fuel)%nat →
  for_step fuel 0 n step body = Some (chunk_starts n step ≫= f).
Proof.
  intros Hfuel.
  apply (for_step_from (chunk_count n step) 0 fuel); [done|done].
Qed.
End ForStep.

Lemma chunk_count_mono n n' step :
  0 < step → n ≤ n' → (chunk_count n step ≤ chunk_count n' step)%nat.
Proof.
  intros Hstep Hn. unfold chunk_count.
  assert ((n + step - 1) / step ≤ (n' + step - 1) / step) by (apply Z.div_le_mono; lia).
  lia.
Qed.

Lemma list_bind_assoc {A B C} (f : A → list B) (g : B → list C) (l : list A) :
  (l ≫= f) ≫= g = l ≫= (λ x, f x ≫= g).
Proof.
  induction l as [|x l IH]; [done|].
  rewrite !bind_cons, bind_app, IH. done.
Qed.

Lemma filter_bind_nil {A B} (P : B → bool) (g : A → list B) (l : list A) :
  (∀ x, x ∈ l → List.filter P (g x) = []) → List.filter P (l ≫= g) = [].
Proof.
  induction l as [|x l IH]; intros Hg; [done|].
  rewrite bind_cons, List.filter_app, Hg, IH; [done| |left].
  intros y Hy. apply Hg. by right.
Qed.

Lemma filter_bind_length {A B} (P : B → bool) (g : A → list B) (l : list A) :
  (∀ x, x ∈ l → length (List.filter P (g x)) = 1%nat) →
  length (List.filter P (l ≫= g)) = length l.
Proof.
  induction l as [|x l IH]; intros Hg; [done|].
  rewrite bind_cons, List.filter_app, length_app, Hg, IH; [done| |left].
  intros y Hy. apply Hg. by right.
Qed.

Lemma bind_length_const {A B} (g : A → list B) (l : list A) (r : nat) :
  (∀ x, x ∈ l → length (g x) = r) → length (l ≫= g) = (length l * r)%nat.
Proof.
  induction l as [|x l IH]; intros Hg; [done|].
  rewrite bind_cons, length_app, Hg, IH; [simpl; lia| |left].
  intros y Hy. apply Hg. by right.
Qed.

(** ** The launcher walks the tiles as described *)

Section LauncherFacts.
Import Launcher.
Variable core : GemmCore.
Hypothesis Hcore : GemmCore_wf core.

Lemma run_mtile_calls cfg blk_m blk_msize n_padded iterk k_remain i :
  0 ≤ k_remain →
  run_mtile core cfg blk_m blk_msize n_padded iterk k_remain i =
  tile_kchunk_calls core cfg (blk_m + i + rowidx cfg) (i * NStep cfg)
    (chunk_size i blk_msize (MTILE core)) n_padded iterk k_remain.
Proof.
  intros Hk. destruct Hcore as (? & ? & ? & _).
  unfold run_mtile, tile_kchunk_calls.
  rewrite padto_le_tail, padto_le_div, remainsize_chunk_size by lia. done.
Qed.

Lemma run_kchunk_tile fuel cfg prm blk_m blk_n blk_msize n_padded iterk :
  0 < KStep cfg → iterk ∈ chunk_starts (K prm) (KStep cfg) →
  (chunk_count blk_msize (MTILE core) ≤ fuel)%nat →
  run_kchunk core fuel cfg prm blk_m blk_n blk_msize n_padded iterk =
  Some (
    let kc := chunk_size iterk (K prm) (KStep cfg) in
    GetWeight (utils.padto kc (KTILE core)) n_padded iterk (colidx cfg + blk_n) ::
      (i ← chunk_starts blk_msize (MTILE core);
       tile_kchunk_calls core cfg (blk_m + i + rowidx cfg) (i * NStep cfg)
         (chunk_size i blk_msize (MTILE core)) n_padded iterk kc)).
Proof.
  intros HK Hin Hfuel. destruct Hcore as (HM & _).
  apply chunk_starts_range in Hin; [|done].
  pose proof (chunk_size_range iterk (K prm) (KStep cfg) HK Hin) as Hkc.
  unfold run_kchunk. rewrite remainsize_chunk_size.
  erewrite for_step_chunks; [done|done| |done].
  intros i _. simpl. rewrite run_mtile_calls by lia. done.
Qed.

Lemma run_block_tile fuel cfg prm blk_m blk_n blk_msize blk_nsize :
  0 < KStep cfg →
  (chunk_count (K prm) (KStep cfg) ≤ fuel)%nat →
  (chunk_count blk_msize (MTILE core) ≤ fuel)%nat →
  run_block core fuel cfg prm blk_m blk_n blk_msize blk_nsize =
  Some (tile_events core cfg prm blk_m blk_n blk_msize blk_nsize).
Proof.
  intros HK Hf1 Hf2. unfold run_block, tile_events, tile_kloop.
  erewrite for_step_chunks; [done|done| |done].
  intros iterk Hin. simpl. by rewrite run_kchunk_tile.
Qed.

Lemma launch_tiled fuel cfg prm :
  0 < MStep cfg → 0 < NStep cfg → 0 < KStep cfg →
  (launch_fuel core cfg prm ≤ fuel)%nat →
  launch core fuel cfg prm = Some (tiled_launch core cfg prm).
Proof.
  intros HM HN HK Hfuel. destruct Hcore as (HMT & _).
  unfold launch_fuel in Hfuel.
  unfold launch, tiled_launch, tiles. fold (launch_rows cfg prm) (launch_cols cfg prm).
  rewrite list_bind_assoc.
  erewrite for_step_chunks; [done|done| |lia].
  intros tn Htn. simpl. rewrite list_bind_assoc.
  erewrite for_step_chunks; [done|done| |lia].
  intros tm Htm. simpl. rewrite app_nil_r, !remainsize_chunk_size.
  apply run_block_tile; [done|lia|].
  apply chunk_starts_range in Htm; [|done].
  pose proof (chunk_size_range tm (launch_rows cfg prm) (MStep cfg) HM Htm).
  pose proof (chunk_count_mono (chunk_size tm (launch_rows cfg prm) (MStep cfg))
                (MStep cfg) (MTILE core) HMT ltac:(lia)).
  lia.
Qed.

Lemma tile_kchunk_calls_no_epilogue cfg row c_off mc n_padded kstart kc :
  List.filter is_epilogue (tile_kchunk_calls core cfg row c_off mc n_padded kstart kc) = [].
Proof.
  unfold tile_kchunk_calls.
  destruct (_ =? 0); destruct (_ =? 0); done.
Qed.

Lemma tile_kloop_no_epilogue cfg prm tm tn msize nsize :
  List.filter is_epilogue (tile_kloop core cfg prm tm tn msize nsize) = [].
Proof.
  unfold tile_kloop. apply filter_bind_nil. intros kstart _.
  simpl.
  apply filter_bind_nil. intros i _. apply tile_kchunk_calls_no_epilogue.
Qed.

Lemma tile_events_one_epilogue cfg prm tm tn msize nsize :
  List.filter is_epilogue (tile_events core cfg prm tm tn msize nsize) =
  [EpilogueForward (NStep cfg) (rowidx cfg + tm) (colidx cfg + tn) msize nsize].
Proof.
  unfold tile_events. rewrite List.filter_app, tile_kloop_no_epilogue. done.
Qed.

Lemma tiled_launch_epilogues cfg prm :
  length (List.filter is_epilogue (tiled_launch core cfg prm)) = length (tiles cfg prm).
Proof.
  unfold tiled_launch. apply filter_bind_length.
  intros [tm tn] _. by rewrite tile_events_one_epilogue.
Qed.

Lemma tiles_length cfg prm :
  length (tiles cfg prm) =
  (chunk_count (launch_cols cfg prm) (NStep cfg) *
   chunk_count (launch_rows cfg prm) (MStep cfg))%nat.
Proof.
  unfold tiles.
  rewrite (bind_length_const _ _ (chunk_count (launch_rows cfg prm) (MStep cfg))).
  - unfold chunk_starts. by rewrite length_fmap, length_seq.
  - intros tn _. rewrite (bind_length_const _ _ 1%nat); [|done].
    unfold chunk_starts. rewrite length_fmap, length_seq. lia.
Qed.

End LauncherFacts.

(** C1.  [launch] visits the output tiles with N outermost and M inside;
    per tile it walks K in KStep chunks and, for each band of MTILE rows,
    issues one micro-kernel call on the largest multiple of KTILE of the
    chunk (when that multiple is not empty) followed by a second call on the
    remainder exactly when the chunk is not a multiple of KTILE; the
    epilogue is called once per tile, after the whole K loop. *)
Theorem launch_walks_tiles (core : GemmCore) (cfg : Launcher.ParallelConfig)
    (prm : Launcher.Param) (fuel : nat) :
  GemmCore_wf core →
  0 < Launcher.MStep cfg → 0 < Launcher.NStep cfg → 0 < Launcher.KStep cfg →
  (Launcher.launch_fuel core cfg prm ≤ fuel)%nat →
  Launcher.launch core fuel cfg prm = Some (Launcher.tiled_launch core cfg prm) ∧
  length (List.filter Launcher.is_epilogue (Launcher.tiled_launch core cfg prm)) =
    (chunk_count (Launcher.launch_cols cfg prm) (Launcher.NStep cfg) *
     chunk_count (Launcher.launch_rows cfg prm) (Launcher.MStep cfg))%nat ∧
  (∀ tm tn msize nsize,
     List.filter Launcher.is_epilogue
       (Launcher.tile_kloop core cfg prm tm tn msize nsize) = [] ∧
     Launcher.tile_events core cfg prm tm tn msize nsize =
       Launcher.tile_kloop core cfg prm tm tn msize nsize ++
       [Launcher.EpilogueForward (Launcher.NStep cfg) (Launcher.rowidx cfg + tm)
          (Launcher.colidx cfg + tn) msize nsize]) ∧
  (∀ row c_off mc n_padded kstart kc, 0 < kc →
     length (List.filter Launcher.is_forward
               (Launcher.tile_kchunk_calls core cfg row c_off mc n_padded kstart kc)) =
       if kc mod KTILE core =? 0 then 1%nat else if kc <? KTILE core then 1%nat else 2%nat).
Proof.
  intros Hcore HM HN HK Hfuel. split; [|split; [|split]].
  - by apply launch_tiled.
  - by rewrite tiled_launch_epilogues, tiles_length.
  - intros tm tn msize nsize. split; [apply tile_kloop_no_epilogue | done].
  - intros row c_off mc n_padded kstart kc Hkc.
    destruct Hcore as (_ & _ & HKT & _).
    unfold Launcher.tile_kchunk_calls.
    pose proof (Z.div_mod kc (KTILE core) ltac:(lia)) as Hdm.
    pose proof (Z.mod_pos_bound kc (KTILE core) HKT) as Hmb.
    destruct (Z.eqb_spec (kc mod KTILE core) 0) as [Hr|Hr];
      destruct (Z.eqb_spec (KTILE core * (kc / KTILE core)) 0) as [Ha|Ha];
      try destruct (Z.ltb_spec kc (KTILE core)) as [Hlt|Hge];
      simpl; try done; try lia.
    all: try (assert (kc / KTILE core = 0) by (apply Z.div_small; lia); lia).
    all: assert (Hq : kc / KTILE core = 0) by nia.
    all: apply Z.div_small_iff in Hq; lia.
Qed.

Lemma launch_walks_tiles_witness :
  Launcher.launch Examples.core_8x48 4 Examples.cfg_whole Examples.prm_20x100x10 =
    Some (Launcher.tiled_launch Examples.core_8x48 Examples.cfg_whole Examples.prm_20x100x10) ∧
  length (List.filter Launcher.is_epilogue
            (Launcher.tiled_launch Examples.core_8x48 Examples.cfg_whole
               Examples.prm_20x100x10)) = 4%nat.
Proof.
  pose proof (launch_walks_tiles Examples.core_8x48 Examples.cfg_whole
                Examples.prm_20x100x10 4) as H.
  destruct H as (H1 & H2 & _).
  - unfold GemmCore_wf. simpl. lia.
  - simpl. lia.
  - simpl. lia.
  - simpl. lia.
  - vm_compute. lia.
  - split; [exact H1 | exact H2].
Defined.

(** ** The interface classes *)

Section InterfaceFacts.
Import Launcher Interface.
Context {P : Type} `{Parallel P}.
Variable core : GemmCore.

Lemma make_config_fields cb (paral : P) rowidx0 colidx0 rowsize0 colsize0 :
  let cfg := make_config cb paral (rowidx0, colidx0, rowsize0, colsize0) in
  rowidx cfg = rowidx0 ∧ colidx cfg = colidx0 ∧
  rowsize cfg = rowsize0 ∧ colsize cfg = colsize0 ∧
  MStep cfg = getMStep paral ∧ NStep cfg = getNStep paral ∧
  KStep cfg = getKStep paral ∧ StackSize cfg = mL2Cache cb.
Proof. done. Qed.

(** A thread calls [launch] at most once, and only on a rectangle with a
    positive number of rows and of columns. *)
Lemma launch_if_assigned_inv fuel cb prm (paral : P) tidx acts :
  launch_if_assigned core fuel cb prm paral tidx = Some acts →
  let '(_, _, rowsize0, colsize0) := getIndex paral tidx in
  (rowsize0 ≤ 0 ∨ colsize0 ≤ 0 → acts = []) ∧
  (∀ cfg tr, Launch cfg tr ∈ acts →
     cfg = make_config cb paral (getIndex paral tidx) ∧
     0 < rowsize cfg ∧ 0 < colsize cfg ∧ launch core fuel cfg prm = Some tr) ∧
  Forall (λ a, is_launch a = true) acts.
Proof.
  unfold launch_if_assigned.
  destruct (getIndex paral tidx) as [[[r0 c0] rs] cs] eqn:Hidx.
  destruct (Z.ltb_spec 0 rs); destruct (Z.ltb_spec 0 cs); simpl.
  2-4: intros [= <-]; (split; [done|]); split; [by intros ?? ?%elem_of_nil|done].
  destruct (launch _ _ _ _) as [tr0|] eqn:Hl; simpl; [|done].
  intros [= <-]. split; [lia|]. split.
  - intros cfg tr [= -> ->]%list_elem_of_singleton. done.
  - by repeat constructor.
Qed.

Lemma launch_if_assigned_total fuel cb prm (paral : P) tidx :
  GemmCore_wf core →
  0 < getMStep paral → 0 < getNStep paral → 0 < getKStep paral →
  (launch_fuel core (make_config cb paral (getIndex paral tidx)) prm ≤ fuel)%nat →
  is_Some (launch_if_assigned core fuel cb prm paral tidx).
Proof.
  intros Hcore HM HN HK Hfuel. unfold launch_if_assigned.
  destruct (getIndex paral tidx) as [[[r0 c0] rs] cs] eqn:Hidx.
  destruct (_ && _); [|done].
  rewrite launch_tiled; done.
Qed.

Lemma compute_fuel_covers cb nthreads prm (paral : P) tidx fuel :
  tidx ∈ omp_team nthreads → (compute_fuel core cb nthreads prm paral ≤ fuel)%nat →
  (launch_fuel core (make_config cb paral (getIndex paral tidx)) prm ≤ fuel)%nat.
Proof.
  intros Hin Hfuel. unfold compute_fuel in Hfuel.
  etrans; [|exact Hfuel]. apply max_list_elem_of_le.
  apply list_elem_of_fmap. by exists tidx.
Qed.

End InterfaceFacts.

(** C4.  Once the launcher template has been instantiated, which the
    static assertion allows only when the run-time ISA covers the core's,
    [compute] of both interfaces returns [JblasSuccess]: it returns (given
    positive steps in the plan) and no return carries another status. *)
Theorem compute_returns_success {P : Type} `{Interface.Parallel P}
    (RT_ISA : Z) (core0 core : GemmCore) (cb : Interface.CpuBase) (nthreads : Z)
    (prm : Launcher.Param) (paral : P) (fuel : nat) :
  Interface.GemmLauncherPackWeight RT_ISA core0 = Some core →
  GemmCore_wf core →
  let plan := (Interface.update paral (Launcher.M prm) (Launcher.N prm) (Launcher.K prm)
                 (Interface.mNumThreads cb)).2 in
  0 < Interface.getMStep plan → 0 < Interface.getNStep plan → 0 < Interface.getKStep plan →
  (Interface.compute_fuel core cb nthreads prm plan ≤ fuel)%nat →
  (∃ threads, Interface.PackWeight_compute core fuel cb nthreads prm paral
                = Some (Interface.JblasSuccess, threads)) ∧
  (∃ threads, Interface.DynamicQuant_compute core fuel cb nthreads prm paral
                = Some (Interface.JblasSuccess, threads)) ∧
  (∀ fuel' nthreads' st threads,
     Interface.PackWeight_compute core fuel' cb nthreads' prm paral = Some (st, threads) ∨
     Interface.DynamicQuant_compute core fuel' cb nthreads' prm paral = Some (st, threads) →
     st = Interface.JblasSuccess) ∧
  ISA core ≤ RT_ISA ∧
  (∀ c, RT_ISA < ISA c →
     Interface.GemmLauncherPackWeight RT_ISA c = None ∧
     Interface.GemmLauncherPackWeightDynamicQuant RT_ISA c = None).
Proof.
  intros Hinst Hcore plan HM HN HK Hfuel.
  assert (Hthreads : Forall (λ tidx, is_Some
            (Interface.launch_if_assigned core fuel cb prm plan tidx))
            (Interface.omp_team nthreads)).
  { apply Forall_forall. intros tidx Hin.
    apply launch_if_assigned_total; try done.
    by eapply compute_fuel_covers. }
  split; [|split; [|split; [|split]]].
  - unfold Interface.PackWeight_compute. subst plan.
    destruct (Interface.update _ _ _ _ _) as [chg plan]. simpl in *.
    apply mapM_is_Some_2 in Hthreads as [threads Hth].
    rewrite Hth. by exists threads.
  - unfold Interface.DynamicQuant_compute. subst plan.
    destruct (Interface.update _ _ _ _ _) as [chg plan]. simpl in *.
    assert (Hdq : Forall (is_Some ∘ Interface.DynamicQuant_thread core fuel cb prm plan)
                    (Interface.omp_team nthreads)).
    { eapply Forall_impl; [exact Hthreads|]. intros tidx [acts Hacts]. simpl.
      unfold Interface.DynamicQuant_thread. rewrite Hacts. done. }
    apply mapM_is_Some_2 in Hdq as [threads Hth].
    rewrite Hth. by exists threads.
  - intros fuel' nthreads' st threads [Hc|Hc].
    + unfold Interface.PackWeight_compute in Hc.
      destruct (Interface.update _ _ _ _ _) as [chg plan'].
      destruct (mapM _ _); simpl in Hc; congruence.
    + unfold Interface.DynamicQuant_compute in Hc.
      destruct (Interface.update _ _ _ _ _) as [chg plan'].
      destruct (mapM _ _); simpl in Hc; congruence.
  - unfold Interface.GemmLauncherPackWeight in Hinst.
    destruct (Z.leb_spec (ISA core0) RT_ISA); [|done]. congruence.
  - intros c Hc. unfold Interface.GemmLauncherPackWeight,
      Interface.GemmLauncherPackWeightDynamicQuant.
    destruct (Z.leb_spec (ISA c) RT_ISA); [lia|done].
Qed.

Lemma compute_returns_success_witness :
  (∃ threads, Interface.PackWeight_compute Examples.core_8x48 4 Examples.cpu3 3
                Examples.prm_20x100x10 Examples.plan3
                = Some (Interface.JblasSuccess, threads)) ∧
  (∃ threads, Interface.DynamicQuant_compute Examples.core_8x48 4 Examples.cpu3 3
                Examples.prm_20x100x10 Examples.plan3
                = Some (Interface.JblasSuccess, threads)).
Proof.
  pose proof (compute_returns_success 14 Examples.core_8x48 Examples.core_8x48
                Examples.cpu3 3 Examples.prm_20x100x10 Examples.plan3 4) as Hw.
  destruct Hw as (H1 & H2 & _).
  - reflexivity.
  - unfold GemmCore_wf. simpl. lia.
  - simpl. lia.
  - simpl. lia.
  - simpl. lia.
  - vm_compute. lia.
  - split; [exact H1 | exact H2].
Defined.

Section ComputeThreads.
Import Launcher Interface.
Context {P : Type} `{Parallel P}.
Variable core : GemmCore.

(** What every thread of either parallel region did, in terms of the
    plan that [update] returned. *)
Lemma compute_thread_inv fuel cb nthreads prm (paral : P) st threads :
  PackWeight_compute core fuel cb nthreads prm paral = Some (st, threads) ∨
  DynamicQuant_compute core fuel cb nthreads prm paral = Some (st, threads) →
  let plan := (update paral (M prm) (N prm) (K prm) (mNumThreads cb)).2 in
  Forall2 (λ tidx acts, ∃ rest,
             launch_if_assigned core fuel cb prm plan tidx = Some rest ∧
             (acts = rest ∨ acts = QuantizeT tidx :: OmpBarrier :: rest))
          (omp_team nthreads) threads.
Proof.
  intros [Hc|Hc] plan; subst plan.
  - unfold PackWeight_compute in Hc.
    destruct (update _ _ _ _ _) as [chg plan]. simpl.
    destruct (mapM _ _) as [ths|] eqn:Hm; simpl in Hc; [|done].
    injection Hc as _ <-. apply mapM_Some_1 in Hm.
    eapply Forall2_impl; [exact Hm|]. intros tidx acts Hacts. exists acts. auto.
  - unfold DynamicQuant_compute in Hc.
    destruct (update _ _ _ _ _) as [chg plan]. simpl.
    destruct (mapM _ _) as [ths|] eqn:Hm; simpl in Hc; [|done].
    injection Hc as _ <-. apply mapM_Some_1 in Hm.
    eapply Forall2_impl; [exact Hm|]. intros tidx acts Hacts.
    unfold DynamicQuant_thread in Hacts.
    destruct (launch_if_assigned _ _ _ _ _ _) as [rest|]; simpl in Hacts; [|done].
    injection Hacts as <-. exists rest. auto.
Qed.

Lemma dynamic_quant_thread_inv fuel cb nthreads prm (paral : P) st threads :
  DynamicQuant_compute core fuel cb nthreads prm paral = Some (st, threads) →
  Forall2 (λ tidx acts, ∃ rest,
             acts = QuantizeT tidx :: OmpBarrier :: rest ∧
             Forall (λ a, is_launch a = true) rest)
          (omp_team nthreads) threads.
Proof.
  intros Hc. unfold DynamicQuant_compute in Hc.
  destruct (update _ _ _ _ _) as [chg plan].
  destruct (mapM _ _) as [ths|] eqn:Hm; simpl in Hc; [|done].
  injection Hc as _ <-. apply mapM_Some_1 in Hm.
  eapply Forall2_impl; [exact Hm|]. intros tidx acts Hacts.
  unfold DynamicQuant_thread in Hacts.
  destruct (launch_if_assigned _ _ _ _ _ _) as [rest|] eqn:Hl; simpl in Hacts; [|done].
  injection Hacts as <-. exists rest. split; [done|].
  apply launch_if_assigned_inv in Hl.
  destruct (getIndex plan tidx) as [[[? ?] ?] ?]. tauto.
Qed.

End ComputeThreads.

(** C6.  A thread whose rectangle has no rows or no columns makes no call
    of [launch], in either interface; every call of [launch] that a thread
    of the team makes is on a rectangle with rows and columns. *)
Theorem compute_skips_empty_rectangles {P : Type} `{Interface.Parallel P}
    (core : GemmCore) (fuel : nat) (cb : Interface.CpuBase) (nthreads : Z)
    (prm : Launcher.Param)
    (paral : P) (st : Interface.JBLAS_CODE) (threads : list (list Interface.action))
    (i : nat) (tidx rowidx0 colidx0 rowsize0 colsize0 : Z) (acts : list Interface.action) :
  Interface.PackWeight_compute core fuel cb nthreads prm paral = Some (st, threads) ∨
  Interface.DynamicQuant_compute core fuel cb nthreads prm paral = Some (st, threads) →
  Interface.omp_team nthreads !! i = Some tidx →
  threads !! i = Some acts →
  Interface.getIndex
    (Interface.update paral (Launcher.M prm) (Launcher.N prm) (Launcher.K prm)
       (Interface.mNumThreads cb)).2 tidx = (rowidx0, colidx0, rowsize0, colsize0) →
  rowsize0 ≤ 0 ∨ colsize0 ≤ 0 →
  List.filter Interface.is_launch acts = [] ∧
  (∀ acts' cfg tr, acts' ∈ threads → Interface.Launch cfg tr ∈ acts' →
     0 < Launcher.rowsize cfg ∧ 0 < Launcher.colsize cfg).
Proof.
  intros Hc Hi Hacts Hidx Hempty.
  pose proof (compute_thread_inv core fuel cb nthreads prm paral st threads Hc) as Hall.
  simpl in Hall. split.
  - destruct (Forall2_lookup_lr _ _ _ _ _ _ Hall Hi Hacts) as (rest & Hrest & Hshape).
    apply launch_if_assigned_inv in Hrest. rewrite Hidx in Hrest.
    destruct Hrest as (Hnil & _). rewrite (Hnil Hempty) in Hshape.
    by destruct Hshape as [-> | ->].
  - intros acts' cfg tr Hin Hl.
    apply list_elem_of_lookup in Hin as [j Hj].
    destruct (Forall2_lookup_r _ _ _ _ _ Hall Hj) as (tj & _ & rest & Hrest & Hshape).
    apply launch_if_assigned_inv in Hrest.
    destruct (Interface.getIndex _ tj) as [[[? ?] ?] ?].
    destruct Hrest as (_ & Hlaunch & _).
    assert (Interface.Launch cfg tr ∈ rest) as Hin'.
    { destruct Hshape as [-> | ->]; [done|].
      apply elem_of_cons in Hl as [?|Hl]; [done|].
      apply elem_of_cons in Hl as [?|Hl]; done. }
    apply Hlaunch in Hin'. tauto.
Qed.

Lemma compute_skips_empty_rectangles_witness :
  Interface.getIndex Examples.plan3 2 = (0, 0, 0, 0) ∧
  List.filter Interface.is_launch [Interface.QuantizeT 2; Interface.OmpBarrier] = [].
Proof.
  split; [reflexivity|].
  refine (proj1 (compute_skips_empty_rectangles Examples.core_8x48 4 Examples.cpu3 3
            Examples.prm_20x100x10 Examples.plan3 Interface.JblasSuccess _
            2 2 0 0 0 0 [Interface.QuantizeT 2; Interface.OmpBarrier] _ _ _ _ _)).
  - right. vm_compute. reflexivity.
  - reflexivity.
  - reflexivity.
  - reflexivity.
  - left. lia.
Defined.

(** ** The barrier of the dynamic-quantization region *)

Section Barrier.
Import Interface Omp.
Variable ids : list Z.

Lemma phase_ok_mono acc tr i tidx prog :
  phase_ok ids acc i tidx prog → phase_ok ids (acc ++ tr) i tidx prog.
Proof.
  intros [Hp|[(rest & ? & ? & ?)|(? & Hall)]].
  - by left.
  - right; left. exists rest. split_and!; [done|done|]. apply elem_of_app. by left.
  - right; right. split; [done|]. intros j tj Hj. apply elem_of_app. left. eauto.
Qed.

Lemma at_barrier_phase acc i tidx prog :
  phase_ok ids acc i tidx prog → at_barrier prog = true →
  ∃ rest, prog = OmpBarrier :: rest ∧ Forall (λ a, is_launch a = true) rest ∧
          (i, QuantizeT tidx) ∈ acc.
Proof.
  intros [(rest & -> & _)|[Hp|(Hl & _)]] Hb; [done|done|].
  destruct prog as [|[] ?]; try done.
  by apply Forall_cons in Hl as [? _].
Qed.

(** A step keeps the invariant, and a [launch] can only be emitted once
    every thread of the team has quantized. *)
Lemma step_inv acc team t tr team' :
  team_inv ids acc team → step team t = Some (tr, team') →
  team_inv ids (acc ++ tr) team' ∧
  (∀ t' cfg ltr, (t', Launch cfg ltr) ∈ tr →
     ∀ j tj, ids !! j = Some tj → (j, QuantizeT tj) ∈ acc).
Proof.
  intros [Hlen Hinv] Hstep. unfold step in Hstep.
  destruct (team !! t) as [prog|] eqn:Ht; [|done].
  assert (is_Some (ids !! t)) as [tidx Hid].
  { apply lookup_lt_is_Some. rewrite <-Hlen. by eapply lookup_lt_Some. }
  pose proof (Hinv t tidx prog Hid Ht) as Hphase.
  destruct prog as [|a rest]; [done|].
  destruct a as [tq | | cfg0 ltr0].
  - (* the thread quantizes its rows *)
    injection Hstep as <- <-.
    destruct Hphase as [(rest' & [= -> ->] & Hl)|[(? & ? & _)|(Hl & _)]];
      [|done|by apply Forall_cons in Hl as [? _]].
    split.
    + split; [by rewrite length_insert|].
      intros i ti progi Hi Hpi.
      destruct (decide (i = t)) as [->|Hne].
      * rewrite list_lookup_insert_eq in Hpi by (by eapply lookup_lt_Some).
        injection Hpi as <-. assert (ti = tidx) as -> by congruence.
        right; left. exists rest'. split_and!; [done|done|].
        apply elem_of_app. right. by apply list_elem_of_singleton.
      * rewrite list_lookup_insert_ne in Hpi by done.
        apply phase_ok_mono. eauto.
    + intros t' cfg ltr Hin. by apply list_elem_of_singleton in Hin.
  - (* the barrier opens: the whole team stands at it *)
    destruct (forallb at_barrier team) eqn:Hall; [|done].
    injection Hstep as <- <-. rewrite app_nil_r.
    rewrite List.forallb_forall in Hall.
    assert (Hq : ∀ j tj, ids !! j = Some tj → (j, QuantizeT tj) ∈ acc).
    { intros j tj Hj.
      assert (is_Some (team !! j)) as [progj Hpj].
      { apply lookup_lt_is_Some. rewrite Hlen. by eapply lookup_lt_Some. }
      pose proof (Hinv j tj progj Hj Hpj) as Hphj.
      assert (at_barrier progj = true) as Hb.
      { apply Hall, list_elem_of_In. by eapply list_elem_of_lookup_2. }
      destruct (at_barrier_phase _ _ _ _ Hphj Hb) as (? & _ & _ & ?). done. }
    split; [|intros ??? []%elem_of_nil].
    split; [by rewrite length_fmap|].
    intros i ti progi Hi Hpi.
    rewrite list_lookup_fmap in Hpi.
    destruct (team !! i) as [progi0|] eqn:Hpi0; [|done].
    injection Hpi as <-.
    pose proof (Hinv i ti progi0 Hi Hpi0) as Hphi.
    assert (at_barrier progi0 = true) as Hb.
    { apply Hall, list_elem_of_In. by eapply list_elem_of_lookup_2. }
    destruct (at_barrier_phase _ _ _ _ Hphi Hb) as (resti & -> & Hl & _).
    right; right. done.
  - (* a launch: the thread is past the barrier *)
    injection Hstep as <- <-.
    destruct Hphase as [(? & ? & _)|[(? & ? & _)|(Hl & Hq)]]; [done|done|].
    apply Forall_cons in Hl as [_ Hl].
    split.
    + split; [by rewrite length_insert|].
      intros i ti progi Hi Hpi.
      destruct (decide (i = t)) as [->|Hne].
      * rewrite list_lookup_insert_eq in Hpi by (by eapply lookup_lt_Some).
        injection Hpi as <-.
        right; right. split; [done|]. intros j tj Hj. apply elem_of_app. left. eauto.
      * rewrite list_lookup_insert_ne in Hpi by done.
        apply phase_ok_mono. eauto.
    + intros t' cfg ltr _. exact Hq.
Qed.

Lemma run_inv sched : ∀ acc team tr team',
  team_inv ids acc team → run sched team = Some (tr, team') →
  ∀ pre t cfg ltr post, tr = pre ++ (t, Launch cfg ltr) :: post →
  ∀ j tj, ids !! j = Some tj → (j, QuantizeT tj) ∈ acc ++ pre.
Proof.
  induction sched as [|t0 sched IH]; intros acc team tr team' Hinv Hrun.
  - injection Hrun as <- <-. intros pre t cfg ltr post Htr.
    by destruct pre.
  - simpl in Hrun.
    destruct (step team t0) as [[tr1 team1]|] eqn:Hstep; simpl in Hrun; [|done].
    destruct (run sched team1) as [[tr2 team2]|] eqn:Hrun2; simpl in Hrun; [|done].
    injection Hrun as <- <-.
    destruct (step_inv _ _ _ _ _ Hinv Hstep) as [Hinv1 Hlaunch].
    intros pre t cfg ltr post Htr j tj Hj.
    assert (Hlen1 : tr1 = [] ∨ ∃ e, tr1 = [e]).
    { unfold step in Hstep.
      destruct (team !! t0) as [[|[] ?]|]; try done.
      - injection Hstep as <- _. eauto.
      - destruct (forallb _ _); [|done]. injection Hstep as <- _. eauto.
      - injection Hstep as <- _. eauto. }
    destruct Hlen1 as [-> | [e ->]].
    + simpl in Htr. rewrite app_nil_r in Hinv1. eapply IH; eauto.
    + destruct pre as [|e' pre].
      * simpl in Htr. injection Htr as -> _. rewrite app_nil_r.
        eapply Hlaunch; [|done]. by apply list_elem_of_singleton.
      * simpl in Htr. injection Htr as <- Htr.
        replace (acc ++ e :: pre) with ((acc ++ [e]) ++ pre)
          by (by rewrite <-app_assoc).
        eapply IH; eauto.
Qed.

Lemma team_inv_init threads :
  Forall2 (λ tidx acts, ∃ rest,
             acts = QuantizeT tidx :: OmpBarrier :: rest ∧
             Forall (λ a, is_launch a = true) rest) ids threads →
  team_inv ids [] threads.
Proof.
  intros Hall. split; [symmetry; by eapply Forall2_length|].
  intros i tidx prog Hi Hp.
  destruct (Forall2_lookup_lr _ _ _ _ _ _ Hall Hi Hp) as (rest & -> & ?).
  left. eauto.
Qed.

End Barrier.

(** C5.  In every interleaving of the parallel region of the
    dynamic-quantization [compute], a call of [launch] by any thread comes
    after the [quantizeT] of every thread of the team; the program of every
    thread is [quantizeT], then the one barrier, then at most launches. *)
Theorem quantize_before_launch {P : Type} `{Interface.Parallel P}
    (core : GemmCore) (fuel : nat) (cb : Interface.CpuBase) (nthreads : Z)
    (prm : Launcher.Param)
    (paral : P) (st : Interface.JBLAS_CODE) (threads : list (list Interface.action))
    (sched : list nat) (tr : list (nat * Interface.action))
    (team' : list (list Interface.action)) :
  Interface.DynamicQuant_compute core fuel cb nthreads prm paral = Some (st, threads) →
  Omp.run sched threads = Some (tr, team') →
  (∀ pre t cfg ltr post, tr = pre ++ (t, Interface.Launch cfg ltr) :: post →
     ∀ (j : nat) tj, Interface.omp_team nthreads !! j = Some tj →
       (j, Interface.QuantizeT tj) ∈ pre) ∧
  Forall2 (λ tidx acts, ∃ rest,
             acts = Interface.QuantizeT tidx :: Interface.OmpBarrier :: rest ∧
             Forall (λ a, Interface.is_launch a = true) rest ∧
             List.filter Interface.is_barrier acts = [Interface.OmpBarrier])
          (Interface.omp_team nthreads) threads.
Proof.
  intros Hc Hrun.
  pose proof (dynamic_quant_thread_inv core fuel cb nthreads prm paral st threads Hc) as Hall.
  split.
  2:{ eapply Forall2_impl; [exact Hall|]. intros tidx acts (rest & -> & Hl).
      exists rest. split_and!; [done|done|]. simpl. f_equal.
      clear -Hl. induction Hl as [|a rest Ha _ IH]; [done|].
      simpl. destruct a; try done. }
  intros pre t cfg ltr post Htr j tj Hj.
  apply team_inv_init in Hall.
  by eapply (run_inv _ sched [] threads tr team' Hall Hrun).
Qed.

Lemma quantize_before_launch_witness :
  ∃ threads tr team',
    Interface.DynamicQuant_compute Examples.core_8x48 4 Examples.cpu3 3
      Examples.prm_20x100x10 Examples.plan3 = Some (Interface.JblasSuccess, threads) ∧
    Omp.run [1; 0; 2; 1; 1; 0]%nat threads = Some (tr, team') ∧
    length tr = 5%nat ∧
    ∀ pre t cfg ltr post, tr = pre ++ (t, Interface.Launch cfg ltr) :: post →
      ∀ (j : nat) tj, Interface.omp_team 3 !! j = Some tj →
        (j, Interface.QuantizeT tj) ∈ pre.
Proof.
  eexists _, _, _.
  split; [vm_compute; reflexivity|].
  split; [vm_compute; reflexivity|].
  split; [reflexivity|].
  refine (proj1 (quantize_before_launch Examples.core_8x48 4 Examples.cpu3 3
            Examples.prm_20x100x10 Examples.plan3 Interface.JblasSuccess _
            [1; 0; 2; 1; 1; 0]%nat _ _ _ _)).
  - vm_compute. reflexivity.
  - vm_compute. reflexivity.
Defined.

(** ** The evaluator: stores into the cache *)

Section CacheStores.
Import GptNeoX.

Lemma store_length mem off bytes : length (store mem off bytes) = length mem.
Proof. unfold store. by rewrite length_inserts. Qed.

(** Outside the run of a store the buffer keeps its bytes. *)
Lemma store_outside mem off bytes (i : nat) :
  ¬ (off ≤ Z.of_nat i < off + Z.of_nat (length bytes)) →
  store mem off bytes !! i = mem !! i.
Proof.
  intros Hout. unfold store.
  destruct (Z.lt_ge_cases (Z.of_nat i) off).
  - apply list_lookup_inserts_lt. lia.
  - apply list_lookup_inserts_ge. rewrite length_drop. lia.
Qed.

(** Inside the run, and inside the buffer, it holds the stored bytes. *)
Lemma store_inside mem off bytes (i : nat) :
  off ≤ Z.of_nat i < off + Z.of_nat (length bytes) → (i < length mem)%nat →
  store mem off bytes !! i = bytes !! Z.to_nat (Z.of_nat i - off).
Proof.
  intros Hin Hi. unfold store.
  rewrite list_lookup_inserts by (rewrite ?length_drop; lia).
  rewrite lookup_drop. f_equal. lia.
Qed.

Lemma cache_of_set_same kv a t : cache_of (set_cache kv a t) a = t.
Proof. by destruct a. Qed.

Lemma cache_of_set_other kv a b t :
  a ≠ b → cache_of (set_cache kv a t) b = cache_of kv b.
Proof. by destruct a, b. Qed.

Lemma cache_tensor_eqb_eq a b : cache_tensor_eqb a b = true ↔ a = b.
Proof. destruct a, b; simpl; split; congruence. Qed.

Lemma covers_spec a addr w :
  covers a addr w = true ↔
  a = w.1.1 ∧ w.1.2 ≤ addr < w.1.2 + Z.of_nat (length w.2).
Proof.
  unfold covers. rewrite !andb_true_iff, cache_tensor_eqb_eq.
  rewrite Z.leb_le, Z.ltb_lt. tauto.
Qed.

(** One write: sizes stay, bytes outside the run stay, bytes inside the
    run and inside the buffer are the written ones. *)
Lemma do_write_inv kv w :
  (∀ a, elem_size (cache_of (do_write kv w) a) = elem_size (cache_of kv a) ∧
        length (data (cache_of (do_write kv w) a)) = length (data (cache_of kv a))) ∧
  ctx (do_write kv w) = ctx kv ∧ n (do_write kv w) = n kv ∧
  (∀ a addr, covers a addr w = false →
     byte_at (cache_of (do_write kv w) a) addr = byte_at (cache_of kv a) addr) ∧
  (∀ addr, covers w.1.1 addr w = true →
     0 ≤ addr < Z.of_nat (length (data (cache_of kv w.1.1))) →
     byte_at (cache_of (do_write kv w) w.1.1) addr = w.2 !! Z.to_nat (addr - w.1.2)).
Proof.
  destruct w as [[t off] bytes]. unfold do_write. simpl.
  split_and!.
  - intros a. destruct (decide (t = a)) as [<-|Hne].
    + rewrite cache_of_set_same. simpl. by rewrite store_length.
    + by rewrite cache_of_set_other.
  - by destruct t.
  - by destruct t.
  - intros a addr Hc. destruct (decide (t = a)) as [<-|Hne].
    + rewrite cache_of_set_same. unfold byte_at. simpl.
      destruct (Z.leb_spec 0 addr); [|done].
      apply store_outside. rewrite Z2Nat.id by done.
      intros ?. assert (covers t addr (t, off, bytes) = true); [|congruence].
      apply covers_spec. done.
    + by rewrite cache_of_set_other.
  - intros addr Hc Haddr. apply covers_spec in Hc as (_ & Hr). simpl in Hr.
    rewrite cache_of_set_same. unfold byte_at. simpl.
    destruct (Z.leb_spec 0 addr); [|lia].
    rewrite store_inside by lia. f_equal. lia.
Qed.

Lemma do_writes_sizes ws : ∀ kv,
  (∀ a, elem_size (cache_of (do_writes ws kv) a) = elem_size (cache_of kv a) ∧
        length (data (cache_of (do_writes ws kv) a)) = length (data (cache_of kv a))) ∧
  ctx (do_writes ws kv) = ctx kv ∧ n (do_writes ws kv) = n kv.
Proof.
  induction ws as [|w ws IH]; intros kv; [done|]. simpl.
  destruct (do_write_inv kv w) as (Hs1 & Hc1 & Hn1 & _).
  destruct (IH (do_write kv w)) as (Hs2 & Hc2 & Hn2).
  split_and!; [|congruence|congruence].
  intros a. destruct (Hs1 a), (Hs2 a). split; congruence.
Qed.

(** A byte that no write covers keeps its value. *)
Lemma do_writes_untouched ws : ∀ kv a addr,
  (∀ w, w ∈ ws → covers a addr w = false) →
  byte_at (cache_of (do_writes ws kv) a) addr = byte_at (cache_of kv a) addr.
Proof.
  induction ws as [|w0 ws IH]; intros kv a addr Hnone; [done|]. simpl.
  destruct (do_write_inv kv w0) as (_ & _ & _ & Hout & _).
  rewrite IH; [|intros w Hin; apply Hnone; by right].
  apply Hout, Hnone. by left.
Qed.

(** A byte of the buffer that is covered, and on which all covering writes
    agree, ends up with that value. *)
Lemma do_writes_written ws : ∀ kv a addr x,
  0 ≤ addr < Z.of_nat (length (data (cache_of kv a))) →
  (∃ w, w ∈ ws ∧ covers a addr w = true) →
  (∀ w, w ∈ ws → covers a addr w = true → w.2 !! Z.to_nat (addr - w.1.2) = x) →
  byte_at (cache_of (do_writes ws kv) a) addr = x.
Proof.
  induction ws as [|w0 ws IH]; intros kv a addr x Haddr Hex Hagree.
  - destruct Hex as (w & Hin & _). by apply elem_of_nil in Hin.
  - simpl.
    destruct (do_write_inv kv w0) as (Hsz & _ & _ & _ & Hval).
    destruct (existsb (covers a addr) ws) eqn:Hlater.
    + apply existsb_exists in Hlater as (w & Hin & Hc).
      apply list_elem_of_In in Hin.
      eapply IH; [|by eauto|].
      * destruct (Hsz a) as [_ ->]. done.
      * intros w' Hin' Hc'. apply Hagree; [by right|done].
    + assert (Hnone : ∀ w, w ∈ ws → covers a addr w = false).
      { intros w Hin. destruct (covers a addr w) eqn:Hc; [|done].
        assert (existsb (covers a addr) ws = true); [|congruence].
        apply existsb_exists. exists w. by rewrite <-list_elem_of_In. }
      rewrite (do_writes_untouched _ _ _ _ Hnone).
      destruct Hex as (w & Hin & Hc).
      apply elem_of_cons in Hin as [->|Hin]; [|by rewrite Hnone in Hc].
      pose proof Hc as Hc'. apply covers_spec in Hc' as (-> & _).
      rewrite Hval by done. apply Hagree; [by left|done].
Qed.

Lemma do_writes_app ws1 ws2 kv :
  do_writes (ws1 ++ ws2) kv = do_writes ws2 (do_writes ws1 kv).
Proof. revert kv. induction ws1 as [|w ws1 IH]; intros kv; [done|]. apply IH. Qed.

End CacheStores.

Section GraphStores.
Import GptNeoX.

Lemma set_cache_twice kv a t1 t2 :
  set_cache (set_cache kv a t1) a t2 = set_cache kv a t2.
Proof. by destruct a. Qed.

(** The rows of a copy are the writes [node_writes] lists. *)
Lemma store_rows_writes a rb nb1 rows : ∀ kv off mem',
  store_rows (data (cache_of kv a)) off nb1 rb rows = Some mem' →
  do_writes (imap (λ r row, (a, off + Z.of_nat r * nb1, row)) rows) kv =
    match rows with
    | [] => kv
    | _ => set_cache kv a (set_data (cache_of kv a) mem')
    end ∧
  Forall (λ row, Z.of_nat (length row) = rb) rows.
Proof.
  induction rows as [|row rows IH]; intros kv off mem' Hs.
  - done.
  - simpl in Hs. destruct (Z.eqb_spec (Z.of_nat (length row)) rb) as [Hrb|]; [|done].
    set (d := store (data (cache_of kv a)) off row) in *.
    set (kv1 := set_cache kv a (set_data (cache_of kv a) d)).
    assert (Hd1 : data (cache_of kv1 a) = d).
    { unfold kv1. by rewrite cache_of_set_same. }
    rewrite <-Hd1 in Hs. pose proof Hs as Hs0. apply IH in Hs as [Hw Hall].
    split; [|by constructor].
    simpl. unfold do_write. simpl.
    replace (off + Z.of_nat 0 * nb1) with off by lia.
    fold d. fold kv1.
    erewrite imap_ext; [rewrite Hw|].
    + destruct rows.
      * simpl in Hs0. rewrite Hd1 in Hs0. by injection Hs0 as <-.
      * unfold kv1. rewrite set_cache_twice, cache_of_set_same. done.
    + intros r x _. simpl. do 2 f_equal. lia.
Qed.

Lemma compute_cpy_writes kv node kv' :
  compute_cpy kv node = Some kv' →
  do_writes (node_writes node) kv = kv' ∧ node_ok kv node.
Proof.
  unfold compute_cpy, node_ok.
  destruct (Z.eqb_spec (Z.of_nat (length (src node))) (ne1 (dst node))); [|done].
  destruct (store_rows _ _ _ _ _) as [d|] eqn:Hs; simpl; [|done].
  intros [= <-]. pose proof Hs as Hs'.
  apply store_rows_writes in Hs as [Hw Hall].
  split; [|done]. unfold node_writes. rewrite Hw.
  destruct (src node) eqn:Hsrc; [|done].
  simpl in Hs'. injection Hs' as <-.
  destruct kv as [c [ek dk] [ev dv] nn]. by destruct (base (dst node)).
Qed.

Lemma ne_graph_compute_writes gf : ∀ kv kv',
  ne_graph_compute gf kv = Some kv' →
  do_writes (graph_writes gf) kv = kv' ∧ Forall (node_ok kv) gf.
Proof.
  induction gf as [|node gf IH]; intros kv kv' Hg.
  - by injection Hg as <-.
  - simpl in Hg. destruct (compute_cpy kv node) as [kv1|] eqn:Hc; simpl in Hg; [|done].
    apply compute_cpy_writes in Hc as [Hw Hok].
    apply IH in Hg as [Hws Hoks].
    unfold graph_writes. rewrite bind_cons, do_writes_app, Hw.
    split; [done|]. constructor; [done|].
    destruct (do_writes_sizes (node_writes node) kv) as (Hsz & _). rewrite Hw in Hsz.
    eapply Forall_impl; [exact Hoks|]. intros nd [H1 H2]. split; [done|].
    eapply Forall_impl; [exact H2|]. intros row Hrow. simpl in Hrow.
    destruct (Hsz (base (dst nd))) as [<- _]. done.
Qed.

End GraphStores.

(** ** The evaluator: what a call that returns has done *)

Section EvalFacts.
Import GptNeoX.

Lemma eval_internal_inv res lctx tokens n_tokens n_past n_threads lctx' ok :
  gptneox_model_eval_internal res lctx tokens n_tokens n_past n_threads = Some (lctx', ok) →
  ∃ kv1 lg mpt,
    ctx (kv_self lctx) = true ∧
    0 ≤ n_tokens ≤ Z.of_nat (length tokens) ∧
    ne_graph_compute (build_graph (hparams lctx) (kv_self lctx) res n_tokens n_past)
      (kv_self lctx) = Some kv1 ∧
    (if logits_all lctx
     then copy_floats (lm_head res) 0 (n_vocab (hparams lctx) * n_tokens)
     else copy_floats (lm_head res) (n_vocab (hparams lctx) * (n_tokens - 1))
            (n_vocab (hparams lctx))) = Some lg ∧
    embedding lctx = [] ∧
    (mem_per_token lctx = 0 → n_tokens ≠ 0) ∧
    lctx' = with_results lctx
              {| ctx := ctx kv1; k := k kv1; v := v kv1; n := n_past + n_tokens |}
              lg [] mpt n_tokens (time_interval res) ∧
    ok = true.
Proof.
  unfold gptneox_model_eval_internal.
  destruct (ctx (kv_self lctx)) eqn:Hctx; simpl; [|done].
  destruct (Z.leb_spec 0 n_tokens); simpl; [|done].
  destruct (Z.leb_spec n_tokens (Z.of_nat (length tokens))); simpl; [|done].
  destruct (ne_graph_compute _ _) as [kv1|] eqn:Hg; simpl; [|done].
  set (lgq := if logits_all lctx then _ else _).
  destruct lgq as [lg|] eqn:Hlg; simpl; [|done].
  destruct (embedding lctx) as [|x xs] eqn:Hemb; simpl; [|done].
  destruct (Z.eqb_spec (mem_per_token lctx) 0) as [Hm|Hm].
  - destruct (Z.eqb_spec n_tokens 0); simpl; [done|].
    intros [= <- <-]. exists kv1, lg, (used_mem res ÷ n_tokens). by split_and!.
  - simpl. intros [= <- <-]. exists kv1, lg, (mem_per_token lctx). by split_and!.
Qed.

Lemma copy_floats_inv from off cnt out :
  copy_floats from off cnt = Some out →
  0 ≤ cnt ∧ 0 ≤ off ∧ off + cnt ≤ Z.of_nat (length from) ∧
  out = take (Z.to_nat cnt) (drop (Z.to_nat off) from) ∧
  Z.of_nat (length out) = cnt.
Proof.
  unfold copy_floats.
  destruct (Z.leb_spec 0 cnt); simpl; [|done].
  destruct (Z.leb_spec 0 off); simpl; [|done].
  destruct (Z.leb_spec (off + cnt) (Z.of_nat (length from))); [|done].
  intros [= <-]. split_and!; try done.
  rewrite length_take, length_drop. lia.
Qed.

(** Every call with a non-empty [embedding] reads through the null
    [embeddings] tensor. *)
Lemma eval_internal_embedding_null res lctx tokens n_tokens n_past n_threads :
  embedding lctx ≠ [] →
  gptneox_model_eval_internal res lctx tokens n_tokens n_past n_threads = None.
Proof.
  intros Hemb.
  destruct (gptneox_model_eval_internal _ _ _ _ _ _) as [[lctx' ok]|] eqn:He; [|done].
  apply eval_internal_inv in He as (? & ? & ? & _ & _ & _ & _ & ? & _). done.
Qed.

End EvalFacts.

(** C10.  Whenever the internal evaluation returns, it returns [true]:
    [model_eval] then returns 0 without printing, and the token count of
    the cache is [n_past + n_tokens]. *)
Theorem model_eval_returns_zero (res : GptNeoX.computed) (now : Z)
    (lctx : GptNeoX.model_context) (tokens : list Z) (n_tokens n_past n_threads : Z)
    (lctx' : GptNeoX.model_context) (ok : bool) :
  GptNeoX.gptneox_model_eval_internal res lctx tokens n_tokens n_past n_threads
    = Some (lctx', ok) →
  ok = true ∧
  GptNeoX.n (GptNeoX.kv_self lctx') = n_past + n_tokens ∧
  ∃ lctx'',
    GptNeoX.model_eval res now lctx tokens n_tokens n_past n_threads
      = Some (lctx'', 0, []) ∧
    GptNeoX.n (GptNeoX.kv_self lctx'') = n_past + n_tokens.
Proof.
  intros He. pose proof He as Hinv.
  apply eval_internal_inv in Hinv as (kv1 & lg & mpt & _ & _ & _ & _ & _ & _ & -> & ->).
  split; [done|]. split; [done|].
  unfold GptNeoX.model_eval. rewrite He. simpl.
  destruct (GptNeoX.has_evaluated_once lctx); eexists; split; done.
Qed.

Lemma model_eval_returns_zero_witness :
  ∃ lctx'',
    GptNeoX.model_eval EvalExamples.res2 1000 EvalExamples.lctx0 EvalExamples.tokens2 2 1 4
      = Some (lctx'', 0, []) ∧
    GptNeoX.n (GptNeoX.kv_self lctx'') = 1 + 2.
Proof.
  refine (proj2 (proj2 (model_eval_returns_zero EvalExamples.res2 1000 EvalExamples.lctx0
            EvalExamples.tokens2 2 1 4 _ true _))).
  vm_compute. reflexivity.
Defined.

(** C8.  After a call that returns, [logits] holds [n_vocab * N] floats,
    the whole output, when [logits_all] is set, and otherwise [n_vocab]
    floats, read at offset [n_vocab * (N - 1)] of the output. *)
Theorem logits_extracted (res : GptNeoX.computed) (lctx : GptNeoX.model_context)
    (tokens : list Z) (N n_past n_threads : Z) (lctx' : GptNeoX.model_context) (ok : bool) :
  GptNeoX.gptneox_model_eval_internal res lctx tokens N n_past n_threads = Some (lctx', ok) →
  let n_vocab := GptNeoX.n_vocab (GptNeoX.hparams lctx) in
  if GptNeoX.logits_all lctx then
    Z.of_nat (length (GptNeoX.logits lctx')) = n_vocab * N ∧
    GptNeoX.logits lctx' = take (Z.to_nat (n_vocab * N)) (GptNeoX.lm_head res)
  else
    Z.of_nat (length (GptNeoX.logits lctx')) = n_vocab ∧
    0 ≤ n_vocab * (N - 1) ∧
    GptNeoX.logits lctx' =
      take (Z.to_nat n_vocab) (drop (Z.to_nat (n_vocab * (N - 1))) (GptNeoX.lm_head res)).
Proof.
  intros He n_vocab.
  apply eval_internal_inv in He as (kv1 & lg & mpt & _ & _ & _ & Hlg & _ & _ & -> & _).
  simpl. destruct (GptNeoX.logits_all lctx).
  - apply copy_floats_inv in Hlg as (_ & _ & _ & -> & Hlen). split; [done|].
    by rewrite drop_0.
  - apply copy_floats_inv in Hlg as (_ & ? & _ & -> & Hlen). done.
Qed.

Lemma logits_extracted_witness :
  (∃ lctx', GptNeoX.gptneox_model_eval_internal EvalExamples.res2 EvalExamples.lctx0
              EvalExamples.tokens2 2 1 4 = Some (lctx', true) ∧
            GptNeoX.logits lctx' = [20; 21; 22]) ∧
  (∃ lctx', GptNeoX.gptneox_model_eval_internal EvalExamples.res2 EvalExamples.lctx_all
              EvalExamples.tokens2 2 1 4 = Some (lctx', true) ∧
            GptNeoX.logits lctx' = [10; 11; 12; 20; 21; 22]).
Proof.
  split.
  - eexists. split; [vm_compute; reflexivity|].
    refine (proj2 (proj2 (logits_extracted EvalExamples.res2 EvalExamples.lctx0
              EvalExamples.tokens2 2 1 4 _ true _))).
    vm_compute. reflexivity.
  - eexists. split; [vm_compute; reflexivity|].
    refine (proj2 (logits_extracted EvalExamples.res2 EvalExamples.lctx_all
              EvalExamples.tokens2 2 1 4 _ true _)).
    vm_compute. reflexivity.
Defined.

(** C9.  A call that asks for the embedding (here with [embedding] sized
    to [n_embd] by the caller) does not return: [embeddings] is still null
    when [ne_get_data] reads through it, so nothing is copied into
    [embedding]. *)
Theorem embedding_request_faults :
  GptNeoX.embedding EvalExamples.lctx_emb ≠ [] ∧
  GptNeoX.gptneox_model_eval_internal EvalExamples.res2 EvalExamples.lctx_emb
    EvalExamples.tokens2 2 1 4 = None ∧
  (∃ lctx', GptNeoX.gptneox_model_eval_internal EvalExamples.res2 EvalExamples.lctx0
              EvalExamples.tokens2 2 1 4 = Some (lctx', true)).
Proof.
  split; [done|]. split; [reflexivity|].
  eexists. vm_compute. reflexivity.
Qed.

(** ** The cache append invariant *)

Section BandArithmetic.

(** Rows of width [W]: positions before [p] of any row stay clear of the
    positions [p .. p + N - 1] of every row. *)
Lemma band_apart W R R' t p N :
  0 ≤ t < p → p + N ≤ W →
  ¬ (R * W + p ≤ R' * W + t < R * W + p + N).
Proof.
  intros Ht HW [H1 H2].
  destruct (Z.lt_trichotomy R R') as [Hlt|[->|Hgt]]; nia.
Qed.

Lemma band_same W R R' j p N :
  0 ≤ j < N → 0 ≤ p → p + N ≤ W →
  R' * W + p ≤ R * W + p + j < R' * W + p + N → R = R'.
Proof.
  intros Hj Hp HW [H1 H2].
  destruct (Z.lt_trichotomy R R') as [Hlt|[->|Hgt]]; [nia|done|nia].
Qed.

Lemma scaled_band s X Y N r :
  0 < s → 0 ≤ r < s →
  s * Y ≤ s * X + r < s * Y + N * s → Y ≤ X < Y + N.
Proof. intros Hs Hr [H1 H2]. split; nia. Qed.

Lemma row_index_unique D il il' e e' :
  0 ≤ e < D → 0 ≤ e' < D → il * D + e = il' * D + e' → il = il' ∧ e = e'.
Proof.
  intros He He' Heq.
  destruct (Z.lt_trichotomy il il') as [Hlt|[->|Hgt]]; [nia|lia|nia].
Qed.

End BandArithmetic.

Section BuildGraph.
Import GptNeoX.
Variables (hp : model_hparams) (kv : kv_cache) (res : computed) (N n_past : Z).

Lemma layers_range il : il ∈ layers hp ↔ 0 ≤ il < n_layer hp.
Proof.
  unfold layers. rewrite list_elem_of_fmap. split.
  - intros (q & -> & Hq). apply elem_of_seq in Hq. lia.
  - intros Hil. exists (Z.to_nat il). split; [lia|]. apply elem_of_seq. lia.
Qed.

(** The writes of the graph: per layer, one run for the keys and one run
    per embedding component for the values. *)
Lemma build_graph_writes w :
  w ∈ graph_writes (build_graph hp kv res N n_past) ↔
  ∃ il, 0 ≤ il < n_layer hp ∧
    (w = (KCache, k_off hp kv n_past il, Kcur res il) ∨
     ∃ e row, Vcur res il !! e = Some row ∧ w = (VCache, v_off hp kv n_past il e, row)).
Proof.
  unfold graph_writes, build_graph. rewrite list_elem_of_bind. split.
  - intros (node & Hw & Hnode).
    apply list_elem_of_bind in Hnode as (il & Hnode & Hil).
    apply layers_range in Hil. exists il. split; [done|].
    unfold store_kv in Hnode.
    apply elem_of_cons in Hnode as [->|Hnode].
    + left. unfold node_writes in Hw. simpl in Hw.
      apply list_elem_of_singleton in Hw as ->. unfold k_off. f_equal. f_equal. lia.
    + apply list_elem_of_singleton in Hnode as ->. right.
      unfold node_writes in Hw. simpl in Hw.
      apply list_elem_of_lookup in Hw as [e Hw].
      rewrite list_lookup_imap in Hw.
      destruct (Vcur res il !! e) as [row|] eqn:Hrow; simpl in Hw; [|done].
      injection Hw as <-. exists e, row. split; [done|]. unfold v_off. done.
  - intros (il & Hil & Hw). apply layers_range in Hil.
    destruct Hw as [-> | (e & row & Hrow & ->)].
    + exists {| src := [Kcur res il];
                dst := ne_view_1d KCache (elem_size (k kv)) (N * n_embd hp)
                         (k_off hp kv n_past il) |}.
      split.
      * unfold node_writes. simpl. apply list_elem_of_singleton.
        f_equal. f_equal. lia.
      * apply list_elem_of_bind. exists il. split; [|done]. by left.
    + exists {| src := Vcur res il;
                dst := ne_view_2d VCache N (n_embd hp) (n_ctx hp * elem_size (v kv))
                         ((il * n_ctx hp) * elem_size (v kv) * n_embd hp
                          + n_past * elem_size (v kv)) |}.
      split.
      * unfold node_writes. simpl. apply list_elem_of_lookup. exists e.
        rewrite list_lookup_imap, Hrow. done.
      * apply list_elem_of_bind. exists il. split; [|done]. right.
        by apply list_elem_of_singleton.
Qed.

(** What [ne_cpy] checked for every layer. *)
Lemma build_graph_ok il :
  Forall (node_ok kv) (build_graph hp kv res N n_past) →
  0 ≤ il < n_layer hp →
  Z.of_nat (length (Kcur res il)) = N * n_embd hp * elem_size (k kv) ∧
  Z.of_nat (length (Vcur res il)) = n_embd hp ∧
  ∀ e row, Vcur res il !! e = Some row →
           Z.of_nat (length row) = N * elem_size (v kv).
Proof.
  intros Hall Hil. rewrite Forall_forall in Hall.
  apply layers_range in Hil.
  assert (Hk : node_ok kv {| src := [Kcur res il];
                dst := ne_view_1d KCache (elem_size (k kv)) (N * n_embd hp)
                         (k_off hp kv n_past il) |}).
  { apply Hall. unfold build_graph. apply list_elem_of_bind. exists il.
    split; [|done]. by left. }
  assert (Hv : node_ok kv {| src := Vcur res il;
                dst := ne_view_2d VCache N (n_embd hp) (n_ctx hp * elem_size (v kv))
                         ((il * n_ctx hp) * elem_size (v kv) * n_embd hp
                          + n_past * elem_size (v kv)) |}).
  { apply Hall. unfold build_graph. apply list_elem_of_bind. exists il.
    split; [|done]. right. by left. }
  destruct Hk as [_ Hk]. destruct Hv as [Hv1 Hv2]. simpl in *.
  apply Forall_cons in Hk as [Hk _].
  split_and!; [done|done|].
  intros e row Hrow. rewrite Forall_forall in Hv2.
  apply Hv2. by eapply list_elem_of_lookup_2.
Qed.

End BuildGraph.

Section CacheAppend.
Import GptNeoX.
Variables (hp : model_hparams) (kv kv1 : kv_cache) (res : computed) (N n_past : Z).
Hypothesis Hsized : kv_sized hp kv.
Hypothesis HN : 0 ≤ N.
Hypothesis Hpast : 0 ≤ n_past.
Hypothesis Hwindow : n_past + N ≤ n_ctx hp.
Hypothesis Hwrites :
  do_writes (graph_writes (build_graph hp kv res N n_past)) kv = kv1.
Hypothesis Hok : Forall (node_ok kv) (build_graph hp kv res N n_past).

Lemma k_write_in il :
  0 ≤ il < n_layer hp → (KCache, k_off hp kv n_past il, Kcur res il)
                 ∈ graph_writes (build_graph hp kv res N n_past).
Proof. intros Hil. apply build_graph_writes. exists il. auto. Qed.

Lemma k_addr_split es il t e b :
  k_addr hp es il t e b = es * n_embd hp * (il * n_ctx hp + t) + (e * es + b).
Proof. unfold k_addr. lia. Qed.

Lemma v_addr_split es il t e b :
  v_addr hp es il t e b = es * ((il * n_embd hp + e) * n_ctx hp + t) + b.
Proof. unfold v_addr. lia. Qed.

Lemma v_off_split il e :
  v_off hp kv n_past il e =
  elem_size (v kv) * ((il * n_embd hp + Z.of_nat e) * n_ctx hp + n_past).
Proof. unfold v_off. lia. Qed.

Lemma component_offset es e b :
  0 < es → 0 ≤ e < n_embd hp → 0 ≤ b < es → 0 ≤ e * es + b < es * n_embd hp.
Proof. intros. nia. Qed.

(** History: the keys cached before the call are not overwritten. *)
Lemma k_history il t e b :
  0 ≤ il < n_layer hp → 0 ≤ t < n_past → 0 ≤ e < n_embd hp → 0 ≤ b < elem_size (k kv) →
  byte_at (k kv1) (k_addr hp (elem_size (k kv)) il t e b) =
  byte_at (k kv) (k_addr hp (elem_size (k kv)) il t e b).
Proof.
  intros Hil Ht He Hb. destruct Hsized as (Hsk & Hsv & _).
  rewrite <-Hwrites. apply (do_writes_untouched _ _ KCache).
  intros w Hw. destruct (covers KCache _ w) eqn:Hc; [exfalso|done].
  apply covers_spec in Hc as [Ht' Hr].
  apply build_graph_writes in Hw as (il2 & Hil2 & [-> | (e2 & row & _ & ->)]); [|done].
  simpl in Hr.
  destruct (build_graph_ok hp kv res N n_past il2 Hok Hil2) as (Hlen & _).
  rewrite Hlen, k_addr_split in Hr. unfold k_off in Hr.
  destruct (Z.eq_dec N 0) as [->|HN0]; [lia|].
  pose proof Hwindow as HW.
  pose proof (component_offset (elem_size (k kv)) e b Hsk He Hb) as Hcomp.
  assert (Hband : il2 * n_ctx hp + n_past ≤ il * n_ctx hp + t
                  < il2 * n_ctx hp + n_past + N).
  { apply (scaled_band (elem_size (k kv) * n_embd hp) _ _ _ (e * elem_size (k kv) + b));
      [nia|done|]. lia. }
  exact (band_apart _ _ _ _ _ _ Ht HW Hband).
Qed.

(** History: the values cached before the call are not overwritten. *)
Lemma v_history il t e b :
  0 ≤ il < n_layer hp → 0 ≤ t < n_past → 0 ≤ e < n_embd hp → 0 ≤ b < elem_size (v kv) →
  byte_at (v kv1) (v_addr hp (elem_size (v kv)) il t e b) =
  byte_at (v kv) (v_addr hp (elem_size (v kv)) il t e b).
Proof.
  intros Hil Ht He Hb. destruct Hsized as (Hsk & Hsv & _).
  rewrite <-Hwrites. apply (do_writes_untouched _ _ VCache).
  intros w Hw. destruct (covers VCache _ w) eqn:Hc; [exfalso|done].
  apply covers_spec in Hc as [Ht' Hr].
  apply build_graph_writes in Hw as (il2 & Hil2 & [-> | (e2 & row & Hrow & ->)]); [done|].
  simpl in Hr.
  destruct (build_graph_ok hp kv res N n_past il2 Hok Hil2) as (_ & _ & Hlen).
  rewrite (Hlen _ _ Hrow), v_addr_split, v_off_split in Hr.
  destruct (Z.eq_dec N 0) as [->|HN0]; [lia|].
  pose proof Hwindow as HW.
  assert (Hband : (il2 * n_embd hp + Z.of_nat e2) * n_ctx hp + n_past
                  ≤ (il * n_embd hp + e) * n_ctx hp + t
                  < (il2 * n_embd hp + Z.of_nat e2) * n_ctx hp + n_past + N).
  { apply (scaled_band (elem_size (v kv)) _ _ _ b); [done|done|]. lia. }
  exact (band_apart _ _ _ _ _ _ Ht HW Hband).
Qed.

(** The new keys land at positions [n_past ..] of their layer. *)
Lemma k_appended il j e b :
  0 ≤ il < n_layer hp → 0 ≤ j < N → 0 ≤ e < n_embd hp → 0 ≤ b < elem_size (k kv) →
  byte_at (k kv1) (k_addr hp (elem_size (k kv)) il (n_past + j) e b) =
    Kcur res il !! Z.to_nat ((j * n_embd hp + e) * elem_size (k kv) + b) ∧
  is_Some (Kcur res il !! Z.to_nat ((j * n_embd hp + e) * elem_size (k kv) + b)).
Proof.
  intros Hil Hj He Hb. destruct Hsized as (Hsk & Hsv & Hlk & _).
  pose proof Hpast as Hp. pose proof Hwindow as HW.
  pose proof (component_offset (elem_size (k kv)) e b Hsk He Hb) as Hcomp.
  destruct (build_graph_ok hp kv res N n_past il Hok Hil) as (Hlen & _).
  assert (Hin : k_off hp kv n_past il ≤ k_addr hp (elem_size (k kv)) il (n_past + j) e b
                < k_off hp kv n_past il + N * n_embd hp * elem_size (k kv)).
  { rewrite k_addr_split. unfold k_off. nia. }
  assert (Hbuf : 0 ≤ k_addr hp (elem_size (k kv)) il (n_past + j) e b
                 < Z.of_nat (length (data (k kv)))).
  { rewrite Hlk, k_addr_split.
    assert (0 ≤ il * n_ctx hp + (n_past + j)) by nia.
    assert (il * n_ctx hp + (n_past + j) + 1 ≤ n_layer hp * n_ctx hp) by nia.
    assert (elem_size (k kv) * n_embd hp * (il * n_ctx hp + (n_past + j) + 1)
            ≤ elem_size (k kv) * n_embd hp * (n_layer hp * n_ctx hp))
      by (apply Z.mul_le_mono_nonneg_l; nia).
    split; nia. }
  split.
  - rewrite <-Hwrites. apply (do_writes_written _ _ KCache); [done| |].
    + exists (KCache, k_off hp kv n_past il, Kcur res il).
      split; [by apply k_write_in|]. apply covers_spec. simpl. split; [done|lia].
    + intros w Hw Hc. apply covers_spec in Hc as [Ht' Hr].
      apply build_graph_writes in Hw as (il2 & Hil2 & [-> | (e2 & row & _ & ->)]); [|done].
      simpl in *.
      destruct (build_graph_ok hp kv res N n_past il2 Hok Hil2) as (Hlen2 & _).
      rewrite Hlen2, k_addr_split in Hr. unfold k_off in Hr.
      assert (Hband : il2 * n_ctx hp + n_past ≤ il * n_ctx hp + n_past + j
                      < il2 * n_ctx hp + n_past + N).
      { replace (il * n_ctx hp + n_past + j) with (il * n_ctx hp + (n_past + j)) by lia.
        apply (scaled_band (elem_size (k kv) * n_embd hp) _ _ _
                 (e * elem_size (k kv) + b)); [nia|done|]. lia. }
      apply band_same in Hband as <-; [|lia|lia|lia].
      f_equal. rewrite k_addr_split. unfold k_off. lia.
  - apply lookup_lt_is_Some. nia.
Qed.

(** The new values land at positions [n_past ..] of their row. *)
Lemma v_appended il j e b :
  0 ≤ il < n_layer hp → 0 ≤ j < N → 0 ≤ e < n_embd hp → 0 ≤ b < elem_size (v kv) →
  ∃ row, Vcur res il !! Z.to_nat e = Some row ∧
    byte_at (v kv1) (v_addr hp (elem_size (v kv)) il (n_past + j) e b) =
      row !! Z.to_nat (j * elem_size (v kv) + b) ∧
    is_Some (row !! Z.to_nat (j * elem_size (v kv) + b)).
Proof.
  intros Hil Hj He Hb. destruct Hsized as (Hsk & Hsv & _ & Hlv).
  pose proof Hpast as Hp. pose proof Hwindow as HW.
  destruct (build_graph_ok hp kv res N n_past il Hok Hil) as (_ & Hrows & Hlen).
  assert (is_Some (Vcur res il !! Z.to_nat e)) as [row Hrow].
  { apply lookup_lt_is_Some. lia. }
  exists row. split; [done|].
  pose proof (Hlen _ _ Hrow) as Hrl.
  assert (Hin : v_off hp kv n_past il (Z.to_nat e)
                ≤ v_addr hp (elem_size (v kv)) il (n_past + j) e b
                < v_off hp kv n_past il (Z.to_nat e) + N * elem_size (v kv)).
  { rewrite v_addr_split, v_off_split, Z2Nat.id by lia. nia. }
  assert (Hbuf : 0 ≤ v_addr hp (elem_size (v kv)) il (n_past + j) e b
                 < Z.of_nat (length (data (v kv)))).
  { rewrite Hlv, v_addr_split.
    assert (0 ≤ il * n_embd hp + e) by nia.
    assert (il * n_embd hp + e + 1 ≤ n_layer hp * n_embd hp) by nia.
    assert (0 ≤ (il * n_embd hp + e) * n_ctx hp) by nia.
    assert ((il * n_embd hp + e + 1) * n_ctx hp ≤ n_layer hp * n_embd hp * n_ctx hp)
      by (apply Z.mul_le_mono_nonneg_r; lia).
    assert (elem_size (v kv) * ((il * n_embd hp + e) * n_ctx hp + (n_past + j) + 1)
            ≤ elem_size (v kv) * (n_layer hp * n_embd hp * n_ctx hp))
      by (apply Z.mul_le_mono_nonneg_l; lia).
    split; nia. }
  split.
  - rewrite <-Hwrites. apply (do_writes_written _ _ VCache); [done| |].
    + exists (VCache, v_off hp kv n_past il (Z.to_nat e), row).
      split; [|apply covers_spec; simpl; split; [done|lia]].
      apply build_graph_writes. exists il. split; [done|]. right. eauto.
    + intros w Hw Hc. apply covers_spec in Hc as [Ht' Hr].
      apply build_graph_writes in Hw as (il2 & Hil2 & [-> | (e2 & row2 & Hrow2 & ->)]);
        [done|].
      simpl in *.
      destruct (build_graph_ok hp kv res N n_past il2 Hok Hil2) as (_ & Hrows2 & Hlen2).
      rewrite (Hlen2 _ _ Hrow2), v_addr_split, v_off_split in Hr.
      assert (He2 : Z.of_nat e2 < n_embd hp).
      { apply lookup_lt_Some in Hrow2. lia. }
      assert (Hband : (il2 * n_embd hp + Z.of_nat e2) * n_ctx hp + n_past
                      ≤ (il * n_embd hp + e) * n_ctx hp + n_past + j
                      < (il2 * n_embd hp + Z.of_nat e2) * n_ctx hp + n_past + N).
      { replace ((il * n_embd hp + e) * n_ctx hp + n_past + j)
          with ((il * n_embd hp + e) * n_ctx hp + (n_past + j)) by lia.
        apply (scaled_band (elem_size (v kv)) _ _ _ b); [done|done|]. lia. }
      apply band_same in Hband; [|lia|lia|lia].
      apply row_index_unique in Hband as [<- He']; [|lia|lia].
      assert (e2 = Z.to_nat e) as -> by lia.
      assert (row2 = row) as -> by congruence.
      f_equal. rewrite v_addr_split, v_off_split, Z2Nat.id by lia. lia.
  - apply lookup_lt_is_Some. nia.
Qed.

End CacheAppend.

(** C2, as stated, fails: the evaluator stores the new keys and values
    without comparing [n_past + N] with [n_ctx].  On a cache of three
    positions per layer, a call on two tokens at [n_past = 2] returns,
    counts four tokens, and has stored the key of the second token of
    layer 0 over the key that layer 1 held at position 0. *)
Lemma cache_history_overwritten_example :
  GptNeoX.kv_sized EvalExamples.hp EvalExamples.kv0 ∧
  GptNeoX.n_ctx EvalExamples.hp = 3 ∧
  ∃ lctx',
    GptNeoX.gptneox_model_eval_internal EvalExamples.res2 EvalExamples.lctx0
      EvalExamples.tokens2 2 2 4 = Some (lctx', true) ∧
    GptNeoX.n (GptNeoX.kv_self lctx') = 2 + 2 ∧
    GptNeoX.byte_at (GptNeoX.k EvalExamples.kv0)
      (GptNeoX.k_addr EvalExamples.hp 1 1 0 0 0) = Some Byte.x11 ∧
    GptNeoX.byte_at (GptNeoX.k (GptNeoX.kv_self lctx'))
      (GptNeoX.k_addr EvalExamples.hp 1 1 0 0 0) = Some Byte.xa2.
Proof.
  split; [unfold GptNeoX.kv_sized; simpl; lia|]. split; [reflexivity|].
  eexists. split; [vm_compute; reflexivity|]. by split_and!.
Qed.

(** C2, amended.  After a call that returns, on a cache that holds [n_ctx]
    positions per layer, with [0 <= n_past] and [n_past + N <= n_ctx]
    (which the source does not check), the token count of the cache is
    [n_past + N]; in every layer the bytes of the keys and values at the
    positions before [n_past] are the bytes that were there before the
    call; and the bytes stored for the new tokens are at the positions
    [n_past .. n_past + N - 1] of their layer. *)
Theorem cache_append_invariant (res : GptNeoX.computed) (lctx : GptNeoX.model_context)
    (tokens : list Z) (N n_past n_threads : Z) (lctx' : GptNeoX.model_context) (ok : bool) :
  GptNeoX.kv_sized (GptNeoX.hparams lctx) (GptNeoX.kv_self lctx) →
  0 ≤ n_past →
  n_past + N ≤ GptNeoX.n_ctx (GptNeoX.hparams lctx) →
  GptNeoX.gptneox_model_eval_internal res lctx tokens N n_past n_threads = Some (lctx', ok) →
  let hp := GptNeoX.hparams lctx in
  let kv := GptNeoX.kv_self lctx in
  let kv' := GptNeoX.kv_self lctx' in
  let sk := GptNeoX.elem_size (GptNeoX.k kv) in
  let sv := GptNeoX.elem_size (GptNeoX.v kv) in
  GptNeoX.n kv' = n_past + N ∧
  (∀ il t e b,
     0 ≤ il < GptNeoX.n_layer hp → 0 ≤ t < n_past → 0 ≤ e < GptNeoX.n_embd hp →
     (0 ≤ b < sk →
      GptNeoX.byte_at (GptNeoX.k kv') (GptNeoX.k_addr hp sk il t e b) =
      GptNeoX.byte_at (GptNeoX.k kv) (GptNeoX.k_addr hp sk il t e b)) ∧
     (0 ≤ b < sv →
      GptNeoX.byte_at (GptNeoX.v kv') (GptNeoX.v_addr hp sv il t e b) =
      GptNeoX.byte_at (GptNeoX.v kv) (GptNeoX.v_addr hp sv il t e b))) ∧
  (∀ il j e b,
     0 ≤ il < GptNeoX.n_layer hp → 0 ≤ j < N → 0 ≤ e < GptNeoX.n_embd hp →
     (0 ≤ b < sk →
      ∃ x, GptNeoX.Kcur res il !! Z.to_nat ((j * GptNeoX.n_embd hp + e) * sk + b) = Some x ∧
           GptNeoX.byte_at (GptNeoX.k kv') (GptNeoX.k_addr hp sk il (n_past + j) e b)
             = Some x) ∧
     (0 ≤ b < sv →
      ∃ row x, GptNeoX.Vcur res il !! Z.to_nat e = Some row ∧
               row !! Z.to_nat (j * sv + b) = Some x ∧
               GptNeoX.byte_at (GptNeoX.v kv') (GptNeoX.v_addr hp sv il (n_past + j) e b)
                 = Some x)).
Proof.
  intros Hsized Hpast Hwindow He. cbv zeta.
  apply eval_internal_inv in He
    as (kv1 & lg & mpt & _ & [HN _] & Hg & _ & _ & _ & -> & _).
  apply ne_graph_compute_writes in Hg as [Hw Hok].
  simpl. split; [done|]. split.
  - intros il t e b Hil Ht Hemb. split; intros Hb.
    + by eapply k_history.
    + by eapply v_history.
  - intros il j e b Hil Hj Hemb. split; intros Hb.
    + destruct (k_appended _ _ kv1 res N n_past Hsized HN Hpast Hwindow Hw Hok il j e b)
        as [Heq [x Hx]]; try done.
      exists x. split; [done|]. by rewrite Heq.
    + destruct (v_appended _ _ kv1 res N n_past Hsized HN Hpast Hwindow Hw Hok il j e b)
        as (row & Hrow & Heq & [x Hx]); try done.
      exists row, x. split_and!; [done|done|]. by rewrite Heq.
Qed.

Lemma cache_append_invariant_witness :
  match GptNeoX.gptneox_model_eval_internal EvalExamples.res2 EvalExamples.lctx0
          EvalExamples.tokens2 2 1 4 with
  | Some (lctx', _) =>
      GptNeoX.n (GptNeoX.kv_self lctx') = 1 + 2 ∧
      GptNeoX.byte_at (GptNeoX.k (GptNeoX.kv_self lctx'))
        (GptNeoX.k_addr EvalExamples.hp 1 1 0 1 0) = Some Byte.x11
  | None => False
  end.
Proof.
  destruct (GptNeoX.gptneox_model_eval_internal EvalExamples.res2 EvalExamples.lctx0
              EvalExamples.tokens2 2 1 4) as [[lctx' ok]|] eqn:He;
    [|vm_compute in He; discriminate].
  destruct (cache_append_invariant EvalExamples.res2 EvalExamples.lctx0
              EvalExamples.tokens2 2 1 4 lctx' ok) as (Hn & Hhist & _).
  - unfold GptNeoX.kv_sized. simpl. lia.
  - lia.
  - simpl. lia.
  - exact He.
  - split; [exact Hn|].
    destruct (Hhist 1 0 1 0) as [Hk _]; [simpl; lia|lia|simpl; lia|].
    etrans; [apply Hk; simpl; lia | reflexivity].
Defined.

(** ** The scratch buffer of [launch] *)

Section FuelMonotone.
Context {E : Type}.

Lemma for_step_mono (body body' : Z → option (list E)) n step :
  (∀ x t, body x = Some t → body' x = Some t) →
  ∀ fuel fuel' it tr, (fuel ≤ fuel')%nat →
    for_step fuel it n step body = Some tr →
    for_step fuel' it n step body' = Some tr.
Proof.
  intros Hbody. induction fuel as [|fuel IH]; intros fuel' it tr Hle Hf.
  - simpl in Hf. destruct fuel'; simpl; destruct (it <? n); done.
  - destruct fuel' as [|fuel']; [lia|]. simpl in *.
    destruct (it <? n); [|done].
    destruct (body it) as [t|] eqn:Hb; simpl in Hf; [|done].
    rewrite (Hbody _ _ Hb). simpl.
    destruct (for_step fuel _ _ _ _) as [ts|] eqn:Hr; simpl in Hf; [|done].
    rewrite (IH fuel' _ ts ltac:(lia) Hr). done.
Qed.
End FuelMonotone.

Section ScratchFacts.
Import Launcher Scratch.
Variable core : GemmCore.
Hypothesis Hcore : GemmCore_wf core.

Lemma run_block_mono fuel fuel' cfg prm blk_m blk_n blk_msize blk_nsize tr :
  (fuel ≤ fuel')%nat →
  run_block core fuel cfg prm blk_m blk_n blk_msize blk_nsize = Some tr →
  run_block core fuel' cfg prm blk_m blk_n blk_msize blk_nsize = Some tr.
Proof.
  intros Hle. unfold run_block.
  destruct (for_step fuel _ _ _ _) as [ks|] eqn:Hk; simpl; [|done].
  intros [= <-].
  assert (Hb : ∀ iterk t,
    run_kchunk core fuel cfg prm blk_m blk_n blk_msize
      (utils.padto blk_nsize (NTILE core)) iterk = Some t →
    run_kchunk core fuel' cfg prm blk_m blk_n blk_msize
      (utils.padto blk_nsize (NTILE core)) iterk = Some t).
  { intros iterk t. unfold run_kchunk.
    destruct (for_step fuel 0 blk_msize _ _) as [rows|] eqn:Hr; simpl; [|done].
    intros [= <-].
    by rewrite (for_step_mono _ _ _ _ (λ x t0 Hx, Hx) fuel fuel' 0 rows Hle Hr). }
  by rewrite (for_step_mono _ _ _ _ Hb fuel fuel' 0 ks Hle Hk).
Qed.

Lemma launch_mono fuel fuel' cfg prm tr :
  (fuel ≤ fuel')%nat →
  launch core fuel cfg prm = Some tr → launch core fuel' cfg prm = Some tr.
Proof.
  intros Hle. unfold launch. apply for_step_mono; [|done].
  intros itern t. apply for_step_mono; [|done].
  intros iterm t'. by apply run_block_mono.
Qed.

(** Whatever the fuel, a launch that returns has walked the tiles. *)
Lemma launch_Some_tiled fuel cfg prm tr :
  0 < MStep cfg → 0 < NStep cfg → 0 < KStep cfg →
  launch core fuel cfg prm = Some tr → tr = tiled_launch core cfg prm.
Proof.
  intros HM HN HK Hl.
  apply (launch_mono _ (Nat.max fuel (launch_fuel core cfg prm))) in Hl; [|lia].
  rewrite launch_tiled in Hl; [congruence|done..|lia].
Qed.




End ScratchFacts.


(** Even when the stack covers the three tiles of the layout, a K step
    that is not a multiple of KTILE lets the weight prologue be asked for
    more than the B tile holds: with KTILE = 64 and a K step of one, the
    tile requested at [tmpB] has 64 x 48 elements, the layout leaves 48,
    and the whole stack has 256 bytes. *)
Lemma scratch_padded_tile_overflow_example :
  ∃ tr,
    Launcher.launch Examples.core_16x48x64 1 Examples.cfg_thin Examples.prm_thin = Some tr ∧
    Launcher.GetWeight 64 48 0 0 ∈ tr ∧
    Scratch.touches Examples.cfg_thin Scratch.TileB
      (Launcher.GetWeight 64 48 0 0) 3071 ∧
    Scratch.tiles_bytes Examples.core_16x48x64 Examples.cfg_thin
      ≤ Launcher.StackSize Examples.cfg_thin ∧
    (NTILE Examples.core_16x48x64 | Launcher.NStep Examples.cfg_thin) ∧
    ¬ Scratch.in_stack Examples.core_16x48x64 Examples.cfg_thin Scratch.TileB 3071.
Proof.
  eexists. split; [vm_compute; reflexivity|].
  split; [by left|]. split; [simpl; lia|]. split; [vm_compute; discriminate|].
  split; [by exists 1|].
  unfold Scratch.in_stack. vm_compute. intros [_ Hle]. by apply Hle.
Qed.

Section ScratchTiles.
Import Launcher Scratch.
Variable core : GemmCore.
Hypothesis Hcore : GemmCore_wf core.




End ScratchTiles.



(** ** Causal attention *)

Lemma KQ_scale_head_dim (hp : GptNeoX.model_hparams) (head_dim : Z) :
  0 < GptNeoX.n_head hp →
  GptNeoX.n_embd hp = head_dim * GptNeoX.n_head hp →
  Attention.KQ_scale hp = (1 / sqrt (IZR head_dim))%R.
Proof.
  intros Hh He. unfold Attention.KQ_scale. rewrite He, mult_IZR.
  do 2 f_equal. field. apply not_0_IZR. lia.
Qed.

(** C3.  The attention weights of a layer are the soft-max of the masked
    scores; the scores are the products of the keys of all [n_past + N]
    cached positions with the queries, multiplied by
    [1 / sqrt (n_embd / n_head)]; the mask replaces the score of every
    position [j] after the position [n_past + i] of the new token [i] by
    minus infinity and leaves the others; the weight of such a position
    after the soft-max is exactly zero, for every head. *)
Theorem causal_attention (hp : GptNeoX.model_hparams) (N n_past : Z)
    (q kc : Z → Z → Z → R) (i j h : Z) :
  n_past + i < j →
  let scores :=
    Attention.ne_mul_mat (Attention.K_tensor hp N n_past kc) (Attention.Q_tensor hp N q) in
  let masked := Attention.KQ_masked hp N n_past q kc in
  let weights := Attention.KQ_soft_max hp N n_past q kc in
  weights = Attention.ne_soft_max_inplace masked ∧
  masked = Attention.ne_diag_mask_inf_inplace
             (Attention.ne_scale_inplace scores (Attention.ne_new_f32 (Attention.KQ_scale hp)))
             n_past ∧
  Attention.dims (Attention.denote weights) = (n_past + N, N, GptNeoX.n_head hp) ∧
  Attention.at_ (Attention.denote masked) j i h = Attention.NegInf ∧
  Attention.at_ (Attention.denote weights) j i h = Attention.Fin 0 ∧
  (∀ j', j' ≤ n_past + i →
     Attention.at_ (Attention.denote masked) j' i h =
     Attention.Fin (Attention.finite (Attention.at_ (Attention.denote scores) j' i h)
                    * Attention.KQ_scale hp)) ∧
  (∀ head_dim, 0 < GptNeoX.n_head hp →
     GptNeoX.n_embd hp = head_dim * GptNeoX.n_head hp →
     Attention.KQ_scale hp = (1 / sqrt (IZR head_dim))%R).
Proof.
  intros Hfuture scores masked weights.
  split; [done|]. split; [done|]. split; [done|].
  assert (Hmask : Attention.at_ (Attention.denote masked) j i h = Attention.NegInf).
  { simpl. destruct (Z.ltb_spec (n_past + i) j); [done|lia]. }
  split; [done|]. split.
  - change (Attention.at_ (Attention.denote weights) j i h) with
      (Attention.Fin
         (Attention.exp_score (Attention.at_ (Attention.denote masked) j i h) /
          Attention.Rsum ((λ j', Attention.exp_score
                                   (Attention.at_ (Attention.denote masked) j' i h))
                          <$> Attention.range (Attention.dims (Attention.denote masked)).1.1))).
    rewrite Hmask. simpl. unfold Rdiv. by rewrite Rmult_0_l.
  - split.
    + intros j' Hj'. simpl. destruct (Z.ltb_spec (n_past + i) j'); [lia|done].
    + apply KQ_scale_head_dim.
Qed.

Lemma causal_attention_witness :
  Attention.at_
    (Attention.denote
       (Attention.KQ_soft_max EvalExamples.hp 2 1 (λ _ _ _, 1%R) (λ _ _ _, 1%R)))
    2 0 0 = Attention.Fin 0.
Proof.
  refine (proj1 (proj2 (proj2 (proj2 (proj2
    (causal_attention EvalExamples.hp 2 1 (λ _ _ _, 1%R) (λ _ _ _, 1%R) 0 2 0 _)))))).
  lia.
Defined.

(** * Further properties of the launcher *)

Lemma chunk_starts_NoDup n step : 0 < step → NoDup (chunk_starts n step).
Proof.
  intros Hstep. unfold chunk_starts. apply NoDup_fmap_2; [|apply NoDup_seq].
  intros a b Hab. nia.
Qed.

(** Every index of [0, n) lies in exactly one chunk. *)
Lemma chunk_locate n step r :
  0 < step → 0 ≤ r < n →
  let s := step * (r / step) in
  s ∈ chunk_starts n step ∧ s ≤ r < s + chunk_size s n step ∧
  ∀ s', s' ∈ chunk_starts n step → s' ≤ r < s' + chunk_size s' n step → s' = s.
Proof.
  intros Hstep Hr s.
  pose proof (Z.div_mod r step ltac:(lia)) as Hdm.
  pose proof (Z.mod_pos_bound r step Hstep) as Hmb.
  assert (Hq : 0 ≤ r / step) by (apply Z.div_pos; lia).
  split_and!.
  - unfold chunk_starts. apply list_elem_of_fmap. exists (Z.to_nat (r / step)).
    split; [subst s; rewrite Z2Nat.id by done; lia|].
    apply elem_of_seq. split; [lia|]. simpl.
    apply chunk_count_lt; [done|]. rewrite Z2Nat.id by done. nia.
  - subst s. nia.
  - subst s. unfold chunk_size. nia.
  - intros s' Hs' Hin. unfold chunk_starts in Hs'.
    apply list_elem_of_fmap in Hs' as (q & -> & _).
    unfold chunk_size in Hin. subst s.
    assert (Hqr : Z.of_nat q = r / step).
    { apply (Z.div_unique r step (Z.of_nat q) (r - Z.of_nat q * step)); lia. }
    rewrite <-Hqr. lia.
Qed.

Lemma filter_bind_unique {A B} (P : B → bool) (g : A → list B) (l : list A) (x0 : A) :
  NoDup l → x0 ∈ l →
  length (List.filter P (g x0)) = 1%nat →
  (∀ x, x ∈ l → x ≠ x0 → List.filter P (g x) = []) →
  length (List.filter P (l ≫= g)) = 1%nat.
Proof.
  induction l as [|x l IH]; intros Hnd Hin H1 H0; [by apply elem_of_nil in Hin|].
  apply NoDup_cons in Hnd as [Hx Hnd].
  rewrite bind_cons, List.filter_app, length_app.
  apply elem_of_cons in Hin as [->|Hl].
  - rewrite H1, filter_bind_nil; [done|].
    intros y Hy. apply H0; [by right|]. by intros ->.
  - assert (Hne : x ≠ x0) by (intros ->; done).
    rewrite (H0 x); [|by left|done]. simpl.
    apply IH; [done|done|done|]. intros y Hy. apply H0. by right.
Qed.

Lemma filter_weaker_nil {A} (P Q : A → bool) (l : list A) :
  (∀ x, P x = true → Q x = true) → List.filter Q l = [] → List.filter P l = [].
Proof.
  intros HPQ. induction l as [|x l IH]; [done|]. simpl.
  destruct (Q x) eqn:HQ; [done|]. intros Hl.
  destruct (P x) eqn:HP; [|by apply IH].
  apply HPQ in HP. congruence.
Qed.

Lemma filter_bind_count {A B} (P : B → bool) (g : A → list B) (l : list A) (c : nat) :
  (∀ x, x ∈ l → length (List.filter P (g x)) = c) →
  length (List.filter P (l ≫= g)) = (length l * c)%nat.
Proof.
  induction l as [|x l IH]; intros Hg; [done|].
  rewrite bind_cons, List.filter_app, length_app, Hg, IH; [simpl; lia| |left].
  intros y Hy. apply Hg. by right.
Qed.

Lemma filter_bind_all {A B} (P : B → bool) (g : A → list B) (l : list A) :
  (∀ x, x ∈ l → List.filter P (g x) = g x) → List.filter P (l ≫= g) = l ≫= g.
Proof.
  induction l as [|x l IH]; intros Hg; [done|].
  rewrite bind_cons, List.filter_app, Hg, IH; [done| |left].
  intros y Hy. apply Hg. by right.
Qed.

Section LauncherCoverage.
Import Launcher.
Variable core : GemmCore.
Hypothesis Hcore : GemmCore_wf core.

Lemma run_block_Some_tile fuel cfg prm blk_m blk_n blk_msize blk_nsize tr :
  0 < KStep cfg →
  run_block core fuel cfg prm blk_m blk_n blk_msize blk_nsize = Some tr →
  tr = tile_events core cfg prm blk_m blk_n blk_msize blk_nsize.
Proof.
  intros HK Hr.
  set (big := Nat.max fuel (Nat.max (chunk_count (K prm) (KStep cfg))
                                    (chunk_count blk_msize (MTILE core)))).
  apply (run_block_mono core fuel big) in Hr; [|lia].
  rewrite run_block_tile in Hr; [congruence|done|done|lia|lia].
Qed.

(** The walk of [launch], tile by tile. *)
Lemma tiled_launch_nested cfg prm :
  tiled_launch core cfg prm =
  tn ← chunk_starts (launch_cols cfg prm) (NStep cfg);
  tm ← chunk_starts (launch_rows cfg prm) (MStep cfg);
  tile_events core cfg prm tm tn
    (chunk_size tm (launch_rows cfg prm) (MStep cfg))
    (chunk_size tn (launch_cols cfg prm) (NStep cfg)).
Proof.
  unfold tiled_launch, tiles. rewrite list_bind_assoc.
  apply list_bind_ext; [|done]. intros tn.
  rewrite list_bind_assoc. apply list_bind_ext; [|done]. intros tm.
  simpl. by rewrite app_nil_r.
Qed.

Lemma tile_epilogue_filter cfg prm tm tn msize nsize row col :
  List.filter (Cover.epilogue_covers row col)
    (tile_events core cfg prm tm tn msize nsize) =
  if Cover.epilogue_covers row col
       (EpilogueForward (NStep cfg) (rowidx cfg + tm) (colidx cfg + tn) msize nsize)
  then [EpilogueForward (NStep cfg) (rowidx cfg + tm) (colidx cfg + tn) msize nsize]
  else [].
Proof.
  unfold tile_events. rewrite List.filter_app.
  rewrite (filter_weaker_nil _ is_epilogue); [done| |apply tile_kloop_no_epilogue].
  by intros [].
Qed.

(** Inside the clipped rectangle an element lies in the tile of exactly
    one epilogue call. *)
Lemma tiled_launch_covers_once cfg prm row col :
  0 < MStep cfg → 0 < NStep cfg →
  rowidx cfg ≤ row < rowidx cfg + launch_rows cfg prm →
  colidx cfg ≤ col < colidx cfg + launch_cols cfg prm →
  length (List.filter (Cover.epilogue_covers row col) (tiled_launch core cfg prm)) = 1%nat.
Proof.
  intros HM HN Hrow Hcol.
  rewrite tiled_launch_nested.
  set (rows := launch_rows cfg prm) in *.
  set (cols := launch_cols cfg prm) in *.
  destruct (chunk_locate cols (NStep cfg) (col - colidx cfg) HN
              ltac:(lia)) as (Hn_in & Hn_cov & Hn_uniq).
  destruct (chunk_locate rows (MStep cfg) (row - rowidx cfg) HM
              ltac:(lia)) as (Hm_in & Hm_cov & Hm_uniq).
  apply (filter_bind_unique _ _ _ _ (chunk_starts_NoDup _ _ HN) Hn_in).
  - apply (filter_bind_unique _ _ _ _ (chunk_starts_NoDup _ _ HM) Hm_in).
    + rewrite tile_epilogue_filter.
      assert (Cover.epilogue_covers row col (EpilogueForward (NStep cfg)
                (rowidx cfg + MStep cfg * ((row - rowidx cfg) / MStep cfg))
                (colidx cfg + NStep cfg * ((col - colidx cfg) / NStep cfg))
                (chunk_size _ rows (MStep cfg))
                (chunk_size _ cols (NStep cfg))) = true) as ->; [|done].
      simpl. rewrite !andb_true_iff, !Z.leb_le, !Z.ltb_lt. lia.
    + intros tm Htm Hne. rewrite tile_epilogue_filter.
      destruct (Cover.epilogue_covers _ _ _) eqn:Hc; [exfalso|done].
      simpl in Hc. rewrite !andb_true_iff, !Z.leb_le, !Z.ltb_lt in Hc.
      apply Hne, Hm_uniq; [done|lia].
  - intros tn Htn Hne. apply filter_bind_nil. intros tm Htm.
    rewrite tile_epilogue_filter.
    destruct (Cover.epilogue_covers _ _ _) eqn:Hc; [exfalso|done].
    simpl in Hc. rewrite !andb_true_iff, !Z.leb_le, !Z.ltb_lt in Hc.
    apply Hne, Hn_uniq; [done|lia].
Qed.

(** No epilogue call reaches outside the clipped rectangle. *)
Lemma tiled_launch_covers_none cfg prm row col :
  0 < MStep cfg → 0 < NStep cfg →
  ¬ (rowidx cfg ≤ row < rowidx cfg + launch_rows cfg prm ∧
     colidx cfg ≤ col < colidx cfg + launch_cols cfg prm) →
  List.filter (Cover.epilogue_covers row col) (tiled_launch core cfg prm) = [].
Proof.
  intros HM HN Hout. rewrite tiled_launch_nested.
  apply filter_bind_nil. intros tn Htn. apply filter_bind_nil. intros tm Htm.
  rewrite tile_epilogue_filter.
  destruct (Cover.epilogue_covers _ _ _) eqn:Hc; [exfalso|done].
  simpl in Hc. rewrite !andb_true_iff, !Z.leb_le, !Z.ltb_lt in Hc.
  apply chunk_starts_range in Htn; [|done].
  apply chunk_starts_range in Htm; [|done].
  apply Hout. unfold chunk_size in Hc. lia.
Qed.

End LauncherCoverage.

(** X1.  [launch] hands every output element of the thread's clipped
    rectangle to the epilogue exactly once. *)
Theorem epilogue_covers_rectangle_once (core : GemmCore) (cfg : Launcher.ParallelConfig)
    (prm : Launcher.Param) (fuel : nat) (tr : list Launcher.event) (row col : Z) :
  GemmCore_wf core →
  0 < Launcher.MStep cfg → 0 < Launcher.NStep cfg → 0 < Launcher.KStep cfg →
  Launcher.launch core fuel cfg prm = Some tr →
  Launcher.rowidx cfg ≤ row < Launcher.rowidx cfg + Launcher.launch_rows cfg prm →
  Launcher.colidx cfg ≤ col < Launcher.colidx cfg + Launcher.launch_cols cfg prm →
  length (List.filter (Cover.epilogue_covers row col) tr) = 1%nat.
Proof.
  intros Hcore HM HN HK Hl Hrow Hcol.
  apply launch_Some_tiled in Hl; [|done..]. subst tr.
  by apply tiled_launch_covers_once.
Qed.

Lemma epilogue_covers_rectangle_once_witness :
  length (List.filter (Cover.epilogue_covers 17 99)
            (Launcher.tiled_launch Examples.core_8x48 Examples.cfg_whole
               Examples.prm_20x100x10)) = 1%nat.
Proof.
  apply (epilogue_covers_rectangle_once Examples.core_8x48 Examples.cfg_whole
           Examples.prm_20x100x10 4).
  - unfold GemmCore_wf. simpl. lia.
  - simpl. lia.
  - simpl. lia.
  - simpl. lia.
  - vm_compute. reflexivity.
  - change (0 ≤ 17 < 0 + 20). lia.
  - change (0 ≤ 99 < 0 + 100). lia.
Defined.

Lemma remainsize_clip pos size N :
  pos + utils.remainsize pos size N ≤ size ∧ utils.remainsize pos size N ≤ N.
Proof. unfold utils.remainsize. destruct (Z.leb_spec (pos + N) size); lia. Qed.

Lemma padto_multiple x t : 0 < x → 0 < t → (t | utils.padto x t) ∧ x ≤ utils.padto x t.
Proof.
  intros Hx Ht. rewrite padto_div by lia.
  pose proof (Z.div_mod (x + t - 1) t ltac:(lia)) as Hdm.
  pose proof (Z.mod_pos_bound (x + t - 1) t Ht) as Hmb.
  split; [exists ((x + t - 1) / t); lia | lia].
Qed.

Lemma padto_upper x t : 0 < x → 0 < t → utils.padto x t < x + t.
Proof.
  intros Hx Ht. rewrite padto_div by lia.
  pose proof (Z.div_mod (x + t - 1) t ltac:(lia)) as Hdm.
  pose proof (Z.mod_pos_bound (x + t - 1) t Ht) as Hmb. lia.
Qed.

Section CallsInside.
Import Launcher.
Variable core : GemmCore.
Hypothesis Hcore : GemmCore_wf core.

Lemma tile_calls_ok cfg prm tm tn e :
  0 < MStep cfg → 0 < NStep cfg → 0 < KStep cfg →
  tm ∈ chunk_starts (launch_rows cfg prm) (MStep cfg) →
  tn ∈ chunk_starts (launch_cols cfg prm) (NStep cfg) →
  e ∈ tile_events core cfg prm tm tn
        (chunk_size tm (launch_rows cfg prm) (MStep cfg))
        (chunk_size tn (launch_cols cfg prm) (NStep cfg)) →
  Cover.call_ok core cfg prm e.
Proof.
  intros HM HN HK Htm Htn He. destruct Hcore as (HMT & HNT & HKT & _).
  apply chunk_starts_range in Htm; [|done].
  apply chunk_starts_range in Htn; [|done].
  pose proof (chunk_size_range tm _ _ HM Htm) as Hms.
  pose proof (chunk_size_range tn _ _ HN Htn) as Hns.
  set (msize := chunk_size tm (launch_rows cfg prm) (MStep cfg)) in *.
  set (nsize := chunk_size tn (launch_cols cfg prm) (NStep cfg)) in *.
  assert (Hmend : tm + msize ≤ launch_rows cfg prm) by (unfold msize, chunk_size; lia).
  assert (Hnend : tn + nsize ≤ launch_cols cfg prm) by (unfold nsize, chunk_size; lia).
  destruct (padto_multiple nsize (NTILE core) ltac:(lia) HNT) as [Hnpad Hnle].
  pose proof (padto_upper nsize (NTILE core) ltac:(lia) HNT) as Hnup.
  unfold tile_events in He. apply elem_of_app in He as [He|He].
  - unfold tile_kloop in He.
    apply list_elem_of_bind in He as (kstart & He & Hk).
    apply chunk_starts_range in Hk; [|done].
    pose proof (chunk_size_range kstart _ _ HK Hk) as Hkc.
    set (kc := chunk_size kstart (K prm) (KStep cfg)) in *.
    assert (Hkend : kstart + kc ≤ K prm) by (unfold kc, chunk_size; lia).
    pose proof (Z.div_mod kc (KTILE core) ltac:(lia)) as Hdm.
    pose proof (Z.mod_pos_bound kc (KTILE core) HKT) as Hmb.
    assert (Hq : 0 ≤ kc / KTILE core) by (apply Z.div_pos; lia).
    apply elem_of_cons in He as [->|He].
    { destruct (padto_multiple kc (KTILE core) ltac:(lia) HKT) as [Hkpad Hkle].
      pose proof (padto_upper kc (KTILE core) ltac:(lia) HKT) as Hkup.
      simpl. split_and!; try done; lia. }
    apply list_elem_of_bind in He as (i & He & Hi).
    apply chunk_starts_range in Hi; [|done].
    pose proof (chunk_size_range i msize (MTILE core) HMT Hi) as Hmc.
    assert (Hiend : i + chunk_size i msize (MTILE core) ≤ msize)
      by (unfold chunk_size; lia).
    unfold tile_kchunk_calls in He. apply elem_of_app in He as [He|He].
    + destruct (Z.eqb_spec (KTILE core * (kc / KTILE core)) 0); [by apply elem_of_nil in He|].
      apply elem_of_cons in He as [->|He].
      * simpl. split_and!; try lia; nia.
      * apply list_elem_of_singleton in He as ->. simpl.
        split_and!; try lia; try nia; try done.
        all: exists (kc / KTILE core); lia.
    + destruct (Z.eqb_spec (kc mod KTILE core) 0); [by apply elem_of_nil in He|].
      apply elem_of_cons in He as [->|He].
      * simpl. split_and!; try lia; nia.
      * apply list_elem_of_singleton in He as ->. simpl.
        split_and!; try lia; try nia; try done.
        all: exists 1; lia.
  - apply list_elem_of_singleton in He as ->. simpl. split_and!; try done; lia.
Qed.

End CallsInside.

(** X2.  Every activation fetch and every epilogue call of [launch] lies,
    with its whole extent, inside the thread's rectangle clipped to the
    M x N output and inside [0, K).  The weight prologue and the
    micro-kernel start inside, but are given a column count rounded up to
    a multiple of NTILE and a depth rounded up to a multiple of KTILE: what
    they are asked for may pass the last column of the rectangle by less
    than NTILE and the depth K by less than KTILE, never more. *)
Theorem calls_within_padding (core : GemmCore) (cfg : Launcher.ParallelConfig)
    (prm : Launcher.Param) (fuel : nat) (tr : list Launcher.event) :
  GemmCore_wf core →
  0 < Launcher.MStep cfg → 0 < Launcher.NStep cfg → 0 < Launcher.KStep cfg →
  Launcher.launch core fuel cfg prm = Some tr →
  Forall (Cover.call_ok core cfg prm) tr ∧
  Launcher.rowidx cfg + Launcher.launch_rows cfg prm ≤ Launcher.M prm ∧
  Launcher.launch_rows cfg prm ≤ Launcher.rowsize cfg ∧
  Launcher.colidx cfg + Launcher.launch_cols cfg prm ≤ Launcher.N prm ∧
  Launcher.launch_cols cfg prm ≤ Launcher.colsize cfg.
Proof.
  intros Hcore HM HN HK Hl.
  apply launch_Some_tiled in Hl; [|done..]. subst tr.
  split.
  - rewrite tiled_launch_nested. apply Forall_forall. intros e He.
    apply list_elem_of_bind in He as (tn & He & Htn).
    apply list_elem_of_bind in He as (tm & He & Htm).
    by eapply tile_calls_ok.
  - unfold Launcher.launch_rows, Launcher.launch_cols.
    pose proof (remainsize_clip (Launcher.rowidx cfg) (Launcher.M prm) (Launcher.rowsize cfg)).
    pose proof (remainsize_clip (Launcher.colidx cfg) (Launcher.N prm) (Launcher.colsize cfg)).
    lia.
Qed.

Lemma calls_within_padding_witness :
  Forall (Cover.call_ok Examples.core_8x48 Examples.cfg_whole Examples.prm_20x100x10)
    (Launcher.tiled_launch Examples.core_8x48 Examples.cfg_whole Examples.prm_20x100x10) ∧
  Launcher.GetWeight 4 96 8 0
    ∈ Launcher.tiled_launch Examples.core_8x48 Examples.cfg_whole Examples.prm_20x100x10 ∧
  Cover.call_padded Examples.prm_20x100x10 (Launcher.GetWeight 4 96 8 0) ∧
  Launcher.GetWeight 8 48 0 96
    ∈ Launcher.tiled_launch Examples.core_8x48 Examples.cfg_whole Examples.prm_20x100x10 ∧
  Cover.call_padded Examples.prm_20x100x10 (Launcher.GetWeight 8 48 0 96).
Proof.
  split.
  - refine (proj1 (calls_within_padding Examples.core_8x48 Examples.cfg_whole
                     Examples.prm_20x100x10 4 _ _ _ _ _ _)).
    + unfold GemmCore_wf. simpl. lia.
    + simpl. lia.
    + simpl. lia.
    + simpl. lia.
    + vm_compute. reflexivity.
  - split_and!.
    + apply list_elem_of_In. vm_compute. repeat (first [left; reflexivity | right]).
    + left. simpl. lia.
    + apply list_elem_of_In. vm_compute. repeat (first [left; reflexivity | right]).
    + right. simpl. lia.
Defined.

Section ActivationFetches.
Import Launcher.
Variable core : GemmCore.
Hypothesis Hcore : GemmCore_wf core.

(** The one or two fetches of a K chunk for a row band split the chunk. *)
Lemma kchunk_calls_fetch cfg R0 c_off mc n_padded kstart kc row k :
  0 < kc →
  length (List.filter (Cover.activation_covers row k)
            (tile_kchunk_calls core cfg R0 c_off mc n_padded kstart kc)) =
  if (R0 <=? row) && (row <? R0 + mc) && (kstart <=? k) && (k <? kstart + kc)
  then 1%nat else 0%nat.
Proof.
  intros Hkc. destruct Hcore as (_ & _ & HKT & _).
  pose proof (Z.div_mod kc (KTILE core) ltac:(lia)) as Hdm.
  pose proof (Z.mod_pos_bound kc (KTILE core) HKT) as Hmb.
  assert (Hq : 0 ≤ kc / KTILE core) by (apply Z.div_pos; lia).
  unfold tile_kchunk_calls. rewrite List.filter_app, length_app.
  destruct (Z.eqb_spec (KTILE core * (kc / KTILE core)) 0) as [Ha|Ha];
    destruct (Z.eqb_spec (kc mod KTILE core) 0) as [Hr|Hr]; simpl;
    repeat match goal with
           | |- context [Z.leb ?a ?b] => destruct (Z.leb_spec a b); simpl
           | |- context [Z.ltb ?a ?b] => destruct (Z.ltb_spec a b); simpl
           end; lia.
Qed.

Lemma tile_fetches cfg prm tm tn msize nsize row k :
  0 < KStep cfg → 0 < msize →
  rowidx cfg + tm ≤ row < rowidx cfg + tm + msize → 0 ≤ k < K prm →
  length (List.filter (Cover.activation_covers row k)
            (tile_events core cfg prm tm tn msize nsize)) = 1%nat.
Proof.
  intros HK Hms Hrow Hk. destruct Hcore as (HMT & _).
  unfold tile_events. rewrite List.filter_app, length_app. simpl.
  rewrite Nat.add_0_r. unfold tile_kloop.
  destruct (chunk_locate (K prm) (KStep cfg) k HK Hk) as (Hk_in & Hk_cov & Hk_uniq).
  destruct (chunk_locate msize (MTILE core) (row - rowidx cfg - tm) HMT ltac:(lia))
    as (Hi_in & Hi_cov & Hi_uniq).
  apply (filter_bind_unique _ _ _ _ (chunk_starts_NoDup _ _ HK) Hk_in).
  - simpl. apply (filter_bind_unique _ _ _ _ (chunk_starts_NoDup _ _ HMT) Hi_in).
    + rewrite kchunk_calls_fetch by lia.
      repeat match goal with
             | |- context [Z.leb ?a ?b] => destruct (Z.leb_spec a b); simpl
             | |- context [Z.ltb ?a ?b] => destruct (Z.ltb_spec a b); simpl
             end; lia.
    + intros i Hi Hne. apply length_zero_iff_nil.
      pose proof (chunk_starts_range _ _ _ HK Hk_in) as Hkr.
      pose proof (chunk_size_range _ _ _ HK Hkr).
      rewrite kchunk_calls_fetch by lia.
      destruct (_ && _) eqn:Hc; [exfalso|done].
      rewrite !andb_true_iff, !Z.leb_le, !Z.ltb_lt in Hc.
      apply Hne, Hi_uniq; [done|lia].
  - intros kstart Hks Hne. simpl. apply filter_bind_nil. intros i Hi.
    apply length_zero_iff_nil.
    pose proof (chunk_starts_range _ _ _ HK Hks) as Hkr.
    pose proof (chunk_size_range _ _ _ HK Hkr).
    rewrite kchunk_calls_fetch by lia.
    destruct (_ && _) eqn:Hc; [exfalso|done].
    rewrite !andb_true_iff, !Z.leb_le, !Z.ltb_lt in Hc.
    apply Hne, Hk_uniq; [done|lia].
Qed.

Lemma tile_fetches_other_rows cfg prm tm tn msize nsize row k :
  0 < KStep cfg →
  ¬ (rowidx cfg + tm ≤ row < rowidx cfg + tm + msize) →
  List.filter (Cover.activation_covers row k)
    (tile_events core cfg prm tm tn msize nsize) = [].
Proof.
  intros HK Hrow. destruct Hcore as (HMT & _).
  unfold tile_events. rewrite List.filter_app. simpl. rewrite app_nil_r.
  unfold tile_kloop. apply filter_bind_nil. intros kstart Hks. simpl.
  apply filter_bind_nil. intros i Hi. apply length_zero_iff_nil.
  pose proof (chunk_starts_range _ _ _ HK Hks) as Hkr.
  pose proof (chunk_size_range _ _ _ HK Hkr).
  pose proof (chunk_starts_range _ _ _ HMT Hi) as Hir.
  rewrite kchunk_calls_fetch by lia.
  destruct (_ && _) eqn:Hc; [exfalso|done].
  rewrite !andb_true_iff, !Z.leb_le, !Z.ltb_lt in Hc.
  unfold chunk_size in Hc. lia.
Qed.

End ActivationFetches.

(** X3.  Over a whole [launch], every element of A that belongs to a row
    of the thread's clipped rectangle is fetched by the activation prologue
    once per column tile of the rectangle: the chunks of K and the bands of
    MTILE rows neither skip nor repeat an element, and A is read again for
    each of the [chunk_count cols NStep] column tiles. *)
Theorem activation_fetched_once_per_column_tile (core : GemmCore)
    (cfg : Launcher.ParallelConfig) (prm : Launcher.Param) (fuel : nat)
    (tr : list Launcher.event) (row k : Z) :
  GemmCore_wf core →
  0 < Launcher.MStep cfg → 0 < Launcher.NStep cfg → 0 < Launcher.KStep cfg →
  Launcher.launch core fuel cfg prm = Some tr →
  Launcher.rowidx cfg ≤ row < Launcher.rowidx cfg + Launcher.launch_rows cfg prm →
  0 ≤ k < Launcher.K prm →
  length (List.filter (Cover.activation_covers row k) tr) =
    chunk_count (Launcher.launch_cols cfg prm) (Launcher.NStep cfg).
Proof.
  intros Hcore HM HN HK Hl Hrow Hk.
  apply launch_Some_tiled in Hl; [|done..]. subst tr.
  rewrite tiled_launch_nested.
  rewrite (filter_bind_count _ _ _ 1%nat).
  { unfold chunk_starts. rewrite length_fmap, length_seq. lia. }
  intros tn _.
  destruct (chunk_locate (Launcher.launch_rows cfg prm) (Launcher.MStep cfg)
              (row - Launcher.rowidx cfg) HM ltac:(lia)) as (Hm_in & Hm_cov & Hm_uniq).
  apply (filter_bind_unique _ _ _ _ (chunk_starts_NoDup _ _ HM) Hm_in).
  - apply tile_fetches; [done|done| |lia|done].
    pose proof (chunk_starts_range _ _ _ HM Hm_in) as Hr.
    pose proof (chunk_size_range _ _ _ HM Hr). lia.
  - intros tm Htm Hne. apply tile_fetches_other_rows; [done|done|].
    intros Hin. apply Hne, Hm_uniq; [done|lia].
Qed.

Lemma activation_fetched_once_per_column_tile_witness :
  length (List.filter (Cover.activation_covers 17 9)
            (Launcher.tiled_launch Examples.core_8x48 Examples.cfg_whole
               Examples.prm_20x100x10)) = 2%nat.
Proof.
  apply (activation_fetched_once_per_column_tile Examples.core_8x48 Examples.cfg_whole
           Examples.prm_20x100x10 4).
  - unfold GemmCore_wf. simpl. lia.
  - simpl. lia.
  - simpl. lia.
  - simpl. lia.
  - vm_compute. reflexivity.
  - change (0 ≤ 17 < 0 + 20). lia.
  - simpl. lia.
Defined.

Section LoopEdges.
Context {E : Type}.

(** A loop whose counter does not advance never ends. *)
Lemma for_step_stuck (body : Z → option (list E)) n step :
  step ≤ 0 → ∀ fuel it, it < n → for_step fuel it n step body = None.
Proof.
  intros Hstep. induction fuel as [|fuel IH]; intros it Hit; simpl.
  - destruct (Z.ltb_spec it n); [done|lia].
  - destruct (Z.ltb_spec it n); [|lia].
    destruct (body it); simpl; [|done].
    rewrite IH by lia. done.
Qed.

Lemma for_step_body_stuck (body : Z → option (list E)) n step fuel it :
  it < n → body it = None → for_step fuel it n step body = None.
Proof.
  intros Hit Hb. destruct fuel; simpl; destruct (Z.ltb_spec it n); try done; try lia.
  by rewrite Hb.
Qed.

Lemma for_step_empty (body : Z → option (list E)) n step fuel it :
  n ≤ it → for_step fuel it n step body = Some [].
Proof. intros Hn. destruct fuel; simpl; destruct (Z.ltb_spec it n); done || lia. Qed.

End LoopEdges.

(** X4.  With a depth K that is not positive, [launch] still calls the
    epilogue once per tile, on the scratch accumulator, but makes no call
    of a prologue or of the micro-kernel. *)
Theorem launch_without_depth (core : GemmCore) (cfg : Launcher.ParallelConfig)
    (prm : Launcher.Param) (fuel : nat) (tr : list Launcher.event) :
  Launcher.K prm ≤ 0 →
  0 < Launcher.MStep cfg → 0 < Launcher.NStep cfg →
  Launcher.launch core fuel cfg prm = Some tr →
  tr = (tn ← chunk_starts (Launcher.launch_cols cfg prm) (Launcher.NStep cfg);
        tm ← chunk_starts (Launcher.launch_rows cfg prm) (Launcher.MStep cfg);
        [Launcher.EpilogueForward (Launcher.NStep cfg)
           (Launcher.rowidx cfg + tm) (Launcher.colidx cfg + tn)
           (chunk_size tm (Launcher.launch_rows cfg prm) (Launcher.MStep cfg))
           (chunk_size tn (Launcher.launch_cols cfg prm) (Launcher.NStep cfg))]) ∧
  List.filter Launcher.is_epilogue tr = tr.
Proof.
  intros HK HM HN Hl.
  assert (Hblock : ∀ f bm bn ms ns,
            Launcher.run_block core f cfg prm bm bn ms ns =
            Some [Launcher.EpilogueForward (Launcher.NStep cfg)
                    (Launcher.rowidx cfg + bm) (Launcher.colidx cfg + bn) ms ns]).
  { intros. unfold Launcher.run_block. by rewrite for_step_empty. }
  set (big := Nat.max fuel (Nat.max
         (chunk_count (Launcher.launch_cols cfg prm) (Launcher.NStep cfg))
         (chunk_count (Launcher.launch_rows cfg prm) (Launcher.MStep cfg)))).
  apply (launch_mono core fuel big) in Hl; [|lia].
  assert (Heq : Launcher.launch core big cfg prm = Some
            (tn ← chunk_starts (Launcher.launch_cols cfg prm) (Launcher.NStep cfg);
             tm ← chunk_starts (Launcher.launch_rows cfg prm) (Launcher.MStep cfg);
             [Launcher.EpilogueForward (Launcher.NStep cfg)
                (Launcher.rowidx cfg + tm) (Launcher.colidx cfg + tn)
                (chunk_size tm (Launcher.launch_rows cfg prm) (Launcher.MStep cfg))
                (chunk_size tn (Launcher.launch_cols cfg prm) (Launcher.NStep cfg))])).
  { unfold Launcher.launch.
    fold (Launcher.launch_rows cfg prm) (Launcher.launch_cols cfg prm).
    apply for_step_chunks; [done| |lia]. intros tn _. simpl.
    apply for_step_chunks; [done| |lia]. intros tm _. simpl.
    rewrite !remainsize_chunk_size. apply Hblock. }
  rewrite Heq in Hl. injection Hl as <-. split; [done|].
  apply filter_bind_all. intros tn _. by apply filter_bind_all.
Qed.

Lemma launch_without_depth_witness :
  List.filter Launcher.is_epilogue
    [Launcher.EpilogueForward 96 0 0 16 96; Launcher.EpilogueForward 96 16 0 4 96;
     Launcher.EpilogueForward 96 0 96 16 4; Launcher.EpilogueForward 96 16 96 4 4] =
    [Launcher.EpilogueForward 96 0 0 16 96; Launcher.EpilogueForward 96 16 0 4 96;
     Launcher.EpilogueForward 96 0 96 16 4; Launcher.EpilogueForward 96 16 96 4 4].
Proof.
  refine (proj2 (launch_without_depth Examples.core_8x48 Examples.cfg_whole
                   Cover.prm_depth0 2 _ _ _ _ _)).
  - simpl. lia.
  - simpl. lia.
  - simpl. lia.
  - vm_compute. reflexivity.
Defined.

(** X5.  When the clipped rectangle has no row or no column, for instance
    when it starts at or beyond the edge of the output, [launch] returns
    without any call, whatever MStep and KStep are. *)
Theorem launch_on_empty_rectangle (core : GemmCore) (cfg : Launcher.ParallelConfig)
    (prm : Launcher.Param) (fuel : nat) :
  Launcher.launch_rows cfg prm ≤ 0 ∨ Launcher.launch_cols cfg prm ≤ 0 →
  0 < Launcher.NStep cfg →
  (chunk_count (Launcher.launch_cols cfg prm) (Launcher.NStep cfg) ≤ fuel)%nat →
  Launcher.launch core fuel cfg prm = Some [].
Proof.
  intros Hempty HN Hfuel. unfold Launcher.launch.
  fold (Launcher.launch_rows cfg prm) (Launcher.launch_cols cfg prm).
  destruct Hempty as [Hrows|Hcols].
  - rewrite (for_step_chunks _ _ _ (λ _, []) HN); [|by intros; apply for_step_empty|done].
    f_equal. induction (chunk_starts _ _) as [|tn l IH]; [done|].
    by rewrite bind_cons, IH.
  - by apply for_step_empty.
Qed.

Lemma launch_on_empty_rectangle_witness :
  Launcher.launch_rows Cover.cfg_below Examples.prm_20x100x10 = 0 ∧
  Launcher.launch Examples.core_8x48 2 Cover.cfg_below Examples.prm_20x100x10 = Some [].
Proof.
  split; [reflexivity|].
  apply launch_on_empty_rectangle.
  - left. vm_compute. discriminate.
  - simpl. lia.
  - vm_compute. lia.
Defined.

(** X6.  On a rectangle that is not empty, [launch] never returns when a
    step is zero or negative: NStep, or MStep, or KStep with a positive K. *)
Theorem launch_needs_positive_steps (core : GemmCore) (cfg : Launcher.ParallelConfig)
    (prm : Launcher.Param) (fuel : nat) :
  0 < Launcher.launch_cols cfg prm →
  Launcher.NStep cfg ≤ 0 ∨
  (0 < Launcher.launch_rows cfg prm ∧
   (Launcher.MStep cfg ≤ 0 ∨ (0 < Launcher.K prm ∧ Launcher.KStep cfg ≤ 0))) →
  Launcher.launch core fuel cfg prm = None.
Proof.
  intros Hcols Hsteps. unfold Launcher.launch.
  fold (Launcher.launch_rows cfg prm) (Launcher.launch_cols cfg prm).
  destruct Hsteps as [HN|[Hrows [HM|[HK HKS]]]].
  - by apply for_step_stuck.
  - apply for_step_body_stuck; [done|]. by apply for_step_stuck.
  - apply for_step_body_stuck; [done|].
    apply for_step_body_stuck; [done|].
    unfold Launcher.run_block. by rewrite for_step_stuck.
Qed.

Lemma launch_needs_positive_steps_witness :
  Launcher.launch Examples.core_8x48 1000 Cover.cfg_kstep0 Examples.prm_20x100x10 = None.
Proof.
  apply launch_needs_positive_steps.
  - vm_compute. reflexivity.
  - right. split; [vm_compute; reflexivity|]. right. simpl. lia.
Defined.

(** X7.  With a positive K, every accumulator cell that the epilogue of a
    tile reads has been handed, earlier in the same [run_block], to a
    micro-kernel call that works at depth 0 of K. *)
Theorem epilogue_reads_accumulated_cells (core : GemmCore)
    (cfg : Launcher.ParallelConfig) (prm : Launcher.Param) (fuel : nat)
    (blk_m blk_n blk_msize blk_nsize : Z) (tr : list Launcher.event) (cell : Z) :
  GemmCore_wf core →
  0 < Launcher.KStep cfg → 0 < Launcher.K prm →
  Launcher.run_block core fuel cfg prm blk_m blk_n blk_msize blk_nsize = Some tr →
  Scratch.touches_c cfg
    (Launcher.EpilogueForward (Launcher.NStep cfg) (Launcher.rowidx cfg + blk_m)
       (Launcher.colidx cfg + blk_n) blk_msize blk_nsize) cell →
  ∃ ks e,
    tr = ks ++ [Launcher.EpilogueForward (Launcher.NStep cfg) (Launcher.rowidx cfg + blk_m)
                  (Launcher.colidx cfg + blk_n) blk_msize blk_nsize] ∧
    e ∈ ks ∧ Cover.forward_at_depth 0 e ∧ Scratch.touches_c cfg e cell.
Proof.
  intros Hcore HKS HK Hr (r & c & Hrr & Hc & ->).
  apply run_block_Some_tile in Hr; [|done..]. subst tr.
  destruct Hcore as (HMT & HNT & HKT & _).
  destruct (chunk_locate (Launcher.K prm) (Launcher.KStep cfg) 0 HKS ltac:(lia))
    as (Hk_in & _ & _).
  rewrite Z.div_0_l, Z.mul_0_r in Hk_in by lia.
  destruct (chunk_locate blk_msize (MTILE core) r HMT Hrr) as (Hi_in & Hi_cov & _).
  set (i := MTILE core * (r / MTILE core)) in *.
  pose proof (chunk_size_range 0 (Launcher.K prm) (Launcher.KStep cfg) HKS ltac:(lia)) as Hkc.
  set (kc := chunk_size 0 (Launcher.K prm) (Launcher.KStep cfg)) in *.
  destruct (padto_multiple blk_nsize (NTILE core) ltac:(lia) HNT) as [_ Hpad].
  pose proof (Z.div_mod kc (KTILE core) ltac:(lia)) as Hdm.
  pose proof (Z.mod_pos_bound kc (KTILE core) HKT) as Hmb.
  exists (Launcher.tile_kloop core cfg prm blk_m blk_n blk_msize blk_nsize).
  assert (Hcalls : ∀ e,
    e ∈ Launcher.tile_kchunk_calls core cfg (blk_m + i + Launcher.rowidx cfg)
          (i * Launcher.NStep cfg) (chunk_size i blk_msize (MTILE core))
          (utils.padto blk_nsize (NTILE core)) 0 kc →
    e ∈ Launcher.tile_kloop core cfg prm blk_m blk_n blk_msize blk_nsize).
  { intros e He. unfold Launcher.tile_kloop. apply list_elem_of_bind.
    exists 0. split; [|done]. right. apply list_elem_of_bind. by exists i. }
  destruct (Z.eq_dec (KTILE core * (kc / KTILE core)) 0) as [Ha|Ha].
  - exists (Launcher.Forward (KTILE core * (kc / KTILE core) * NTILE core)
              (i * Launcher.NStep cfg) (chunk_size i blk_msize (MTILE core))
              (utils.padto blk_nsize (NTILE core)) (KTILE core)
              (0 + KTILE core * (kc / KTILE core))).
    split_and!; [done| |simpl; lia|].
    + apply Hcalls. unfold Launcher.tile_kchunk_calls. apply elem_of_app. right.
      destruct (Z.eqb_spec (kc mod KTILE core) 0); [lia|]. right. by left.
    + exists (r - i), c. lia.
  - exists (Launcher.Forward 0 (i * Launcher.NStep cfg)
              (chunk_size i blk_msize (MTILE core))
              (utils.padto blk_nsize (NTILE core)) (KTILE core * (kc / KTILE core)) 0).
    split_and!; [done| |done|].
    + apply Hcalls. unfold Launcher.tile_kchunk_calls. apply elem_of_app. left.
      destruct (Z.eqb_spec (KTILE core * (kc / KTILE core)) 0); [lia|]. right. by left.
    + exists (r - i), c. lia.
Qed.

Lemma epilogue_reads_accumulated_cells_witness :
  ∃ ks e,
    Launcher.tile_events Examples.core_8x48 Examples.cfg_whole Examples.prm_20x100x10
      0 0 16 96 =
    ks ++ [Launcher.EpilogueForward 96 0 0 16 96] ∧
    e ∈ ks ∧ Cover.forward_at_depth 0 e ∧ Scratch.touches_c Examples.cfg_whole e 1535.
Proof.
  apply (epilogue_reads_accumulated_cells Examples.core_8x48 Examples.cfg_whole
           Examples.prm_20x100x10 2 0 0 16 96).
  - unfold GemmCore_wf. simpl. lia.
  - simpl. lia.
  - simpl. lia.
  - vm_compute. reflexivity.
  - exists 15, 95. simpl. lia.
Defined.

(** * The launcher of the dynamic-quantization kernels *)

Lemma for_step_fmap {E F : Type} (g : E → F) (body : Z → option (list E))
    (body' : Z → option (list F)) n step :
  (∀ x, body' x = fmap (M:=option) (fmap (M:=list) g) (body x)) →
  ∀ fuel it, for_step fuel it n step body' =
             fmap (M:=option) (fmap (M:=list) g) (for_step fuel it n step body).
Proof.
  intros Hbody. induction fuel as [|fuel IH]; intros it; simpl.
  - by destruct (it <? n).
  - destruct (it <? n); [|done].
    rewrite Hbody. destruct (body it) as [t|]; simpl; [|done].
    rewrite IH. destruct (for_step fuel _ _ _ body) as [ts|]; simpl; [|done].
    by rewrite fmap_app.
Qed.

(** X8.  [GemmLauncherPackWeightDynamicQuant::launch] makes the calls of
    [GemmLauncherPackWeight::launch], one for one and in the same order, on
    the same tiles; it differs only in handing the quantized activations to
    the activation prologue and the scales to the epilogue.  It returns
    exactly when the plain launcher does. *)
Theorem dynamic_launch_follows_plain (core : GemmCore) (fuel : nat)
    (cfg : Launcher.ParallelConfig) (prm : Launcher.Param)
    (quan : DynLauncher.QuanAParam) :
  DynLauncher.launch core fuel cfg prm quan =
  fmap (M:=option) (fmap (M:=list) (DynLauncher.of_plain quan))
    (Launcher.launch core fuel cfg prm).
Proof.
  unfold DynLauncher.launch, Launcher.launch.
  apply for_step_fmap. intros itern.
  apply for_step_fmap. intros iterm.
  set (ms := utils.remainsize iterm _ _). set (ns := utils.remainsize itern _ _).
  unfold DynLauncher.run_block, Launcher.run_block.
  set (np := utils.padto ns (NTILE core)).
  rewrite (for_step_fmap (DynLauncher.of_plain quan)
             (Launcher.run_kchunk core fuel cfg prm iterm itern ms np)).
  - destruct (for_step fuel _ _ _ _) as [ks|]; simpl; [|done].
    by rewrite fmap_app.
  - intros iterk. unfold DynLauncher.run_kchunk, Launcher.run_kchunk.
    set (kr := utils.remainsize iterk _ _).
    rewrite (for_step_fmap (DynLauncher.of_plain quan)
               (λ i, Some (Launcher.run_mtile core cfg iterm ms np iterk kr i))).
    + by destruct (for_step fuel _ _ _ _).
    + intros i. simpl. f_equal.
      unfold DynLauncher.run_mtile, Launcher.run_mtile.
      rewrite fmap_app. by do 2 destruct (_ =? 0).
Qed.

(** * Progress of the dynamic-quantization region *)

Section Progress.
Import Interface Omp OmpProgress.

Lemma before_barrier_not_launch prog :
  before_barrier prog → prog ≠ [] ∧ ¬ Forall (λ a, is_launch a = true) prog.
Proof.
  intros (rest & _ & [-> | [tidx ->]]); split; try done;
    intros [? _]%Forall_cons; done.
Qed.

Lemma lockstep_step team t tr team' :
  lockstep team → step team t = Some (tr, team') → lockstep team'.
Proof.
  intros Hls Hstep. unfold step in Hstep.
  destruct (team !! t) as [[|a rest]|] eqn:Ht; try done.
  destruct a as [tq| |cfg ltr].
  - injection Hstep as _ <-. destruct Hls as [Hb|Ha].
    + left. apply Forall_insert; [done|].
      rewrite Forall_lookup in Hb.
      destruct (Hb _ _ Ht) as (rest' & Hl & [[=]|[tidx [= -> ->]]]).
      exists rest'. auto.
    + rewrite Forall_lookup in Ha. by apply Ha, Forall_cons in Ht as [? _].
  - destruct (forallb at_barrier team) eqn:Hall; [|done].
    injection Hstep as _ <-. destruct Hls as [Hb|Ha].
    + right. apply Forall_fmap, Forall_forall. intros prog Hin.
      rewrite Forall_forall in Hb.
      destruct (Hb _ Hin) as (rest' & Hl & [-> | [tidx ->]]); [done|].
      rewrite List.forallb_forall in Hall.
      by apply list_elem_of_In, Hall in Hin.
    + rewrite Forall_lookup in Ha. by apply Ha, Forall_cons in Ht as [? _].
  - injection Hstep as _ <-. destruct Hls as [Hb|Ha].
    + rewrite Forall_lookup in Hb.
      by destruct (Hb _ _ Ht) as (rest' & Hl & [[=]|[tidx [=]]]).
    + right. apply Forall_insert; [done|].
      rewrite Forall_lookup in Ha. by apply Ha, Forall_cons in Ht as [_ ?].
Qed.

Lemma lockstep_run sched : ∀ team tr team',
  lockstep team → run sched team = Some (tr, team') → lockstep team'.
Proof.
  induction sched as [|t sched IH]; intros team tr team' Hls Hrun.
  - by injection Hrun as _ <-.
  - simpl in Hrun.
    destruct (step team t) as [[tr1 team1]|] eqn:Hstep; simpl in Hrun; [|done].
    destruct (run sched team1) as [[tr2 team2]|] eqn:Hrun2; simpl in Hrun; [|done].
    injection Hrun as _ <-.
    eapply IH; [|exact Hrun2]. by eapply lockstep_step.
Qed.

(** A team in lockstep is finished or has a thread that can move. *)
Lemma lockstep_progress team :
  lockstep team → finished team ∨ ∃ t, is_Some (step team t).
Proof.
  intros [Hb|Ha].
  - destruct team as [|prog0 team0]; [left; constructor|]. right.
    destruct (forallb at_barrier (prog0 :: team0)) eqn:Hall.
    + exists 0%nat. unfold step.
      apply Forall_cons in Hb as [(rest & _ & [-> | [tidx ->]]) _].
      * change (((OmpBarrier :: rest) :: team0) !! 0%nat) with (Some (OmpBarrier :: rest)).
        cbv beta iota. by rewrite Hall.
      * simpl in Hall. done.
    + assert (∃ t prog, (prog0 :: team0) !! t = Some prog ∧ at_barrier prog = false)
        as (t & prog & Ht & Hnb).
      { apply not_true_iff_false in Hall.
        destruct (existsb (λ p, negb (at_barrier p)) (prog0 :: team0)) eqn:Hex.
        - apply existsb_exists in Hex as (prog & Hin & Hnb).
          apply list_elem_of_In, list_elem_of_lookup in Hin as [t Ht].
          exists t, prog. split; [done|]. by destruct (at_barrier prog).
        - exfalso. apply Hall. apply List.forallb_forall. intros prog Hin.
          destruct (at_barrier prog) eqn:Hp; [done|].
          assert (existsb (λ p, negb (at_barrier p)) (prog0 :: team0) = true);
            [|congruence].
          apply existsb_exists. exists prog. by rewrite Hp. }
      exists t. unfold step. rewrite Ht.
      rewrite Forall_lookup in Hb.
      destruct (Hb _ _ Ht) as (rest & _ & [-> | [tidx ->]]); done.
  - destruct (forallb (λ p, match p with [] => true | _ => false end) team) eqn:Hall.
    + left. apply Forall_forall. intros prog Hin.
      rewrite List.forallb_forall in Hall.
      apply list_elem_of_In, Hall in Hin. by destruct prog.
    + right.
      assert (∃ t a rest, team !! t = Some (a :: rest)) as (t & a & rest & Ht).
      { apply not_true_iff_false in Hall.
        destruct (existsb (λ p, match p with [] => false | _ => true end) team) eqn:Hex.
        - apply existsb_exists in Hex as (prog & Hin & Hne).
          apply list_elem_of_In, list_elem_of_lookup in Hin as [t Ht].
          destruct prog as [|a rest]; [done|]. by exists t, a, rest.
        - exfalso. apply Hall. apply List.forallb_forall. intros prog Hin.
          destruct prog as [|a rest]; [done|].
          assert (existsb (λ p, match p with [] => false | _ => true end) team = true);
            [|congruence].
          apply existsb_exists. by exists (a :: rest). }
      exists t. unfold step. rewrite Ht.
      rewrite Forall_lookup in Ha.
      apply Ha, Forall_cons in Ht as [Hl _]. by destruct a.
Qed.

End Progress.

(** X9.  The parallel region of the dynamic-quantization [compute] cannot
    deadlock: after any schedule, either every thread has run to its end or
    some thread can take a step.  Threads without a rectangle quantize and
    reach the barrier like the others, so the barrier always opens. *)
Theorem dynamic_quant_region_progress {P : Type} `{Interface.Parallel P}
    (core : GemmCore) (fuel : nat) (cb : Interface.CpuBase) (nthreads : Z)
    (prm : Launcher.Param)
    (paral : P) (st : Interface.JBLAS_CODE) (threads : list (list Interface.action))
    (sched : list nat) (tr : list (nat * Interface.action))
    (team' : list (list Interface.action)) :
  Interface.DynamicQuant_compute core fuel cb nthreads prm paral = Some (st, threads) →
  Omp.run sched threads = Some (tr, team') →
  OmpProgress.finished team' ∨ ∃ t, is_Some (Omp.step team' t).
Proof.
  intros Hc Hrun.
  apply lockstep_progress. eapply lockstep_run; [|exact Hrun].
  left. pose proof (dynamic_quant_thread_inv core fuel cb nthreads prm paral st threads Hc) as Hall.
  apply Forall_forall. intros prog Hin.
  apply list_elem_of_lookup in Hin as [i Hi].
  destruct (Forall2_lookup_r _ _ _ _ _ Hall Hi) as (tidx & _ & rest & -> & Hl).
  exists rest. eauto.
Qed.

Lemma dynamic_quant_region_progress_witness :
  ∃ threads tr team',
    Interface.DynamicQuant_compute Examples.core_8x48 4 Examples.cpu3 3
      Examples.prm_20x100x10 Examples.plan3 = Some (Interface.JblasSuccess, threads) ∧
    Omp.run [2; 0; 1]%nat threads = Some (tr, team') ∧
    (OmpProgress.finished team' ∨ ∃ t, is_Some (Omp.step team' t)).
Proof.
  eexists _, _, _.
  split; [vm_compute; reflexivity|].
  split; [vm_compute; reflexivity|].
  refine (dynamic_quant_region_progress Examples.core_8x48 4 Examples.cpu3 3
            Examples.prm_20x100x10 Examples.plan3 Interface.JblasSuccess _
            [2; 0; 1]%nat _ _ _ _).
  - vm_compute. reflexivity.
  - vm_compute. reflexivity.
Defined.

(** X10.  In both interfaces, whatever the size of the team that runs the
    parallel region, a thread of that team whose rectangle has rows and
    columns calls [launch] exactly once: on that rectangle, with the steps
    of the updated plan and a scratch size equal to the L2 cache size. *)
Theorem compute_launches_assigned_rectangle {P : Type} `{Interface.Parallel P}
    (core : GemmCore) (fuel : nat) (cb : Interface.CpuBase) (nthreads : Z)
    (prm : Launcher.Param)
    (paral : P) (st : Interface.JBLAS_CODE) (threads : list (list Interface.action))
    (i : nat) (tidx rowidx0 colidx0 rowsize0 colsize0 : Z) (acts : list Interface.action) :
  Interface.PackWeight_compute core fuel cb nthreads prm paral = Some (st, threads) ∨
  Interface.DynamicQuant_compute core fuel cb nthreads prm paral = Some (st, threads) →
  Interface.omp_team nthreads !! i = Some tidx →
  threads !! i = Some acts →
  let plan := (Interface.update paral (Launcher.M prm) (Launcher.N prm) (Launcher.K prm)
                 (Interface.mNumThreads cb)).2 in
  Interface.getIndex plan tidx = (rowidx0, colidx0, rowsize0, colsize0) →
  0 < rowsize0 → 0 < colsize0 →
  ∃ tr,
    List.filter Interface.is_launch acts =
      [Interface.Launch
         {| Launcher.rowidx := rowidx0; Launcher.colidx := colidx0;
            Launcher.rowsize := rowsize0; Launcher.colsize := colsize0;
            Launcher.MStep := Interface.getMStep plan;
            Launcher.NStep := Interface.getNStep plan;
            Launcher.KStep := Interface.getKStep plan;
            Launcher.StackSize := Interface.mL2Cache cb |} tr] ∧
    Launcher.launch core fuel
      {| Launcher.rowidx := rowidx0; Launcher.colidx := colidx0;
         Launcher.rowsize := rowsize0; Launcher.colsize := colsize0;
         Launcher.MStep := Interface.getMStep plan;
         Launcher.NStep := Interface.getNStep plan;
         Launcher.KStep := Interface.getKStep plan;
         Launcher.StackSize := Interface.mL2Cache cb |} prm = Some tr.
Proof.
  intros Hc Hi Hacts plan Hidx Hrs Hcs.
  pose proof (compute_thread_inv core fuel cb nthreads prm paral st threads Hc) as Hall.
  simpl in Hall. fold plan in Hall.
  destruct (Forall2_lookup_lr _ _ _ _ _ _ Hall Hi Hacts) as (rest & Hrest & Hshape).
  unfold Interface.launch_if_assigned in Hrest. rewrite Hidx in Hrest.
  destruct (Z.ltb_spec 0 rowsize0); [|lia].
  destruct (Z.ltb_spec 0 colsize0); [|lia]. simpl in Hrest.
  destruct (Launcher.launch _ _ _ _) as [tr|] eqn:Hl; simpl in Hrest; [|done].
  injection Hrest as <-. exists tr. split; [|done].
  by destruct Hshape as [-> | ->].
Qed.

Lemma compute_launches_assigned_rectangle_witness :
  ∃ threads acts tr,
    Interface.PackWeight_compute Examples.core_8x48 4 Examples.cpu3 2
      Examples.prm_20x100x10 Examples.plan3 = Some (Interface.JblasSuccess, threads) ∧
    threads !! 1%nat = Some acts ∧
    List.filter Interface.is_launch acts =
      [Interface.Launch
         {| Launcher.rowidx := 16; Launcher.colidx := 0;
            Launcher.rowsize := 4; Launcher.colsize := 100;
            Launcher.MStep := 16; Launcher.NStep := 96; Launcher.KStep := 8;
            Launcher.StackSize := 2097152 |} tr].
Proof.
  pose proof (λ threads acts Hc Hacts,
    compute_launches_assigned_rectangle Examples.core_8x48 4 Examples.cpu3 2
      Examples.prm_20x100x10 Examples.plan3 Interface.JblasSuccess threads
      1 1 16 0 4 100 acts (or_introl Hc) eq_refl Hacts eq_refl
      ltac:(lia) ltac:(lia)) as Hw.
  simpl in Hw.
  edestruct Hw as (tr & Htr & _); [vm_compute; reflexivity|reflexivity|].
  eexists _, _, tr. split; [vm_compute; reflexivity|]. split; [reflexivity|]. exact Htr.
Defined.

(** ** The team as a whole *)

Section TeamCoverage.
Import Launcher Interface TeamCover.
Context {P : Type} `{Parallel P}.
Variable core : GemmCore.
Hypothesis Hcore : GemmCore_wf core.

(** Inside the output, a thread's epilogue calls reach an element once if
    the element is in the thread's rectangle, and not at all otherwise;
    beyond the last row or column of the output they reach nothing. *)
Lemma thread_cover_count fuel cb prm (plan : P) tidx rest row col :
  0 < getMStep plan → 0 < getNStep plan → 0 < getKStep plan →
  launch_if_assigned core fuel cb prm plan tidx = Some rest →
  (0 ≤ row < M prm → 0 ≤ col < N prm →
   length (List.filter (Cover.epilogue_covers row col) (thread_events rest)) =
     if in_rect (getIndex plan tidx) row col then 1%nat else 0%nat) ∧
  (M prm ≤ row ∨ N prm ≤ col →
   List.filter (Cover.epilogue_covers row col) (thread_events rest) = []).
Proof.
  intros HM HN HK. unfold launch_if_assigned, in_rect.
  destruct (getIndex plan tidx) as [[[r0 c0] rs] cs].
  destruct (Z.ltb_spec 0 rs) as [Hrs|Hrs]; destruct (Z.ltb_spec 0 cs) as [Hcs|Hcs]; simpl.
  2-4: intros [= <-]; (split; [|done]); intros Hrow Hcol; simpl;
       destruct (Z.leb_spec r0 row); destruct (Z.ltb_spec row (r0 + rs));
       destruct (Z.leb_spec c0 col); destruct (Z.ltb_spec col (c0 + cs));
       simpl; try done; lia.
  destruct (launch _ _ _ _) as [tr|] eqn:Hl; simpl; [|done].
  intros [= <-]. unfold thread_events. simpl. rewrite app_nil_r.
  apply (launch_Some_tiled core Hcore) in Hl; [|done..]. subst tr.
  set (cfg := Build_ParallelConfig _ _ _ _ _ _ _ _).
  assert (Hrows : rowidx cfg + launch_rows cfg prm = Z.min (r0 + rs) (M prm)).
  { unfold launch_rows, utils.remainsize. simpl.
    destruct (Z.leb_spec (r0 + rs) (M prm)); lia. }
  assert (Hcols : colidx cfg + launch_cols cfg prm = Z.min (c0 + cs) (N prm)).
  { unfold launch_cols, utils.remainsize. simpl.
    destruct (Z.leb_spec (c0 + cs) (N prm)); lia. }
  assert (Hr0 : rowidx cfg = r0) by done.
  assert (Hc0 : colidx cfg = c0) by done.
  split.
  - intros Hrow Hcol.
    destruct (Z.leb_spec r0 row); destruct (Z.ltb_spec row (r0 + rs));
      destruct (Z.leb_spec c0 col); destruct (Z.ltb_spec col (c0 + cs)); cbn [andb].
    1: { apply tiled_launch_covers_once; [done|done|..]; rewrite ?Hrows, ?Hcols; lia. }
    all: rewrite tiled_launch_covers_none; [done|done|done|];
         rewrite ?Hrows, ?Hcols; lia.
  - intros Hout. apply tiled_launch_covers_none; [done|done|].
    rewrite ?Hrows, ?Hcols. lia.
Qed.

Lemma team_cover_count fuel cb prm (plan : P) team threads row col :
  0 < getMStep plan → 0 < getNStep plan → 0 < getKStep plan →
  Forall2 (λ tidx acts, ∃ rest,
             launch_if_assigned core fuel cb prm plan tidx = Some rest ∧
             (acts = rest ∨ acts = QuantizeT tidx :: OmpBarrier :: rest))
          team threads →
  (0 ≤ row < M prm → 0 ≤ col < N prm →
   length (List.filter (Cover.epilogue_covers row col) (team_events threads)) =
     length (List.filter (λ tidx, in_rect (getIndex plan tidx) row col) team)) ∧
  (M prm ≤ row ∨ N prm ≤ col →
   List.filter (Cover.epilogue_covers row col) (team_events threads) = []).
Proof.
  intros HM HN HK Hall. unfold team_events.
  induction Hall as [|tidx acts team threads (rest & Hrest & Hacts) _ [IH1 IH2]];
    [done|].
  assert (Hev : thread_events acts = thread_events rest) by (by destruct Hacts as [-> | ->]).
  destruct (thread_cover_count _ _ _ _ _ _ row col HM HN HK Hrest) as [Hin Hout].
  rewrite bind_cons, List.filter_app, Hev. split.
  - intros Hrow Hcol. rewrite length_app, Hin, IH1 by done. simpl.
    by destruct (in_rect _ _ _).
  - intros Ho. by rewrite Hout, IH2.
Qed.

End TeamCoverage.

Lemma filter_none {A} (f : A → bool) (l : list A) :
  (∀ x, x ∈ l → f x = false) → List.filter f l = [].
Proof.
  induction l as [|x l IH]; intros Hf; [done|]. simpl.
  rewrite (Hf x) by (by left). apply IH. intros y Hy. apply Hf. by right.
Qed.

Lemma omp_team_range nthreads tidx :
  tidx ∈ Interface.omp_team nthreads ↔ 0 ≤ tidx < nthreads.
Proof.
  unfold Interface.omp_team. rewrite list_elem_of_fmap. split.
  - intros (q & -> & Hq). apply elem_of_seq in Hq. lia.
  - intros Ht. exists (Z.to_nat tidx). split; [lia|]. apply elem_of_seq. lia.
Qed.

(** X11.  In both interfaces, the team that runs the parallel region hands
    an element of the M x N output to the epilogue as many times as there
    are threads in that team whose rectangle of the plan contains it.  With
    the full team of a plan whose rectangles partition the output this is
    exactly once; an element whose rectangles all belong to thread numbers
    that the team does not have is never handed to the epilogue, since
    [compute] does not look at the size of the team it runs on.  No
    epilogue call reaches beyond the last row or the last column of the
    output. *)
Theorem team_writes_as_assigned {P : Type} `{Interface.Parallel P}
    (core : GemmCore) (fuel : nat) (cb : Interface.CpuBase) (nthreads : Z)
    (prm : Launcher.Param)
    (paral : P) (st : Interface.JBLAS_CODE) (threads : list (list Interface.action))
    (row col : Z) :
  let plan := (Interface.update paral (Launcher.M prm) (Launcher.N prm) (Launcher.K prm)
                 (Interface.mNumThreads cb)).2 in
  GemmCore_wf core →
  0 < Interface.getMStep plan → 0 < Interface.getNStep plan → 0 < Interface.getKStep plan →
  Interface.PackWeight_compute core fuel cb nthreads prm paral = Some (st, threads) ∨
  Interface.DynamicQuant_compute core fuel cb nthreads prm paral = Some (st, threads) →
  (0 ≤ row < Launcher.M prm → 0 ≤ col < Launcher.N prm →
   length (List.filter (Cover.epilogue_covers row col) (TeamCover.team_events threads)) =
     length (List.filter (λ tidx, TeamCover.in_rect (Interface.getIndex plan tidx) row col)
               (Interface.omp_team nthreads))) ∧
  (0 ≤ row < Launcher.M prm → 0 ≤ col < Launcher.N prm →
   (∀ tidx, 0 ≤ tidx < nthreads →
      TeamCover.in_rect (Interface.getIndex plan tidx) row col = false) →
   List.filter (Cover.epilogue_covers row col) (TeamCover.team_events threads) = []) ∧
  (Launcher.M prm ≤ row ∨ Launcher.N prm ≤ col →
   List.filter (Cover.epilogue_covers row col) (TeamCover.team_events threads) = []).
Proof.
  intros plan Hcore HM HN HK Hc.
  pose proof (compute_thread_inv core fuel cb nthreads prm paral st threads Hc) as Hall.
  destruct (team_cover_count core Hcore fuel cb prm plan _ _ row col HM HN HK Hall)
    as [Hin Hout].
  split_and!; [done| |done].
  intros Hrow Hcol Hnone. apply nil_length_inv. rewrite Hin by done.
  rewrite filter_none; [done|].
  intros tidx Htidx. apply Hnone. by apply omp_team_range.
Qed.

Lemma team_writes_as_assigned_witness :
  (∃ threads,
     Interface.PackWeight_compute Examples.core_8x48 4 Examples.cpu3 3
       Examples.prm_20x100x10 Examples.plan3 = Some (Interface.JblasSuccess, threads) ∧
     length (List.filter (Cover.epilogue_covers 17 99) (TeamCover.team_events threads))
       = 1%nat) ∧
  (∃ threads,
     Interface.PackWeight_compute Examples.core_8x48 4 Examples.cpu3 1
       Examples.prm_20x100x10 Examples.plan3 = Some (Interface.JblasSuccess, threads) ∧
     List.filter (Cover.epilogue_covers 17 99) (TeamCover.team_events threads) = []).
Proof.
  split.
  - eexists. split; [vm_compute; reflexivity|].
    refine (eq_trans (proj1 (team_writes_as_assigned Examples.core_8x48 4 Examples.cpu3 3
              Examples.prm_20x100x10 Examples.plan3 Interface.JblasSuccess _ 17 99
              _ _ _ _ (or_introl eq_refl)) _ _) _).
    + unfold GemmCore_wf. simpl. lia.
    + simpl. lia.
    + simpl. lia.
    + simpl. lia.
    + simpl. lia.
    + simpl. lia.
    + reflexivity.
  - eexists. split; [vm_compute; reflexivity|].
    refine (proj1 (proj2 (team_writes_as_assigned Examples.core_8x48 4 Examples.cpu3 1
              Examples.prm_20x100x10 Examples.plan3 Interface.JblasSuccess _ 17 99
              _ _ _ _ (or_introl eq_refl))) _ _ _).
    + unfold GemmCore_wf. simpl. lia.
    + simpl. lia.
    + simpl. lia.
    + simpl. lia.
    + simpl. lia.
    + simpl. lia.
    + intros tidx Ht. assert (tidx = 0) as -> by lia. reflexivity.
Defined.

(** ** The evaluator: which calls return *)

Section GraphRuns.
Import GptNeoX EvalPre.

Lemma store_rows_Some rows : ∀ mem off nb1 rb,
  Forall (λ row, Z.of_nat (length row) = rb) rows →
  ∃ mem', store_rows mem off nb1 rb rows = Some mem' ∧ length mem' = length mem.
Proof.
  induction rows as [|row rows IH]; intros mem off nb1 rb Hrows; simpl.
  - by exists mem.
  - apply Forall_cons in Hrows as [Hlen Hrows].
    destruct (Z.eqb_spec (Z.of_nat (length row)) rb); [|done].
    destruct (IH (store mem off row) (off + nb1) nb1 rb Hrows) as (mem2 & Hs & Hl2).
    exists mem2. split; [done|]. by rewrite Hl2, store_length.
Qed.

(** A copy whose source has the shape of its destination is carried out,
    wherever the destination view points. *)
Lemma compute_cpy_Some kv node :
  node_ok kv node →
  ∃ kv', compute_cpy kv node = Some kv' ∧
    ∀ a, elem_size (cache_of kv' a) = elem_size (cache_of kv a) ∧
         length (data (cache_of kv' a)) = length (data (cache_of kv a)).
Proof.
  intros [Hn Hrows]. unfold compute_cpy.
  destruct (Z.eqb_spec (Z.of_nat (length (src node))) (ne1 (dst node))); [|done].
  destruct (store_rows_Some (src node) (data (cache_of kv (base (dst node))))
              (offset (dst node)) (nb1 (dst node)) _ Hrows) as (mem' & -> & Hl). simpl.
  eexists. split; [done|].
  intros a. destruct a, (base (dst node)); simpl in *; by rewrite ?Hl.
Qed.

Variables (hp : model_hparams) (kv0 : kv_cache) (res : computed) (N n_past : Z).
Hypothesis Hshapes : shapes_ok hp kv0 res N.

(** The two copies of a layer are carried out. *)
Lemma store_kv_Some il kv :
  0 ≤ il < n_layer hp →
  (∀ a, elem_size (cache_of kv a) = elem_size (cache_of kv0 a) ∧
        length (data (cache_of kv a)) = length (data (cache_of kv0 a))) →
  ∃ kv', ne_graph_compute (store_kv hp kv0 res N n_past il) kv = Some kv' ∧
    ∀ a, elem_size (cache_of kv' a) = elem_size (cache_of kv0 a) ∧
         length (data (cache_of kv' a)) = length (data (cache_of kv0 a)).
Proof.
  intros Hil Hsame.
  destruct (Hshapes il Hil) as (HK & HV & Hrows).
  destruct (Hsame KCache) as [HeK HlK]. destruct (Hsame VCache) as [HeV HlV].
  simpl in HeK, HlK, HeV, HlV.
  unfold store_kv. cbv zeta.
  change (ne_graph_compute [?a; ?b] kv) with
    (compute_cpy kv a ≫= λ kv', compute_cpy kv' b ≫= λ kv'', Some kv'').
  edestruct (compute_cpy_Some kv) as (kv1 & -> & Hs1).
  { split; simpl; [done|]. constructor; [|done]. rewrite HeK, HK. done. }
  simpl.
  destruct (Hs1 VCache) as [HeV1 HlV1]. simpl in HeV1, HlV1.
  edestruct (compute_cpy_Some kv1) as (kv2 & -> & Hs2).
  { split; simpl; [done|]. rewrite HeV1, HeV. done. }
  simpl. exists kv2. split; [done|].
  intros a. destruct (Hs2 a) as [-> ->]. destruct (Hs1 a) as [-> ->]. apply Hsame.
Qed.

Lemma ne_graph_compute_app gf1 gf2 kv :
  ne_graph_compute (gf1 ++ gf2) kv = ne_graph_compute gf1 kv ≫= ne_graph_compute gf2.
Proof.
  revert kv. induction gf1 as [|nd gf1 IH]; intros kv; simpl; [done|].
  destruct (compute_cpy kv nd) as [kv'|]; simpl; [apply IH|done].
Qed.

Lemma layers_Some ls : ∀ kv,
  (∀ il, il ∈ ls → 0 ≤ il < n_layer hp) →
  (∀ a, elem_size (cache_of kv a) = elem_size (cache_of kv0 a) ∧
        length (data (cache_of kv a)) = length (data (cache_of kv0 a))) →
  is_Some (ne_graph_compute (ls ≫= store_kv hp kv0 res N n_past) kv).
Proof.
  induction ls as [|il ls IH]; intros kv Hls Hsame.
  - by eexists.
  - rewrite bind_cons, ne_graph_compute_app.
    destruct (store_kv_Some il kv) as (kv1 & -> & Hs1); [apply Hls; by left|done|].
    simpl. apply IH; [|done]. intros il' Hil'. apply Hls. by right.
Qed.

(** [ne_graph_compute] runs through, wherever the new positions lie. *)
Lemma build_graph_Some :
  is_Some (ne_graph_compute (build_graph hp kv0 res N n_past) kv0).
Proof.
  unfold build_graph. apply layers_Some; [|done].
  intros il Hil. by apply layers_range in Hil.
Qed.

End GraphRuns.

Section EvalReturns.
Import GptNeoX EvalPre.

Lemma copy_floats_Some from off cnt :
  0 ≤ cnt → 0 ≤ off → off + cnt ≤ Z.of_nat (length from) →
  is_Some (copy_floats from off cnt).
Proof.
  intros H1 H2 H3. unfold copy_floats.
  destruct (Z.leb_spec 0 cnt); [|lia].
  destruct (Z.leb_spec 0 off); [|lia].
  destruct (Z.leb_spec (off + cnt) (Z.of_nat (length from))); [|lia].
  by eexists.
Qed.

Lemma logits_ok_copy lctx res N :
  logits_ok lctx res N ↔
  is_Some (if logits_all lctx
           then copy_floats (lm_head res) 0 (n_vocab (hparams lctx) * N)
           else copy_floats (lm_head res) (n_vocab (hparams lctx) * (N - 1))
                  (n_vocab (hparams lctx))).
Proof.
  unfold logits_ok. cbv zeta. destruct (logits_all lctx); split.
  - intros ?. apply copy_floats_Some; lia.
  - intros [lg Hlg]. apply copy_floats_inv in Hlg. lia.
  - intros ?. apply copy_floats_Some; lia.
  - intros [lg Hlg]. apply copy_floats_inv in Hlg. lia.
Qed.

(** The value that a returning call leaves in [mem_per_token]. *)
Lemma eval_internal_mem_per_token res lctx tokens n_tokens n_past n_threads lctx' ok :
  gptneox_model_eval_internal res lctx tokens n_tokens n_past n_threads = Some (lctx', ok) →
  mem_per_token lctx' =
    if mem_per_token lctx =? 0 then used_mem res ÷ n_tokens else mem_per_token lctx.
Proof.
  unfold gptneox_model_eval_internal.
  destruct (ctx (kv_self lctx)); simpl; [|done].
  destruct ((0 <=? n_tokens) && (n_tokens <=? Z.of_nat (length tokens))); simpl; [|done].
  destruct (ne_graph_compute _ _) as [kv1|]; simpl; [|done].
  set (lgq := if logits_all lctx then _ else _).
  destruct lgq as [lg|]; simpl; [|done].
  destruct (embedding lctx) as [|x xs]; simpl; [|done].
  destruct (mem_per_token lctx =? 0).
  - destruct (n_tokens =? 0); simpl; [done|]. by intros [= <- <-].
  - simpl. by intros [= <- <-].
Qed.

End EvalReturns.

Section StoresInBounds.
Import GptNeoX EvalPre.
Variables (hp : model_hparams) (kv : kv_cache) (res : computed) (N n_past : Z).
Hypothesis Hsized : kv_sized hp kv.
Hypothesis HN : 0 ≤ N.
Hypothesis Hpast : 0 ≤ n_past.
Hypothesis Hwindow : n_past + N ≤ n_ctx hp.
Hypothesis Hshapes : shapes_ok hp kv res N.

(** Inside the context window the stores of the graph stay inside the
    cache. *)
Lemma build_graph_in_bounds : stores_in_bounds kv (build_graph hp kv res N n_past).
Proof.
  apply Forall_forall. intros w Hw. destruct Hsized as (Hsk & Hsv & Hlk & Hlv).
  apply build_graph_writes in Hw as (il & Hil & Hcase).
  destruct (Hshapes il Hil) as (HK & HV & Hrows).
  assert (Hembd : 0 ≤ n_embd hp) by lia.
  destruct Hcase as [-> | (e & row & Hrow & ->)]; simpl.
  - rewrite HK, Hlk. unfold k_off.
    assert (elem_size (k kv) * n_embd hp * (il * n_ctx hp + n_past + N)
            ≤ elem_size (k kv) * n_embd hp * (n_layer hp * n_ctx hp))
      by (apply Z.mul_le_mono_nonneg_l; nia).
    split; nia.
  - assert (Hrl : Z.of_nat (length row) = N * elem_size (v kv)).
    { rewrite Forall_forall in Hrows. apply Hrows. by eapply list_elem_of_lookup_2. }
    assert (He : Z.of_nat e < n_embd hp).
    { apply lookup_lt_Some in Hrow. lia. }
    rewrite Hrl, Hlv. unfold v_off.
    assert (Hr1 : il * n_embd hp + Z.of_nat e + 1 ≤ n_layer hp * n_embd hp) by nia.
    assert (Hband : (il * n_embd hp + Z.of_nat e + 1) * n_ctx hp
                    ≤ n_layer hp * n_embd hp * n_ctx hp)
      by (apply Z.mul_le_mono_nonneg_r; lia).
    assert (elem_size (v kv) * ((il * n_embd hp + Z.of_nat e) * n_ctx hp + n_past + N)
            ≤ elem_size (v kv) * (n_layer hp * n_embd hp * n_ctx hp))
      by (apply Z.mul_le_mono_nonneg_l; lia).
    split; nia.
Qed.

End StoresInBounds.

(** X12.  A call inside the context window runs through.  On a cache that
    holds [n_ctx] positions per layer, when the cache context is not null,
    [tokens] has the [N] tokens of the batch, [0 <= n_past] and
    [n_past + N <= n_ctx], the copied keys and values have the shapes of
    their views, the logits are read inside the data of the last node and
    no embedding is requested, every store of the graph lies inside the
    buffer of its cache tensor, and a call on at least one token returns
    [true] and counts [n_past + N] tokens.  Of these conditions the source
    checks only that the cache context is not null. *)
Theorem eval_returns_inside_window (res : GptNeoX.computed)
    (lctx : GptNeoX.model_context) (tokens : list Z) (N n_past n_threads : Z) :
  GptNeoX.kv_sized (GptNeoX.hparams lctx) (GptNeoX.kv_self lctx) →
  GptNeoX.ctx (GptNeoX.kv_self lctx) = true →
  0 < N ≤ Z.of_nat (length tokens) →
  0 ≤ n_past →
  n_past + N ≤ GptNeoX.n_ctx (GptNeoX.hparams lctx) →
  EvalPre.shapes_ok (GptNeoX.hparams lctx) (GptNeoX.kv_self lctx) res N →
  EvalPre.logits_ok lctx res N →
  GptNeoX.embedding lctx = [] →
  EvalPre.stores_in_bounds (GptNeoX.kv_self lctx)
    (GptNeoX.build_graph (GptNeoX.hparams lctx) (GptNeoX.kv_self lctx) res N n_past) ∧
  ∃ lctx',
    GptNeoX.gptneox_model_eval_internal res lctx tokens N n_past n_threads
      = Some (lctx', true) ∧
    GptNeoX.n (GptNeoX.kv_self lctx') = n_past + N.
Proof.
  intros Hsized Hctx [HN Htok] Hpast Hwindow Hshapes Hlogits Hemb.
  split; [apply build_graph_in_bounds; [done|lia|done|done|done]|].
  unfold GptNeoX.gptneox_model_eval_internal. rewrite Hctx. simpl.
  destruct (Z.leb_spec 0 N); [|lia].
  destruct (Z.leb_spec N (Z.of_nat (length tokens))); [|lia]. simpl.
  destruct (build_graph_Some (GptNeoX.hparams lctx) (GptNeoX.kv_self lctx) res N n_past
              Hshapes) as [kv1 ->]. simpl.
  apply logits_ok_copy in Hlogits as [lg Hlg].
  cbv zeta in Hlg. rewrite Hlg, Hemb. simpl.
  destruct (GptNeoX.mem_per_token lctx =? 0); [|by eexists].
  destruct (Z.eqb_spec N 0); [lia|]. by eexists.
Qed.

Lemma eval_returns_inside_window_witness :
  ∃ lctx',
    GptNeoX.gptneox_model_eval_internal EvalExamples.res2 EvalExamples.lctx0
      EvalExamples.tokens2 2 1 4 = Some (lctx', true) ∧
    GptNeoX.n (GptNeoX.kv_self lctx') = 1 + 2.
Proof.
  refine (proj2 (eval_returns_inside_window EvalExamples.res2 EvalExamples.lctx0
                   EvalExamples.tokens2 2 1 4 _ _ _ _ _ _ _ _)).
  - unfold GptNeoX.kv_sized. simpl. lia.
  - reflexivity.
  - simpl. lia.
  - lia.
  - simpl. lia.
  - intros il Hil. simpl in Hil.
    assert (il = 0 ∨ il = 1) as [-> | ->] by lia; simpl;
      (split_and!; [lia|lia|repeat constructor]).
  - unfold EvalPre.logits_ok. simpl. lia.
  - reflexivity.
Defined.

(** ** The evaluator: what a call leaves alone *)

(** Rows of width [W]: positions from [p + N] on of any row stay clear of
    the positions [p .. p + N - 1] of every row. *)
Lemma band_after W R R' t p N :
  0 ≤ p → p + N ≤ t < W →
  ¬ (R * W + p ≤ R' * W + t < R * W + p + N).
Proof.
  intros Hp Ht [H1 H2].
  destruct (Z.lt_trichotomy R R') as [Hlt|[->|Hgt]]; nia.
Qed.

Section CacheFrame.
Import GptNeoX.
Variables (hp : model_hparams) (kv kv1 : kv_cache) (res : computed) (N n_past : Z).
Hypothesis Hsized : kv_sized hp kv.
Hypothesis Hpast : 0 ≤ n_past.
Hypothesis Hwrites :
  do_writes (graph_writes (build_graph hp kv res N n_past)) kv = kv1.
Hypothesis Hok : Forall (node_ok kv) (build_graph hp kv res N n_past).

(** The stores change neither the element types nor the sizes. *)
Lemma kv_sized_kept n' :
  kv_sized hp {| ctx := ctx kv1; k := k kv1; v := v kv1; n := n' |} ∧
  elem_size (k kv1) = elem_size (k kv) ∧ elem_size (v kv1) = elem_size (v kv).
Proof.
  destruct Hsized as (Hsk & Hsv & Hlk & Hlv).
  destruct (do_writes_sizes (graph_writes (build_graph hp kv res N n_past)) kv)
    as (Hsz & _).
  rewrite Hwrites in Hsz.
  destruct (Hsz KCache) as [HeK HlK]. destruct (Hsz VCache) as [HeV HlV].
  simpl in *. unfold kv_sized. simpl. rewrite HeK, HeV, HlK, HlV. done.
Qed.

(** The keys at the positions behind the new tokens are not overwritten. *)
Lemma k_later il t e b :
  0 ≤ il < n_layer hp → n_past + N ≤ t < n_ctx hp → 0 ≤ e < n_embd hp →
  0 ≤ b < elem_size (k kv) →
  byte_at (k kv1) (k_addr hp (elem_size (k kv)) il t e b) =
  byte_at (k kv) (k_addr hp (elem_size (k kv)) il t e b).
Proof.
  intros Hil Ht He Hb. destruct Hsized as (Hsk & Hsv & _).
  rewrite <-Hwrites. apply (do_writes_untouched _ _ KCache).
  intros w Hw. destruct (covers KCache _ w) eqn:Hc; [exfalso|done].
  apply covers_spec in Hc as [Ht' Hr].
  apply build_graph_writes in Hw as (il2 & Hil2 & [-> | (e2 & row & _ & ->)]); [|done].
  simpl in Hr.
  destruct (build_graph_ok hp kv res N n_past il2 Hok Hil2) as (Hlen & _).
  rewrite Hlen, k_addr_split in Hr. unfold k_off in Hr.
  pose proof (component_offset hp (elem_size (k kv)) e b Hsk He Hb) as Hcomp.
  assert (Hband : il2 * n_ctx hp + n_past ≤ il * n_ctx hp + t
                  < il2 * n_ctx hp + n_past + N).
  { apply (scaled_band (elem_size (k kv) * n_embd hp) _ _ _ (e * elem_size (k kv) + b));
      [nia|done|]. lia. }
  exact (band_after _ _ _ _ _ _ Hpast Ht Hband).
Qed.

(** The values at the positions behind the new tokens are not overwritten. *)
Lemma v_later il t e b :
  0 ≤ il < n_layer hp → n_past + N ≤ t < n_ctx hp → 0 ≤ e < n_embd hp →
  0 ≤ b < elem_size (v kv) →
  byte_at (v kv1) (v_addr hp (elem_size (v kv)) il t e b) =
  byte_at (v kv) (v_addr hp (elem_size (v kv)) il t e b).
Proof.
  intros Hil Ht He Hb. destruct Hsized as (Hsk & Hsv & _).
  rewrite <-Hwrites. apply (do_writes_untouched _ _ VCache).
  intros w Hw. destruct (covers VCache _ w) eqn:Hc; [exfalso|done].
  apply covers_spec in Hc as [Ht' Hr].
  apply build_graph_writes in Hw as (il2 & Hil2 & [-> | (e2 & row & Hrow & ->)]); [done|].
  simpl in Hr.
  destruct (build_graph_ok hp kv res N n_past il2 Hok Hil2) as (_ & _ & Hlen).
  rewrite (Hlen _ _ Hrow), v_addr_split, v_off_split in Hr.
  assert (Hband : (il2 * n_embd hp + Z.of_nat e2) * n_ctx hp + n_past
                  ≤ (il * n_embd hp + e) * n_ctx hp + t
                  < (il2 * n_embd hp + Z.of_nat e2) * n_ctx hp + n_past + N).
  { apply (scaled_band (elem_size (v kv)) _ _ _ b); [done|done|]. lia. }
  exact (band_after _ _ _ _ _ _ Hpast Ht Hband).
Qed.

End CacheFrame.

(** X13.  A call at an [n_past] that is not negative and that returns
    changes nothing of the cache but the positions of the new tokens: the
    hyperparameters, the element types and the sizes of the two cache
    tensors are as before, and in every layer the bytes of the keys and
    values at the positions from [n_past + N] up to the end of the context
    window are the bytes that were there before the call. *)
Theorem eval_keeps_later_positions (res : GptNeoX.computed) (lctx : GptNeoX.model_context)
    (tokens : list Z) (N n_past n_threads : Z) (lctx' : GptNeoX.model_context) (ok : bool) :
  GptNeoX.kv_sized (GptNeoX.hparams lctx) (GptNeoX.kv_self lctx) →
  0 ≤ n_past →
  GptNeoX.gptneox_model_eval_internal res lctx tokens N n_past n_threads = Some (lctx', ok) →
  GptNeoX.hparams lctx' = GptNeoX.hparams lctx ∧
  GptNeoX.kv_sized (GptNeoX.hparams lctx') (GptNeoX.kv_self lctx') ∧
  GptNeoX.elem_size (GptNeoX.k (GptNeoX.kv_self lctx'))
    = GptNeoX.elem_size (GptNeoX.k (GptNeoX.kv_self lctx)) ∧
  GptNeoX.elem_size (GptNeoX.v (GptNeoX.kv_self lctx'))
    = GptNeoX.elem_size (GptNeoX.v (GptNeoX.kv_self lctx)) ∧
  ∀ il t e b,
    0 ≤ il < GptNeoX.n_layer (GptNeoX.hparams lctx) →
    n_past + N ≤ t < GptNeoX.n_ctx (GptNeoX.hparams lctx) →
    0 ≤ e < GptNeoX.n_embd (GptNeoX.hparams lctx) →
    (0 ≤ b < GptNeoX.elem_size (GptNeoX.k (GptNeoX.kv_self lctx)) →
     GptNeoX.byte_at (GptNeoX.k (GptNeoX.kv_self lctx'))
       (GptNeoX.k_addr (GptNeoX.hparams lctx)
          (GptNeoX.elem_size (GptNeoX.k (GptNeoX.kv_self lctx))) il t e b) =
     GptNeoX.byte_at (GptNeoX.k (GptNeoX.kv_self lctx))
       (GptNeoX.k_addr (GptNeoX.hparams lctx)
          (GptNeoX.elem_size (GptNeoX.k (GptNeoX.kv_self lctx))) il t e b)) ∧
    (0 ≤ b < GptNeoX.elem_size (GptNeoX.v (GptNeoX.kv_self lctx)) →
     GptNeoX.byte_at (GptNeoX.v (GptNeoX.kv_self lctx'))
       (GptNeoX.v_addr (GptNeoX.hparams lctx)
          (GptNeoX.elem_size (GptNeoX.v (GptNeoX.kv_self lctx))) il t e b) =
     GptNeoX.byte_at (GptNeoX.v (GptNeoX.kv_self lctx))
       (GptNeoX.v_addr (GptNeoX.hparams lctx)
          (GptNeoX.elem_size (GptNeoX.v (GptNeoX.kv_self lctx))) il t e b)).
Proof.
  intros Hsized Hpast He.
  apply eval_internal_inv in He
    as (kv1 & lg & mpt & _ & _ & Hg & _ & _ & _ & -> & _).
  apply ne_graph_compute_writes in Hg as [Hw Hok].
  destruct (kv_sized_kept _ _ _ _ _ _ Hsized Hw (n_past + N)) as (Hs1 & HeK & HeV).
  simpl. split_and!; [done|done|done|done|].
  intros il t e b Hil Ht Hemb. split; intros Hb.
  - by eapply k_later.
  - by eapply v_later.
Qed.

Lemma eval_keeps_later_positions_witness :
  match GptNeoX.gptneox_model_eval_internal (EvalSteps.one_token Byte.xc0 Byte.xd0)
          EvalExamples.lctx0 [7] 1 1 4 with
  | Some (lctx', _) =>
      GptNeoX.byte_at (GptNeoX.k (GptNeoX.kv_self lctx'))
        (GptNeoX.k_addr EvalExamples.hp 1 0 2 1 0) = Some Byte.x00 ∧
      GptNeoX.kv_sized EvalExamples.hp (GptNeoX.kv_self lctx')
  | None => False
  end.
Proof.
  destruct (GptNeoX.gptneox_model_eval_internal (EvalSteps.one_token Byte.xc0 Byte.xd0)
              EvalExamples.lctx0 [7] 1 1 4) as [[lctx' ok]|] eqn:He;
    [|vm_compute in He; discriminate].
  destruct (eval_keeps_later_positions (EvalSteps.one_token Byte.xc0 Byte.xd0)
              EvalExamples.lctx0 [7] 1 1 4 lctx' ok) as (Hhp & Hs & _ & _ & Hlater).
  - unfold GptNeoX.kv_sized. simpl. lia.
  - lia.
  - exact He.
  - split; [|by rewrite Hhp in Hs].
    destruct (Hlater 0 2 1 0) as [Hk _]; [simpl; lia|simpl; lia|simpl; lia|].
    etrans; [apply Hk; simpl; lia | reflexivity].
Defined.

(** X14.  Two calls in a row, the second one continuing at
    [n_past + N1], that together stay inside the context window
    ([0 <= n_past] and [n_past + N1 + N2 <= n_ctx], which the source does
    not check): after the second call the cache counts [n_past + N1 + N2]
    tokens and still holds, at the positions [n_past .. n_past + N1 - 1]
    of every layer, the keys and values that the first call stored. *)
Theorem eval_twice_keeps_first (res1 res2 : GptNeoX.computed) (lctx : GptNeoX.model_context)
    (tokens1 tokens2 : list Z) (N1 N2 n_past n_threads1 n_threads2 : Z)
    (lctx1 lctx2 : GptNeoX.model_context) (ok1 ok2 : bool) :
  GptNeoX.kv_sized (GptNeoX.hparams lctx) (GptNeoX.kv_self lctx) →
  0 ≤ n_past →
  n_past + N1 + N2 ≤ GptNeoX.n_ctx (GptNeoX.hparams lctx) →
  GptNeoX.gptneox_model_eval_internal res1 lctx tokens1 N1 n_past n_threads1
    = Some (lctx1, ok1) →
  GptNeoX.gptneox_model_eval_internal res2 lctx1 tokens2 N2 (n_past + N1) n_threads2
    = Some (lctx2, ok2) →
  let hp := GptNeoX.hparams lctx in
  let sk := GptNeoX.elem_size (GptNeoX.k (GptNeoX.kv_self lctx)) in
  let sv := GptNeoX.elem_size (GptNeoX.v (GptNeoX.kv_self lctx)) in
  GptNeoX.n (GptNeoX.kv_self lctx2) = n_past + N1 + N2 ∧
  ∀ il j e b,
    0 ≤ il < GptNeoX.n_layer hp → 0 ≤ j < N1 → 0 ≤ e < GptNeoX.n_embd hp →
    (0 ≤ b < sk →
     ∃ x, GptNeoX.Kcur res1 il !! Z.to_nat ((j * GptNeoX.n_embd hp + e) * sk + b) = Some x ∧
          GptNeoX.byte_at (GptNeoX.k (GptNeoX.kv_self lctx2))
            (GptNeoX.k_addr hp sk il (n_past + j) e b) = Some x) ∧
    (0 ≤ b < sv →
     ∃ row x, GptNeoX.Vcur res1 il !! Z.to_nat e = Some row ∧
              row !! Z.to_nat (j * sv + b) = Some x ∧
              GptNeoX.byte_at (GptNeoX.v (GptNeoX.kv_self lctx2))
                (GptNeoX.v_addr hp sv il (n_past + j) e b) = Some x).
Proof.
  intros Hsized Hpast Hwindow He1 He2. cbv zeta.
  apply eval_internal_inv in He1
    as (kv1 & lg1 & mpt1 & _ & [HN1 _] & Hg1 & _ & _ & _ & -> & _).
  apply eval_internal_inv in He2
    as (kv2 & lg2 & mpt2 & _ & [HN2 _] & Hg2 & _ & _ & _ & -> & _).
  simpl in Hg2. simpl.
  apply ne_graph_compute_writes in Hg1 as [Hw1 Hok1].
  apply ne_graph_compute_writes in Hg2 as [Hw2 Hok2].
  destruct (kv_sized_kept _ _ _ _ _ _ Hsized Hw1 (n_past + N1)) as (Hs1 & HeK & HeV).
  assert (Hwin1 : n_past + N1 ≤ GptNeoX.n_ctx (GptNeoX.hparams lctx)) by lia.
  assert (Hwin2 : n_past + N1 + N2 ≤ GptNeoX.n_ctx (GptNeoX.hparams lctx)) by lia.
  split; [lia|].
  intros il j e b Hil Hj Hemb.
  split; intros Hb.
  - destruct (k_appended _ _ kv1 res1 N1 n_past Hsized HN1 Hpast Hwin1 Hw1 Hok1 il j e b)
      as [Heq [x Hx]]; try done.
    exists x. split; [done|]. rewrite <-Hx, <-Heq.
    pose proof (k_history _ _ _ _ _ _ Hs1 HN2 Hwin2 Hw2 Hok2 il (n_past + j) e b) as Hh.
    simpl in Hh. rewrite HeK in Hh. apply Hh; [done|lia|done|done].
  - destruct (v_appended _ _ kv1 res1 N1 n_past Hsized HN1 Hpast Hwin1 Hw1 Hok1 il j e b)
      as (row & Hrow & Heq & [x Hx]); try done.
    exists row, x. split_and!; [done|done|]. rewrite <-Hx, <-Heq.
    pose proof (v_history _ _ _ _ _ _ Hs1 HN2 Hwin2 Hw2 Hok2 il (n_past + j) e b) as Hh.
    simpl in Hh. rewrite HeV in Hh. apply Hh; [done|lia|done|done].
Qed.

Lemma eval_twice_keeps_first_witness :
  match GptNeoX.gptneox_model_eval_internal (EvalSteps.one_token Byte.xc0 Byte.xd0)
          EvalExamples.lctx0 [7] 1 1 4 with
  | Some (lctx1, _) =>
      match GptNeoX.gptneox_model_eval_internal (EvalSteps.one_token Byte.xc1 Byte.xd1)
              lctx1 [8] 1 (1 + 1) 4 with
      | Some (lctx2, _) =>
          GptNeoX.n (GptNeoX.kv_self lctx2) = 1 + 1 + 1 ∧
          GptNeoX.byte_at (GptNeoX.k (GptNeoX.kv_self lctx2))
            (GptNeoX.k_addr EvalExamples.hp 1 1 (1 + 0) 0 0) = Some Byte.xc0
      | None => False
      end
  | None => False
  end.
Proof.
  destruct (GptNeoX.gptneox_model_eval_internal (EvalSteps.one_token Byte.xc0 Byte.xd0)
              EvalExamples.lctx0 [7] 1 1 4) as [[lctx1 ok1]|] eqn:He1;
    [|vm_compute in He1; discriminate].
  destruct (GptNeoX.gptneox_model_eval_internal (EvalSteps.one_token Byte.xc1 Byte.xd1)
              lctx1 [8] 1 (1 + 1) 4) as [[lctx2 ok2]|] eqn:He2.
  - destruct (eval_twice_keeps_first (EvalSteps.one_token Byte.xc0 Byte.xd0)
                (EvalSteps.one_token Byte.xc1 Byte.xd1) EvalExamples.lctx0 [7] [8]
                1 1 1 4 4 lctx1 lctx2 ok1 ok2) as (Hn & Hkept).
    + unfold GptNeoX.kv_sized. simpl. lia.
    + lia.
    + simpl. lia.
    + exact He1.
    + exact He2.
    + split; [exact Hn|].
      destruct (Hkept 1 0 0 0) as [Hk _]; [simpl; lia|lia|simpl; lia|].
      destruct Hk as (x & Hx & Hb); [simpl; lia|].
      simpl in Hx. injection Hx as <-. exact Hb.
  - vm_compute in He1. injection He1 as <- <-. vm_compute in He2. discriminate.
Defined.

(** ** The evaluator: bookkeeping *)

(** X15.  A call that returns on [N] tokens adds [N] to the evaluated
    tokens, counted in [n_eval] for a single token and in [n_p_eval] for a
    longer batch; adds the measured time to the matching timer; appends the
    time to [eval_times]; and sets [mem_per_token] only when it was zero. *)
Theorem eval_accounts_tokens (res : GptNeoX.computed) (lctx : GptNeoX.model_context)
    (tokens : list Z) (N n_past n_threads : Z) (lctx' : GptNeoX.model_context) (ok : bool) :
  GptNeoX.gptneox_model_eval_internal res lctx tokens N n_past n_threads = Some (lctx', ok) →
  GptNeoX.n_eval lctx' + GptNeoX.n_p_eval lctx'
    = GptNeoX.n_eval lctx + GptNeoX.n_p_eval lctx + N ∧
  (N = 1 ↔ GptNeoX.n_eval lctx' ≠ GptNeoX.n_eval lctx) ∧
  GptNeoX.t_eval_us lctx' + GptNeoX.t_p_eval_us lctx'
    = GptNeoX.t_eval_us lctx + GptNeoX.t_p_eval_us lctx
      + (if N =? 0 then 0 else GptNeoX.time_interval res) ∧
  GptNeoX.eval_times lctx' = GptNeoX.eval_times lctx ++ [GptNeoX.time_interval res] ∧
  GptNeoX.mem_per_token lctx' =
    (if GptNeoX.mem_per_token lctx =? 0 then GptNeoX.used_mem res ÷ N
     else GptNeoX.mem_per_token lctx) ∧
  (GptNeoX.mem_per_token lctx = 0 → N ≠ 0).
Proof.
  intros He. pose proof (eval_internal_mem_per_token _ _ _ _ _ _ _ _ He) as Hmpt.
  apply eval_internal_inv in He
    as (kv1 & lg & mpt & _ & [HN _] & _ & _ & _ & Hm & -> & _).
  simpl in *.
  destruct (Z.eqb_spec N 1) as [->|H1]; simpl.
  - split_and!; try done; try lia.
  - destruct (Z.ltb_spec 1 N); destruct (Z.eqb_spec N 0); split_and!; try done; try lia.
Qed.

Lemma eval_accounts_tokens_witness :
  match GptNeoX.gptneox_model_eval_internal EvalExamples.res2 EvalExamples.lctx0
          EvalExamples.tokens2 2 1 4 with
  | Some (lctx', _) =>
      GptNeoX.n_eval lctx' + GptNeoX.n_p_eval lctx' = 0 + 0 + 2 ∧
      GptNeoX.mem_per_token lctx' = 2048
  | None => False
  end.
Proof.
  destruct (GptNeoX.gptneox_model_eval_internal EvalExamples.res2 EvalExamples.lctx0
              EvalExamples.tokens2 2 1 4) as [[lctx' ok]|] eqn:He;
    [|vm_compute in He; discriminate].
  destruct (eval_accounts_tokens EvalExamples.res2 EvalExamples.lctx0
              EvalExamples.tokens2 2 1 4 lctx' ok He) as (Hn & _ & _ & _ & Hm & _).
  split; [exact Hn|]. etrans; [exact Hm|reflexivity].
Defined.

Section ModelEval.
Import GptNeoX.

Lemma model_eval_inv res now lctx tokens n_tokens n_past n_threads lctx'' rc out :
  model_eval res now lctx tokens n_tokens n_past n_threads = Some (lctx'', rc, out) →
  ∃ lctx', gptneox_model_eval_internal res lctx tokens n_tokens n_past n_threads
             = Some (lctx', true) ∧
    rc = 0 ∧ out = [] ∧
    has_evaluated_once lctx'' = true ∧
    t_load_us lctx'' = (if has_evaluated_once lctx then t_load_us lctx
                        else now - t_start_us lctx) ∧
    t_start_us lctx'' = t_start_us lctx ∧
    kv_self lctx'' = kv_self lctx' ∧ logits lctx'' = logits lctx' ∧
    hparams lctx'' = hparams lctx.
Proof.
  unfold model_eval.
  destruct (gptneox_model_eval_internal _ _ _ _ _ _) as [[lctx' ok]|] eqn:He; [|done].
  pose proof He as Hinv.
  apply eval_internal_inv in Hinv as (kv1 & lg & mpt & _ & _ & _ & _ & _ & _ & -> & ->).
  simpl. destruct (has_evaluated_once lctx) eqn:Hev; simpl.
  - intros [= <- <- <-]. eexists. split; [done|]. simpl. by rewrite Hev.
  - intros [= <- <- <-]. eexists. split; [done|]. simpl. done.
Qed.

End ModelEval.

(** X16.  [model_eval] measures the load time once: the first call that
    returns sets [t_load_us] to the clock minus [t_start_us] and raises
    [has_evaluated_once]; a call on a context that has been evaluated
    already leaves [t_load_us] as it is, whatever the clock says. *)
Theorem load_time_measured_once (res res' : GptNeoX.computed) (now now' : Z)
    (lctx : GptNeoX.model_context) (tokens tokens' : list Z)
    (n_tokens n_tokens' n_past n_past' n_threads n_threads' : Z)
    (lctx1 lctx2 : GptNeoX.model_context) (rc1 rc2 : Z) (out1 out2 : list string) :
  GptNeoX.model_eval res now lctx tokens n_tokens n_past n_threads
    = Some (lctx1, rc1, out1) →
  GptNeoX.model_eval res' now' lctx1 tokens' n_tokens' n_past' n_threads'
    = Some (lctx2, rc2, out2) →
  GptNeoX.has_evaluated_once lctx1 = true ∧
  GptNeoX.t_load_us lctx1 =
    (if GptNeoX.has_evaluated_once lctx then GptNeoX.t_load_us lctx
     else now - GptNeoX.t_start_us lctx) ∧
  GptNeoX.has_evaluated_once lctx2 = true ∧
  GptNeoX.t_load_us lctx2 = GptNeoX.t_load_us lctx1 ∧
  GptNeoX.t_start_us lctx2 = GptNeoX.t_start_us lctx.
Proof.
  intros H1 H2.
  apply model_eval_inv in H1 as (l1 & _ & _ & _ & Hev1 & Hl1 & Hs1 & _).
  apply model_eval_inv in H2 as (l2 & _ & _ & _ & Hev2 & Hl2 & Hs2 & _).
  rewrite Hev1 in Hl2. split_and!; try done. congruence.
Qed.

Lemma load_time_measured_once_witness :
  match GptNeoX.model_eval (EvalSteps.one_token Byte.xc0 Byte.xd0) 1000
          EvalExamples.lctx0 [7] 1 1 4 with
  | Some (lctx1, _, _) =>
      match GptNeoX.model_eval (EvalSteps.one_token Byte.xc1 Byte.xd1) 5000
              lctx1 [8] 1 2 4 with
      | Some (lctx2, _, _) =>
          GptNeoX.t_load_us lctx1 = 1000 - 0 ∧
          GptNeoX.t_load_us lctx2 = GptNeoX.t_load_us lctx1
      | None => False
      end
  | None => False
  end.
Proof.
  destruct (GptNeoX.model_eval (EvalSteps.one_token Byte.xc0 Byte.xd0) 1000
              EvalExamples.lctx0 [7] 1 1 4) as [[[lctx1 rc1] out1]|] eqn:He1;
    [|vm_compute in He1; discriminate].
  destruct (GptNeoX.model_eval (EvalSteps.one_token Byte.xc1 Byte.xd1) 5000
              lctx1 [8] 1 2 4) as [[[lctx2 rc2] out2]|] eqn:He2.
  - destruct (load_time_measured_once _ _ _ _ _ _ _ _ _ _ _ _ _ _ _ _ _ _ _ He1 He2)
      as (_ & Hl1 & _ & Hl2 & _).
    split; [exact Hl1|exact Hl2].
  - vm_compute in He1. injection He1 as <- <- <-. vm_compute in He2. discriminate.
Defined.

(** ** The evaluator on an empty batch *)

Section EmptyBatch.
Import GptNeoX.


End EmptyBatch.



(** ** The hash of the quantization table *)

(** X18.  [MyHash] combines the hashes of the five fields of a key with
    exclusive or, so whatever [std::hash] computes: exchanging the two
    integers of a key, or any two of its strings, gives a key with the same
    hash, and two equal strings cancel each other. *)
Theorem MyHash_forgets_field_order (hash_int : Z → N) (hash_string : string → N)
    (bits block_size : Z) (alg scale_dtype gemm_isa : string) :
  let h := Common.MyHash hash_int hash_string in
  h (bits, alg, block_size, scale_dtype, gemm_isa)
    = h (block_size, alg, bits, scale_dtype, gemm_isa) ∧
  h (bits, alg, block_size, scale_dtype, gemm_isa)
    = h (bits, scale_dtype, block_size, alg, gemm_isa) ∧
  h (bits, alg, block_size, scale_dtype, gemm_isa)
    = h (bits, alg, block_size, gemm_isa, scale_dtype) ∧
  h (bits, alg, block_size, scale_dtype, gemm_isa)
    = h (bits, gemm_isa, block_size, scale_dtype, alg) ∧
  h (bits, alg, block_size, alg, gemm_isa)
    = N.lxor (N.lxor (hash_int bits) (hash_int block_size)) (hash_string gemm_isa).
Proof.
  cbv zeta. unfold Common.MyHash.
  split_and!; apply N.bits_inj; intros i; rewrite ?N.lxor_spec;
    repeat match goal with |- context [N.testbit ?x i] =>
      let b := fresh "b" in generalize (N.testbit x i); intros b end;
    repeat match goal with b : bool |- _ => destruct b end; reflexivity.
Qed.
